(** * FrankenText: token interner, successor graph, tokenizer and sampler

    A shallow embedding of [main.c] and the properties of its four core
    pieces: the open-addressed token interner, the per-token successor
    lists, the [strtok_r] tokenizer loop and the bounded random walk of
    [generate_sentence].

    Modelling conventions.
    - A C string is represented by its content, the bytes before the
      terminating NUL, as a [string]; [strcmp(a, b) == 0] is equality of
      contents.  A pointer into the book is the string it points to.
    - The program's globals are the fields of [state], which every function
      takes and returns.  An array that the program uses together with a
      count ([tokens]/[tokens_size], each [succs[id]]/[succs_sizes[id]]) is
      the list of its first count entries, so [tokens_size] is the length
      of [tokens] and [succs_sizes[id]] the length of [succs[id]].  Reading
      at or past the count is the error [OutOfBounds].
    - The caller's buffer [out] is the C string it holds; a write that
      needs more than [out_size] bytes is the error [BufferOverflow].
    - [unsigned long] is 64 bits wide (LP64) and [int] 32 bits; the hash
      arithmetic and the casts between [size_t] and [int] wrap as in C.
      A [size_t] that counts the elements of an array or adds the lengths
      of strings held in memory stays below 2^64 and is an integer of [Z].
    - [exit(1)] is the error [ExitFailure]; allocation is assumed to succeed.
    - [rand()] reads the next element of a stream of natural numbers.
    - The two unbounded loops ([while (tok)] and the walk) take a number of
      iterations as fuel; [OutOfFuel] is shown not to occur with the fuel
      the model gives them.
    - Ghost data (the log of the tokenizer, the outcome and the step count
      of a walk) is computed next to the program's results and marked as
      such; the program does not compute it. *)

From Stdlib Require Import ZArith String Ascii Lia.
From stdpp Require Import base tactics option list numbers strings.

Local Open Scope Z_scope.

(** ** Results of fallible code *)

Inductive error : Type :=
  | ExitFailure      (* the process called exit(1) *)
  | OutOfBounds      (* an array was read or written outside its used part *)
  | BufferOverflow   (* a string was written past the end of its buffer *)
  | DivisionByZero   (* x % 0 *)
  | OutOfFuel.       (* a loop of the model ran out of iterations *)

Inductive result (A : Type) : Type :=
  | Ok (a : A)
  | Err (e : error).
Arguments Ok {A} a.
Arguments Err {A} e.

Definition result_bind {A B} (f : A → result B) (m : result A) : result B :=
  match m with
  | Ok a => f a
  | Err e => Err e
  end.

#[global] Instance result_mbind : MBind result := @result_bind.
#[global] Instance result_mret : MRet result := @Ok.
#[global] Instance result_fmap : FMap result :=
  λ A B f m, result_bind (λ a, Ok (f a)) m.

Definition is_ok {A} (m : result A) : Prop := ∃ a, m = Ok a.

(** ** Machine integers *)

Definition ULONG_BITS : Z := 64.
Definition INT_BITS : Z := 32.

(** Reduction of an integer to [unsigned long] (and [size_t]). *)
Definition to_ulong (z : Z) : Z := z mod 2 ^ ULONG_BITS.

(** The cast [(int)x]: two's complement wrap-around to 32 bits. *)
Definition to_int (z : Z) : Z :=
  let w := z mod 2 ^ INT_BITS in
  if w <? 2 ^ (INT_BITS - 1) then w else w - 2 ^ INT_BITS.

(** ** C strings *)

Definition NUL : ascii := Ascii.zero.

Definition strlen (s : string) : Z := Z.of_nat (String.length s).

(** [s[0]] of a C string: its first byte, the terminator when it is empty. *)
Definition first_char (s : string) : ascii :=
  match s with
  | EmptyString => NUL
  | String c _ => c
  end.

Fixpoint last_char (s : string) : ascii :=
  match s with
  | EmptyString => NUL
  | String c EmptyString => c
  | String _ s' => last_char s'
  end.

Definition char_code (c : ascii) : Z := Z.of_N (N_of_ascii c).

(** [isalpha(c) && isupper(c)] in the C locale, which the program never
    changes: the letters 'A' to 'Z'. *)
Definition isalpha (c : ascii) : bool :=
  ((65 <=? char_code c) && (char_code c <=? 90)) ||
  ((97 <=? char_code c) && (char_code c <=? 122)).
Definition isupper (c : ascii) : bool :=
  (65 <=? char_code c) && (char_code c <=? 90).

Definition token_ends_a_sentence (token : string) : bool :=
  let c := last_char token in
  bool_decide (c = "."%char) || bool_decide (c = "?"%char) || bool_decide (c = "!"%char).

Definition ends_with_char (s : string) (c : ascii) : bool :=
  bool_decide (last_char s = c).

(** ** The globals *)

Definition HASH_SIZE : Z := 524287.
Definition INIT_SUCC_CAP : Z := 4.

Record state : Type := State {
  tokens : list string;          (* tokens[0 .. tokens_size) *)
  tokens_cap : Z;
  hash_index : Z → Z;            (* hash_index[0 .. HASH_SIZE) *)
  succs : list (list string);    (* succs[id][0 .. succs_sizes[id]) *)
  succs_caps : list Z;
}.

Definition tokens_size (st : state) : Z := Z.of_nat (length (tokens st)).

(** Reading [a[i]] in the used part of an array. *)
Definition array_get {A} (a : list A) (i : Z) : result A :=
  if i <? 0 then Err OutOfBounds
  else match a !! Z.to_nat i with
       | Some x => Ok x
       | None => Err OutOfBounds
       end.

(** Writing [a[i] = x] in the used part of an array. *)
Definition array_set {A} (a : list A) (i : Z) (x : A) : result (list A) :=
  if (0 <=? i) && (i <? Z.of_nat (length a)) then Ok (<[Z.to_nat i := x]> a)
  else Err OutOfBounds.

Definition succs_sizes (st : state) (id : Z) : result Z :=
  arr ← array_get (succs st) id; Ok (Z.of_nat (length arr)).

(** The statics before [main] runs, [hash_init] and the first
    [ensure_tokens_capacity]. *)
Definition static_state : state :=
  {| tokens := []; tokens_cap := 0; hash_index := λ _, 0;
     succs := []; succs_caps := [] |}.

(** The four arrays are reallocated to the new capacity; their used parts
    stay as they are. *)
Definition ensure_tokens_capacity (st : state) : state :=
  if tokens_size st >=? tokens_cap st then
    let new_cap := if tokens_cap st =? 0 then 32768 else tokens_cap st * 2 in
    {| tokens := tokens st; tokens_cap := new_cap; hash_index := hash_index st;
       succs := succs st; succs_caps := succs_caps st |}
  else st.

(** ** The interner *)

Fixpoint hash_str_from (h : Z) (s : string) : Z :=
  match s with
  | EmptyString => h
  | String c s' =>
      hash_str_from (Z.lxor (to_ulong (to_ulong (Z.shiftl h 5) + h)) (char_code c)) s'
  end.

Definition hash_str (s : string) : Z := hash_str_from 5381 s.

Definition hash_init (st : state) : state :=
  {| tokens := tokens st; tokens_cap := tokens_cap st; hash_index := λ _, -1;
     succs := succs st; succs_caps := succs_caps st |}.

(** The probe loop of [hash_find]: [n] iterations remain, the next one
    looks at slot [(h + probe) % HASH_SIZE]. *)
Fixpoint hash_find_loop (s : string) (st : state) (h : Z) (n : nat) (probe : Z)
    : result Z :=
  match n with
  | O => Ok (-1)
  | S n' =>
      let i := (h + probe) mod HASH_SIZE in
      let id := hash_index st i in
      if id =? -1 then Ok (-1)
      else
        t ← array_get (tokens st) id;
        if bool_decide (t = s) then Ok id
        else hash_find_loop s st h n' (probe + 1)
  end.

Definition hash_find (s : string) (st : state) : result Z :=
  let h := hash_str s mod HASH_SIZE in
  hash_find_loop s st h (Z.to_nat HASH_SIZE) 0.

Definition set_hash_index (st : state) (i id : Z) : state :=
  {| tokens := tokens st; tokens_cap := tokens_cap st;
     hash_index := λ j, if j =? i then id else hash_index st j;
     succs := succs st; succs_caps := succs_caps st |}.

Fixpoint hash_insert_loop (st : state) (h id : Z) (n : nat) (probe : Z)
    : result state :=
  match n with
  | O => Err ExitFailure
  | S n' =>
      let i := (h + probe) mod HASH_SIZE in
      if hash_index st i =? -1 then Ok (set_hash_index st i id)
      else hash_insert_loop st h id n' (probe + 1)
  end.

Definition hash_insert (s : string) (id : Z) (st : state) : result state :=
  let h := hash_str s mod HASH_SIZE in
  hash_insert_loop st h id (Z.to_nat HASH_SIZE) 0.

(** [tokens[id] = tok] with [id = tokens_size++], and the empty successor
    list of the new identifier. *)
Definition push_token (tok : string) (st : state) : state :=
  {| tokens := tokens st ++ [tok]; tokens_cap := tokens_cap st;
     hash_index := hash_index st;
     succs := succs st ++ [[]]; succs_caps := succs_caps st ++ [0] |}.

Definition token_id (tok : string) (st : state) : result (Z * state) :=
  found ← hash_find tok st;
  if 0 <=? found then Ok (to_ulong found, st)
  else
    let st1 := ensure_tokens_capacity st in
    let id := tokens_size st1 in
    let st2 := push_token tok st1 in
    st3 ← hash_insert tok (to_int id) st2;
    Ok (id, st3).

Definition set_succs (st : state) (arrs : list (list string)) (caps : list Z) : state :=
  {| tokens := tokens st; tokens_cap := tokens_cap st; hash_index := hash_index st;
     succs := arrs; succs_caps := caps |}.

Definition append_to_succs (prev curr : string) (st : state) : result state :=
  '(pid, st1) ← token_id prev st;
  cap ← array_get (succs_caps st1) pid;
  size ← succs_sizes st1 pid;
  let new_cap :=
    if cap =? 0 then INIT_SUCC_CAP
    else if size >=? cap then cap * 2
    else cap in
  arr ← array_get (succs st1) pid;
  if size <? new_cap then
    caps' ← array_set (succs_caps st1) pid new_cap;
    arrs' ← array_set (succs st1) pid (arr ++ [curr]);
    Ok (set_succs st1 arrs' caps')
  else Err OutOfBounds.

Definition boot : state := ensure_tokens_capacity (hash_init static_state).

(** ** The tokenizer *)

Definition is_delim (delimiters : string) (c : ascii) : bool :=
  bool_decide (c ∈ list_ascii_of_string delimiters).

(** [s + strspn(s, delimiters)]: the rest of the buffer after its leading
    delimiters. *)
Fixpoint skip_delims (delimiters s : string) : string :=
  match s with
  | EmptyString => EmptyString
  | String c s' => if is_delim delimiters c then skip_delims delimiters s' else s
  end.

(** The token that starts at [s], of length [strcspn(s, delimiters)], and
    the buffer that [*saveptr] is left pointing to: past the delimiter that
    was overwritten with NUL, or at the end of the buffer. *)
Fixpoint split_token (delimiters s : string) : string * string :=
  match s with
  | EmptyString => (EmptyString, EmptyString)
  | String c s' =>
      if is_delim delimiters c then (EmptyString, s')
      else let '(tok, save) := split_token delimiters s' in (String c tok, save)
  end.

(** [strtok_r]: [None] is the NULL result; the second component is the
    buffer [*saveptr] points to afterwards. *)
Definition strtok_r (delimiters s : string) : option (string * string) :=
  match skip_delims delimiters s with
  | EmptyString => None
  | s1 => Some (split_token delimiters s1)
  end.

(** What a run of the tokenizer leaves: the globals, and as ghost data the
    sequence of tokens [strtok_r] returned and the sequence of calls
    [append_to_succs prev tok], both in program order. *)
Record tokenized : Type := Tokenized {
  t_state : state;
  t_yielded : list string;
  t_edges : list (string * string);
}.

Definition log_token (prev : option string) (tok : string) (r : tokenized) : tokenized :=
  {| t_state := t_state r;
     t_yielded := tok :: t_yielded r;
     t_edges := match prev with
                | Some p => (p, tok) :: t_edges r
                | None => t_edges r
                end |}.

(** The [while (tok)] loop; [tok] is the last result of [strtok_r]. *)
Fixpoint tokenize_loop (fuel : nat) (delimiters : string) (prev : option string)
    (tok : option (string * string)) (st : state) : result tokenized :=
  match tok with
  | None => Ok {| t_state := st; t_yielded := []; t_edges := [] |}
  | Some (t, save) =>
      match fuel with
      | O => Err OutOfFuel
      | S fuel' =>
          '(_, st1) ← token_id t st;
          st2 ← match prev with
                | Some p => append_to_succs p t st1
                | None => Ok st1
                end;
          r ← tokenize_loop fuel' delimiters (Some t) (strtok_r delimiters save) st2;
          Ok (log_token prev t r)
      end
  end.

Definition tokenize_run (delimiters str : string) (st : state) : result tokenized :=
  tokenize_loop (String.length str) delimiters None (strtok_r delimiters str) st.

Definition tokenize_and_fill_succs (delimiters str : string) (st : state) : result state :=
  r ← tokenize_run delimiters str st; Ok (t_state r).

(** ** The sampler *)

(** The values the successive calls of [rand()] return. *)
Definition rng : Type := nat → N.

(** [RAND_MAX] of the C library: [rand()] returns an [int] from 0 to it. *)
Definition RAND_MAX : Z := 2147483647.

Definition rand (r : rng) : Z * rng :=
  (Z.of_N (r 0%nat) mod (RAND_MAX + 1), λ n, r (S n)).

(** [a % b] on [int]. *)
Definition int_rem (a b : Z) : result Z :=
  if b =? 0 then Err DivisionByZero else Ok (Z.rem a b).

Definition starts_a_sentence (t : string) : bool :=
  let c0 := first_char t in isalpha c0 && isupper c0.

Definition ATTEMPTS : Z := 10000.

(** The loop of random picks; [None] when it ends without a [return]. *)
Fixpoint random_pick_loop (n : nat) (st : state) (r : rng) : result (option Z * rng) :=
  match n with
  | O => Ok (None, r)
  | S n' =>
      if tokens_size st =? 0 then Ok (None, r)
      else
        let '(x, r1) := rand r in
        m ← int_rem x (to_int (tokens_size st));
        let i := to_ulong m in
        t ← array_get (tokens st) i;
        if starts_a_sentence t then Ok (Some i, r1)
        else random_pick_loop n' st r1
  end.

(** The fallback scan [for (i = ...; i < tokens_size; ++i)] over the tokens
    from index [i] on, and the final [return 0]. *)
Fixpoint first_capitalized (ts : list string) (i : Z) : Z :=
  match ts with
  | [] => 0
  | t :: ts' => if starts_a_sentence t then i else first_capitalized ts' (i + 1)
  end.

Definition random_token_id_that_starts_a_sentence (st : state) (r : rng)
    : result (Z * rng) :=
  '(pick, r1) ← random_pick_loop (Z.to_nat ATTEMPTS) st r;
  match pick with
  | Some i => Ok (i, r1)
  | None => Ok (first_capitalized (tokens st) 0, r1)
  end.

(** [strcat(out, src)] into a buffer of [out_size] bytes. *)
Definition strcat (out_size : Z) (out src : string) : result string :=
  if strlen out + strlen src + 1 <=? out_size then Ok (out +:+ src)
  else Err BufferOverflow.

(** [strncat(out, src, n)]: at most [n] bytes of [src] and a terminator. *)
Definition strncat (out_size : Z) (out src : string) (n : Z) : result string :=
  strcat out_size out (substring 0 (Z.to_nat n) src).

(** How a walk ended (ghost data: the program returns the buffer only). *)
Inductive outcome : Type := Terminal | DeadEnd | Truncated.

Record walk : Type := Walk {
  w_out : string;        (* the C string in the caller's buffer *)
  w_state : state;       (* the globals *)
  w_rng : rng;           (* the rest of the random stream *)
  w_outcome : outcome;   (* ghost: which exit was taken *)
  w_steps : Z;           (* ghost: iterations of the while loop entered *)
}.

Definition count_step (w : walk) : walk :=
  {| w_out := w_out w; w_state := w_state w; w_rng := w_rng w;
     w_outcome := w_outcome w; w_steps := w_steps w + 1 |}.

(** How one pass through the body of the while loop ends: at a [break],
    or at the end of the body with a new [out] and [token]. *)
Inductive step : Type :=
  | Break (out : string) (st : state) (r : rng) (o : outcome)
  | Next (out token : string) (st : state) (r : rng).

(** The body of the [while] loop of [generate_sentence]. *)
Definition walk_step (out_size : Z) (out token : string) (st : state) (r : rng)
    : result step :=
  '(curr_id, st1) ← token_id token st;
  nsucc ← succs_sizes st1 curr_id;
  if nsucc =? 0 then Ok (Break out st1 r DeadEnd)
  else
    let '(x, r1) := rand r in
    arr ← array_get (succs st1) curr_id;
    next ← array_get arr (x mod nsucc);
    let need := strlen out + 1 + strlen next + 1 in
    if need >=? out_size then Ok (Break out st1 r1 Truncated)
    else
      out1 ← strcat out_size out " ";
      out2 ← strcat out_size out1 next;
      if token_ends_a_sentence next then Ok (Break out2 st1 r1 Terminal)
      else Ok (Next out2 next st1 r1).

(** The [while (strlen(out) + 2 < out_size)] loop. *)
Fixpoint walk_loop (fuel : nat) (out_size : Z) (out token : string)
    (st : state) (r : rng) : result walk :=
  if strlen out + 2 <? out_size then
    match fuel with
    | O => Err OutOfFuel
    | S fuel' =>
        s ← walk_step out_size out token st r;
        match s with
        | Break out' st' r' o => Ok (Walk out' st' r' o 1)
        | Next out' token' st' r' =>
            count_step <$> walk_loop fuel' out_size out' token' st' r'
        end
    end
  else Ok (Walk out st r Truncated 0).

(** The token the walk starts from: [tokens[start_id]], or the empty string
    literal when [tokens_size] is 0. *)
Definition start_token (st : state) (start_id : Z) : result string :=
  if tokens_size st =? 0 then Ok EmptyString
  else array_get (tokens st) start_id.

Definition generate_sentence_run (out : string) (out_size : Z) (st : state) (r : rng)
    : result walk :=
  if out_size =? 0 then Ok (Walk out st r Truncated 0)
  else
    '(start_id, r1) ← random_token_id_that_starts_a_sentence st r;
    token ← start_token st start_id;
    out1 ← strncat out_size EmptyString token (out_size - 1);
    if token_ends_a_sentence token then Ok (Walk out1 st r1 Terminal 0)
    else walk_loop (Z.to_nat out_size) out_size out1 token st r1.

(** What the program gets from a call: the buffer, the globals and the
    state of [rand]. *)
Definition generate_sentence (out : string) (out_size : Z) (st : state) (r : rng)
    : result (string * state * rng) :=
  w ← generate_sentence_run out out_size st r; Ok (w_out w, w_state w, w_rng w).

(** ** The invariant of the interning table *)

(** The slot that probe number [p] of spelling [s] looks at. *)
Definition slot (s : string) (p : Z) : Z :=
  (hash_str s mod HASH_SIZE + p) mod HASH_SIZE.

Record wf (st : state) : Prop := {
  (* the successor arrays run parallel to [tokens] *)
  wf_succs_len : length (succs st) = length (tokens st);
  wf_caps_len : length (succs_caps st) = length (tokens st);
  (* every slot is empty or holds an assigned identifier *)
  wf_range : ∀ i, 0 ≤ i < HASH_SIZE →
    hash_index st i = -1 ∨ 0 ≤ hash_index st i < tokens_size st;
  (* no identifier sits in two slots *)
  wf_inj : ∀ i j, 0 ≤ i < HASH_SIZE → 0 ≤ j < HASH_SIZE →
    hash_index st i ≠ -1 → hash_index st i = hash_index st j → i = j;
  (* one identifier per spelling *)
  wf_nodup : NoDup (tokens st);
  (* every identifier is reached by probing from its spelling's hash
     before any empty slot *)
  wf_placed : ∀ (id : nat) s, tokens st !! id = Some s →
    ∃ p, 0 ≤ p < HASH_SIZE ∧ hash_index st (slot s p) = Z.of_nat id ∧
         ∀ q, 0 ≤ q < p → hash_index st (slot s q) ≠ -1;
  (* a successor array never holds more than its capacity *)
  wf_caps : ∀ (id : nat) arr cap,
    succs st !! id = Some arr → succs_caps st !! id = Some cap →
    Z.of_nat (length arr) ≤ cap;
}.

(** Every spelling in a successor list has an identifier. *)
Definition succs_closed (st : state) : Prop :=
  Forall (Forall (λ t, t ∈ tokens st)) (succs st).

(** ** Runs of the interner *)

(** A run of [token_id] over a sequence of spellings, with the identifiers
    it returned. *)
Fixpoint intern_all (ss : list string) (st : state) : result (list Z * state) :=
  match ss with
  | [] => Ok ([], st)
  | s :: ss' =>
      '(id, st1) ← token_id s st;
      '(ids, st2) ← intern_all ss' st1;
      Ok (id :: ids, st2)
  end.

(** The distinct spellings of [ss] in the order of their first occurrence,
    after those already [seen]. *)
Fixpoint first_seen (seen ss : list string) : list string :=
  match ss with
  | [] => seen
  | s :: ss' => first_seen (if decide (s ∈ seen) then seen else seen ++ [s]) ss'
  end.

(** ** The tokenizer as [main] calls it *)

(** The delimiters [" \n\r"] that [main] passes. *)
Definition main_delimiters : string :=
  String " " (String "010" (String "013" EmptyString)).

(** What one reads off a finished run: the tokens yielded, the edges
    recorded, the interning table, the successor lists, and what
    [hash_find] answers for each yielded token. *)
Definition tokenize_report (str : string)
    : result (list string * list (string * string) * list string *
              list (list string) * list (result Z)) :=
  r ← tokenize_run main_delimiters str boot;
  Ok (t_yielded r, t_edges r, tokens (t_state r), succs (t_state r),
      (λ t, hash_find t (t_state r)) <$> t_yielded r).

(** ** Observed pairs *)

(** The consecutive pairs of a sequence of tokens, in order. *)
Fixpoint adjacent (ts : list string) : list (string * string) :=
  match ts with
  | [] => []
  | x :: ts' =>
      match ts' with
      | [] => []
      | y :: _ => (x, y) :: adjacent ts'
      end
  end.

(** The second components of the pairs whose first component is [a], in
    order and with repetitions. *)
Definition followers (a : string) (es : list (string * string)) : list string :=
  snd <$> filter (λ e, e.1 = a) es.

(** The successor lists hold exactly the pairs [es]. *)
Definition records (es : list (string * string)) (st : state) : Prop :=
  ∀ (id : nat) a, tokens st !! id = Some a → succs st !! id = Some (followers a es).

(** Both ends of every pair have an identifier. *)
Definition interned_ends (es : list (string * string)) (st : state) : Prop :=
  Forall (λ e, e.1 ∈ tokens st ∧ e.2 ∈ tokens st) es.

(** The capacity [append_to_succs] leaves for an array of [size] entries
    and capacity [cap]. *)
Definition grown_cap (size cap : Z) : Z :=
  if cap =? 0 then INIT_SUCC_CAP
  else if size >=? cap then cap * 2
  else cap.

(** ** The walk *)

(** What the body does once [token_id] has answered [curr_id] and [arr] is
    the successor list read at [curr_id]. *)
Definition step_of (out_size : Z) (out : string) (st1 : state) (r : rng)
    (arr : list string) (s : step) : Prop :=
  (arr = [] ∧ s = Break out st1 r DeadEnd) ∨
  (∃ next,
     arr !! Z.to_nat ((rand r).1 mod Z.of_nat (length arr)) = Some next ∧
     ((out_size ≤ strlen out + 1 + strlen next + 1 ∧
       s = Break out st1 (rand r).2 Truncated) ∨
      (strlen out + 1 + strlen next + 1 < out_size ∧
       s = if token_ends_a_sentence next
           then Break ((out +:+ " ") +:+ next) st1 (rand r).2 Terminal
           else Next ((out +:+ " ") +:+ next) next st1 (rand r).2))).


(** ** Start selection *)

(** The random stream after [k] calls of [rand()]. *)
Definition drop_rng (k : nat) (r : rng) : rng := λ n, r (k + n)%nat.

(** The identifier that the call number [k] of [rand()] picks. *)
Definition drawn_id (st : state) (r : rng) (k : nat) : Z :=
  (rand (drop_rng k r)).1 mod tokens_size st.

(** [id] is an identifier whose spelling begins with an uppercase letter. *)
Definition capitalized (st : state) (id : Z) : bool :=
  match array_get (tokens st) id with
  | Ok t => starts_a_sentence t
  | Err _ => false
  end.

(** ** A small model *)

(** The globals after [main] has tokenized "Alice saw Bob. Bob ran!". *)
Definition alice_state : state :=
  match tokenize_and_fill_succs main_delimiters "Alice saw Bob. Bob ran!" boot with
  | Ok st => st
  | Err _ => boot
  end.

(** A stream for [rand()]: 3, 10, 17, ... *)
Definition sample_rng : rng := λ n, N.of_nat (7 * n + 3).

(** The globals after [main] has tokenized [str]. *)
Definition state_of (str : string) : state :=
  match tokenize_and_fill_succs main_delimiters str boot with
  | Ok st => st
  | Err _ => boot
  end.

(** A call of [generate_sentence] as the caller sees it: the buffer, how
    the globals differ, and as ghost data the outcome and the number of
    passes. *)
Definition sentence_report (out_size : Z) (st : state) (r : rng)
    : result (string * list string * list (list string) * outcome * Z) :=
  w ← generate_sentence_run EmptyString out_size st r;
  Ok (w_out w, tokens (w_state w), succs (w_state w), w_outcome w, w_steps w).

(** Streams for [rand()] that always return 0, and always 1. *)
Definition rng_zeros : rng := λ _, 0%N.
Definition rng_ones : rng := λ _, 1%N.

(** ** The driver *)

(** [sizeof buf] in [main]. *)
Definition BUF_SIZE : Z := 4096.

(** One of the two retry loops of [main]: up to [tries] calls of
    [generate_sentence] into [buf], until the buffer ends with [c].  The
    first component of the result is the sentence that was printed, if
    any. *)
Fixpoint retry_loop (tries : nat) (c : ascii) (buf : string) (st : state) (r : rng)
    : result (option string * string * state * rng) :=
  match tries with
  | O => Ok (None, buf, st, r)
  | S tries' =>
      '(out, st1, r1) ← generate_sentence buf BUF_SIZE st r;
      if ends_with_char out c then Ok (Some out, out, st1, r1)
      else retry_loop tries' c out st1 r1
  end.

Definition TRIES : Z := 1000.

(** The states the globals go through in a run of [main]: the tokenizer
    fills them once, then [generate_sentence] is called any number of
    times. *)
Inductive reachable : state → Prop :=
  | reach_tokenized (delimiters str : string) (st : state) :
      tokenize_and_fill_succs delimiters str boot = Ok st →
      reachable st
  | reach_generated (st : state) (out : string) (out_size : Z) (r : rng)
        (out' : string) (st' : state) (r' : rng) :
      reachable st → 0 ≤ out_size →
      generate_sentence out out_size st r = Ok (out', st', r') →
      reachable st'.

(** * More of [main.c] *)

(** ** The scrubber *)

(** [isprint(c)] in the C locale: the space and the visible characters. *)
Definition isprint (c : ascii) : bool :=
  (32 <=? char_code c) && (char_code c <=? 126).

(** The loop over [book_mut] up to its terminator. *)
Fixpoint replace_non_printable_chars_with_space (s : string) : string :=
  match s with
  | EmptyString => EmptyString
  | String c s' =>
      String (if isprint c then c else " "%char)
             (replace_non_printable_chars_with_space s')
  end.

(** ** The sequence of tokens *)

(** The results of the successive calls of [strtok_r], [tok] being the
    first: what the [while (tok)] loop iterates over. *)
Fixpoint strtok_seq (fuel : nat) (delimiters : string)
    (tok : option (string * string)) : list string :=
  match tok with
  | None => []
  | Some (t, save) =>
      match fuel with
      | O => []
      | S fuel' => t :: strtok_seq fuel' delimiters (strtok_r delimiters save)
      end
  end.

Definition strtok_all (delimiters str : string) : list string :=
  strtok_seq (String.length str) delimiters (strtok_r delimiters str).

(** No byte of [s] is a delimiter. *)
Definition delimiter_free (delimiters s : string) : Prop :=
  Forall (λ c, is_delim delimiters c = false) (list_ascii_of_string s).

(** Every byte of [s] is a delimiter. *)
Definition only_delimiters (delimiters s : string) : Prop :=
  Forall (λ c, is_delim delimiters c = true) (list_ascii_of_string s).

(** The words [ws] with one byte [sep] between neighbours. *)
Definition join_words (sep : ascii) (ws : list string) : string :=
  String.concat (String sep EmptyString) ws.

(** ** The program *)

(** [main] on the text of the book, the stream of [rand()] and whatever the
    buffer [buf] holds at first: the sentences it prints, the question
    first. *)
Definition main (book buf : string) (r : rng)
    : result (option string * option string) :=
  let book_mut := replace_non_printable_chars_with_space book in
  let st0 := ensure_tokens_capacity (hash_init static_state) in
  st ← tokenize_and_fill_succs main_delimiters book_mut st0;
  '(question, buf1, st1, r1) ← retry_loop (Z.to_nat TRIES) "?" buf st r;
  '(exclamation, _, _, _) ← retry_loop (Z.to_nat TRIES) "!" buf1 st1 r1;
  Ok (question, exclamation).

(** ** Capacities *)

(** A successor array and its capacity: never appended to, or grown from 4
    by doubling, only when full. *)
Definition succ_cap_ok (arr : list string) (cap : Z) : Prop :=
  (arr = [] ∧ cap = 0) ∨
  (1 ≤ Z.of_nat (length arr) ≤ cap ∧
   cap ≤ Z.max INIT_SUCC_CAP (2 * (Z.of_nat (length arr) - 1)) ∧
   ∃ k : nat, cap = INIT_SUCC_CAP * 2 ^ Z.of_nat k).

(** The allocations cover what is in use, and no more than twice that once
    they have grown. *)
Record caps_ok (st : state) : Prop := {
  caps_tokens : tokens_size st ≤ tokens_cap st;
  caps_tokens_tight : tokens_cap st ≤ Z.max 32768 (2 * (tokens_size st - 1));
  caps_tokens_pow : ∃ k : nat, tokens_cap st = 32768 * 2 ^ Z.of_nat k;
  caps_succs : ∀ (id : nat) arr cap,
    succs st !! id = Some arr → succs_caps st !! id = Some cap →
    succ_cap_ok arr cap;
}.

(** ** Sentences as paths *)

(** [next] is in the successor list of [token]. *)
Definition follows (st : state) (token next : string) : Prop :=
  ∃ (id : nat) arr,
    tokens st !! id = Some token ∧ succs st !! id = Some arr ∧ next ∈ arr.

(** Each token of [ts] is a successor of the one before it, the first one
    of [token]. *)
Fixpoint chain (st : state) (token : string) (ts : list string) : Prop :=
  match ts with
  | [] => True
  | t :: ts' => follows st token t ∧ chain st t ts'
  end.

(** [out] after [strcat(out, " "); strcat(out, t)] for each [t] of [ts]. *)
Definition append_tokens (out : string) (ts : list string) : string :=
  fold_left (λ o t, (o +:+ " ") +:+ t) ts out.

(** ** A vocabulary without words *)

(** The table holds at most the empty spelling and no successor. *)
Definition mute (st : state) : Prop :=
  wf st ∧
  Forall (λ t, t = EmptyString) (tokens st) ∧
  Forall (λ arr, arr = []) (succs st).

(** ** What [main] prints *)

(** The words of the book in order, as [main] scrubs and tokenizes it. *)
Definition book_words (book : string) : list string :=
  strtok_all main_delimiters (replace_non_printable_chars_with_space book).

(** [s] is a first word of [words], of which at most [n] bytes are kept,
    followed by words with one space before each, where each word and the
    next stand next to each other somewhere in [words]. *)
Definition made_of (words : list string) (n : nat) (s : string) : Prop :=
  ∃ start ts,
    start ∈ words ∧
    s = append_tokens (substring 0 n start) ts ∧
    Forall (λ e, e ∈ adjacent words) (adjacent (start :: ts)).

(** The byte [c] occurs in [s]. *)
Definition occurs (c : ascii) (s : string) : Prop := c ∈ list_ascii_of_string s.

(** ** The distribution of a draw *)


(** * Properties *)

(** ** The error monad *)

Lemma bind_Ok {A B} (f : A → result B) (a : A) : (Ok a ≫= f) = f a.
Proof. reflexivity. Qed.

Lemma bind_Err {A B} (f : A → result B) (e : error) : (Err e ≫= f) = Err e.
Proof. reflexivity. Qed.

Lemma bind_Ok_inv {A B} (f : A → result B) (m : result A) (b : B) :
  (m ≫= f) = Ok b → ∃ a, m = Ok a ∧ f a = Ok b.
Proof. destruct m as [a|e]; [eauto | discriminate]. Qed.

Lemma fmap_Ok_inv {A B} (f : A → B) (m : result A) (b : B) :
  f <$> m = Ok b → ∃ a, m = Ok a ∧ b = f a.
Proof. destruct m as [a|e]; [intros [= <-]; eauto | discriminate]. Qed.

Lemma fmap_Err_inv {A B} (f : A → B) (m : result A) (e : error) :
  f <$> m = Err e → m = Err e.
Proof. destruct m as [a|e']; [discriminate | intros [= <-]; reflexivity]. Qed.

Lemma bind_Err_inv {A B} (f : A → result B) (m : result A) (e : error) :
  (m ≫= f) = Err e → m = Err e ∨ ∃ a, m = Ok a ∧ f a = Err e.
Proof. destruct m as [a|e']; [eauto | intros [= <-]; eauto]. Qed.

(** Splits a hypothesis [m ≫= f = Ok b] into the two results it stands for. *)
Tactic Notation "inv_bind" hyp(H) :=
  let a := fresh "a" in
  let Ha := fresh "Ha" in
  apply bind_Ok_inv in H as (a & Ha & H).

Tactic Notation "inv_bind" hyp(H) "as" simple_intropattern(a) ident(Ha) :=
  apply bind_Ok_inv in H as (a & Ha & H).

(** Closes a conjunction of closed equations by evaluating both sides. *)
Ltac by_computation :=
  repeat match goal with |- _ ∧ _ => split end; vm_compute; reflexivity.

(** ** Arrays *)

Lemma array_get_Ok {A} (a : list A) (i : Z) (x : A) :
  array_get a i = Ok x ↔ 0 ≤ i ∧ a !! Z.to_nat i = Some x.
Proof.
  unfold array_get. destruct (Z.ltb_spec i 0) as [Hi|Hi].
  - split; [discriminate | lia].
  - destruct (a !! Z.to_nat i) as [y|]; split.
    + intros [= ->]. auto.
    + intros [_ [= ->]]. reflexivity.
    + discriminate.
    + intros [_ [=]].
Qed.

Lemma array_get_of_nat {A} (a : list A) (n : nat) (x : A) :
  a !! n = Some x → array_get a (Z.of_nat n) = Ok x.
Proof. intros H. apply array_get_Ok. rewrite Nat2Z.id. split; [lia | done]. Qed.

Lemma array_get_in_range {A} (a : list A) (i : Z) :
  0 ≤ i < Z.of_nat (length a) → ∃ x, array_get a i = Ok x.
Proof.
  intros Hi. destruct (lookup_lt_is_Some_2 a (Z.to_nat i)) as [x Hx]; [lia|].
  exists x. apply array_get_Ok. split; [lia | done].
Qed.

Lemma array_get_range {A} (a : list A) (i : Z) (x : A) :
  array_get a i = Ok x → 0 ≤ i < Z.of_nat (length a).
Proof.
  intros [Hi Hx]%array_get_Ok. apply lookup_lt_Some in Hx. lia.
Qed.

Lemma array_set_Ok {A} (a : list A) (i : Z) (x : A) (a' : list A) :
  array_set a i x = Ok a' ↔
  0 ≤ i < Z.of_nat (length a) ∧ a' = <[Z.to_nat i := x]> a.
Proof.
  unfold array_set.
  destruct (Z.leb_spec 0 i), (Z.ltb_spec i (Z.of_nat (length a))); simpl;
    split; try discriminate; try lia.
  - intros [= <-]. auto.
  - intros [_ ->]. reflexivity.
Qed.

(** ** Machine integers *)

Lemma HASH_SIZE_pos : 0 < HASH_SIZE.
Proof. reflexivity. Qed.

Lemma HASH_SIZE_int : HASH_SIZE < 2 ^ (INT_BITS - 1).
Proof. reflexivity. Qed.

#[local] Opaque HASH_SIZE.

Lemma HASH_SIZE_nat : Z.of_nat (Z.to_nat HASH_SIZE) = HASH_SIZE.
Proof. apply Z2Nat.id, Z.lt_le_incl, HASH_SIZE_pos. Qed.

Lemma to_int_small (z : Z) : 0 ≤ z < 2 ^ (INT_BITS - 1) → to_int z = z.
Proof.
  intros Hz. unfold to_int.
  assert (Hw : 2 ^ (INT_BITS - 1) < 2 ^ INT_BITS) by reflexivity.
  rewrite Z.mod_small by lia.
  destruct (Z.ltb_spec z (2 ^ (INT_BITS - 1))); lia.
Qed.

Lemma to_ulong_small (z : Z) : 0 ≤ z < 2 ^ (INT_BITS - 1) → to_ulong z = z.
Proof.
  intros Hz. unfold to_ulong.
  assert (Hw : 2 ^ (INT_BITS - 1) < 2 ^ ULONG_BITS) by reflexivity.
  apply Z.mod_small. lia.
Qed.

Lemma slot_range (s : string) (p : Z) : 0 ≤ slot s p < HASH_SIZE.
Proof. apply Z.mod_pos_bound, HASH_SIZE_pos. Qed.


(** ** Lookup in a well-formed table *)

Lemma wf_slot_token (st : state) (i : Z) :
  wf st → 0 ≤ i < HASH_SIZE → hash_index st i ≠ -1 →
  ∃ t, array_get (tokens st) (hash_index st i) = Ok t.
Proof.
  intros Hwf Hi Hne. apply array_get_in_range.
  destruct (wf_range st Hwf i Hi) as [?|?]; [done | done].
Qed.

Lemma hash_find_loop_hit (st : state) (s : string) (id : nat) (p : Z) :
  wf st → tokens st !! id = Some s →
  0 ≤ p < HASH_SIZE → hash_index st (slot s p) = Z.of_nat id →
  (∀ q, 0 ≤ q < p → hash_index st (slot s q) ≠ -1) →
  ∀ (n : nat) (probe : Z),
    Z.of_nat n + probe = HASH_SIZE → 0 ≤ probe ≤ p →
    hash_find_loop s st (hash_str s mod HASH_SIZE) n probe = Ok (Z.of_nat id).
Proof.
  intros Hwf Hid Hp Hslot Hfull n.
  induction n as [|n IH]; intros probe Hn Hprobe; [lia|].
  cbn [hash_find_loop]. fold (slot s probe).
  destruct (Z.eq_dec probe p) as [->|Hne].
  - rewrite Hslot. destruct (Z.eqb_spec (Z.of_nat id) (-1)); [lia|].
    rewrite (array_get_of_nat _ _ _ Hid), bind_Ok.
    rewrite bool_decide_eq_true_2 by done. reflexivity.
  - assert (Hocc : hash_index st (slot s probe) ≠ -1) by (apply Hfull; lia).
    destruct (Z.eqb_spec (hash_index st (slot s probe)) (-1)); [done|].
    destruct (wf_slot_token st _ Hwf (slot_range s probe) Hocc) as [t Ht].
    rewrite Ht, bind_Ok. case_bool_decide as Hts.
    + subst t. apply array_get_Ok in Ht as [Hnn Ht].
      pose proof (NoDup_lookup _ _ _ _ (wf_nodup st Hwf) Ht Hid) as Heq.
      f_equal. lia.
    + apply IH; lia.
Qed.

Lemma hash_find_loop_miss (st : state) (s : string) (h : Z) :
  wf st → s ∉ tokens st →
  ∀ (n : nat) (probe : Z), hash_find_loop s st h n probe = Ok (-1).
Proof.
  intros Hwf Hs n. induction n as [|n IH]; intros probe; [done|].
  cbn [hash_find_loop].
  destruct (Z.eqb_spec (hash_index st ((h + probe) mod HASH_SIZE)) (-1)) as [|Hocc];
    [done|].
  destruct (wf_slot_token st _ Hwf (Z.mod_pos_bound _ _ HASH_SIZE_pos) Hocc)
    as [t Ht].
  rewrite Ht, bind_Ok. case_bool_decide as Hts; [|apply IH].
  subst t. apply array_get_Ok in Ht as [_ Ht].
  exfalso. apply Hs. eapply list_elem_of_lookup_2, Ht.
Qed.

(** In a well-formed table [hash_find] returns the identifier of an interned
    spelling... *)
Lemma hash_find_interned (st : state) (s : string) (id : nat) :
  wf st → tokens st !! id = Some s → hash_find s st = Ok (Z.of_nat id).
Proof.
  intros Hwf Hid.
  destruct (wf_placed st Hwf id s Hid) as (p & Hp & Hslot & Hfull).
  unfold hash_find.
  refine (hash_find_loop_hit st s id p Hwf Hid Hp Hslot Hfull
            (Z.to_nat HASH_SIZE) 0 _ _).
  - rewrite HASH_SIZE_nat. apply Z.add_0_r.
  - split; [reflexivity | apply Hp].
Qed.

(** ... and -1 for any other spelling. *)
Lemma hash_find_fresh (st : state) (s : string) :
  wf st → s ∉ tokens st → hash_find s st = Ok (-1).
Proof. intros Hwf Hs. unfold hash_find. by apply hash_find_loop_miss. Qed.

Lemma hash_find_loop_sound (st : state) (s : string) (h : Z) (n : nat)
    (probe id : Z) :
  hash_find_loop s st h n probe = Ok id → id ≠ -1 →
  0 ≤ id ∧ tokens st !! Z.to_nat id = Some s.
Proof.
  revert probe. induction n as [|n IH]; intros probe; cbn [hash_find_loop].
  - intros [= <-]. done.
  - destruct (Z.eqb_spec (hash_index st ((h + probe) mod HASH_SIZE)) (-1)).
    + intros [= <-]. done.
    + intros H Hid. inv_bind H. case_bool_decide.
      * injection H as <-. subst a. by apply array_get_Ok.
      * eauto.
Qed.

(** Whatever the table holds, a lookup that answers an identifier answers
    one that carries the spelling asked for. *)
Lemma hash_find_sound (st : state) (s : string) (id : Z) :
  hash_find s st = Ok id → id ≠ -1 →
  0 ≤ id ∧ tokens st !! Z.to_nat id = Some s.
Proof. apply hash_find_loop_sound. Qed.

Lemma hash_find_total (st : state) (s : string) :
  wf st →
  (∃ id : nat, tokens st !! id = Some s ∧ hash_find s st = Ok (Z.of_nat id)) ∨
  ((s ∉ tokens st) ∧ hash_find s st = Ok (-1)).
Proof.
  intros Hwf. destruct (decide (s ∈ tokens st)) as [Hin|Hnin].
  - left. apply list_elem_of_lookup_1 in Hin as [id Hid].
    exists id. split; [done | by apply hash_find_interned].
  - right. split; [done | by apply hash_find_fresh].
Qed.

(** ** Counting slots *)

Lemma nodup_range_length (l : list Z) (n : Z) :
  0 ≤ n → NoDup l → (∀ x, x ∈ l → 0 ≤ x < n) → Z.of_nat (length l) ≤ n.
Proof.
  intros Hn Hnd Hr.
  assert (Hsub : l ⊆+ seqZ 0 n).
  { apply NoDup_submseteq; [done|]. intros x Hx. apply elem_of_seqZ.
    specialize (Hr x Hx). lia. }
  apply submseteq_length in Hsub. rewrite length_seqZ in Hsub. lia.
Qed.

Lemma wf_slots_of_ids (st : state) :
  wf st → ∀ n : nat, (n ≤ length (tokens st))%nat →
  ∃ l : list Z, length l = n ∧ NoDup l ∧
    ∀ x, x ∈ l → 0 ≤ x < HASH_SIZE ∧ 0 ≤ hash_index st x < Z.of_nat n.
Proof.
  intros Hwf n. induction n as [|n IH]; intros Hn.
  - exists []. split; [done|]. split; [constructor|]. by intros x ?%elem_of_nil.
  - destruct IH as (l & Hlen & Hnd & Hl); [lia|].
    destruct (lookup_lt_is_Some_2 (tokens st) n) as [s Hs]; [lia|].
    destruct (wf_placed st Hwf n s Hs) as (p & Hp & Hslot & _).
    exists (slot s p :: l). split; [simpl; congruence|]. split.
    + constructor; [|done]. intros Hin. apply Hl in Hin. lia.
    + intros x [->|Hx]%elem_of_cons.
      * split; [apply slot_range | lia].
      * apply Hl in Hx. lia.
Qed.

(** The table never holds more identifiers than it has slots. *)
Lemma wf_size_le (st : state) : wf st → tokens_size st ≤ HASH_SIZE.
Proof.
  intros Hwf.
  destruct (wf_slots_of_ids st Hwf (length (tokens st))) as (l & Hlen & Hnd & Hl);
    [done|].
  unfold tokens_size. rewrite <- Hlen.
  apply nodup_range_length; [apply Z.lt_le_incl, HASH_SIZE_pos | done |].
  intros x Hx. by apply Hl.
Qed.

(** While fewer identifiers than slots are assigned, some slot is empty. *)
Lemma wf_has_room (st : state) :
  wf st → tokens_size st < HASH_SIZE →
  ∃ j, 0 ≤ j < HASH_SIZE ∧ hash_index st j = -1.
Proof.
  intros Hwf Hroom.
  destruct (decide (Exists (λ j, hash_index st j = -1) (seqZ 0 HASH_SIZE)))
    as [Hex|Hall].
  - apply Exists_exists in Hex as (j & Hj & Hempty).
    apply elem_of_seqZ in Hj. exists j. split; [lia | done].
  - exfalso. apply not_Exists_Forall in Hall; [|intros j; apply _].
    rewrite Forall_forall in Hall.
    assert (Hnd : NoDup (hash_index st <$> seqZ 0 HASH_SIZE)).
    { apply NoDup_fmap_2_strong; [|apply NoDup_seqZ].
      intros i j Hi%elem_of_seqZ Hj%elem_of_seqZ Heq.
      apply (wf_inj st Hwf); [lia | lia | | done].
      apply (Hall i). apply elem_of_seqZ. lia. }
    apply (nodup_range_length _ (tokens_size st)) in Hnd.
    + rewrite length_fmap, length_seqZ in Hnd.
      pose proof HASH_SIZE_pos. lia.
    + unfold tokens_size. lia.
    + intros x (j & -> & Hj)%list_elem_of_fmap.
      pose proof (Hall j Hj) as Hocc. simpl in Hocc.
      apply elem_of_seqZ in Hj.
      destruct (wf_range st Hwf j) as [?|?]; [lia | done | done].
Qed.

(** ** Insertion *)

Lemma hash_insert_loop_Ok (st st' : state) (h id : Z) (n : nat) (probe : Z) :
  hash_insert_loop st h id n probe = Ok st' →
  ∃ p, probe ≤ p < probe + Z.of_nat n ∧
       hash_index st ((h + p) mod HASH_SIZE) = -1 ∧
       (∀ q, probe ≤ q < p → hash_index st ((h + q) mod HASH_SIZE) ≠ -1) ∧
       st' = set_hash_index st ((h + p) mod HASH_SIZE) id.
Proof.
  revert probe. induction n as [|n IH]; intros probe; cbn [hash_insert_loop];
    [discriminate|].
  destruct (Z.eqb_spec (hash_index st ((h + probe) mod HASH_SIZE)) (-1))
    as [Hempty|Hocc].
  - intros [= <-]. exists probe. repeat split; [lia | lia | done | intros; lia].
  - intros (p & Hp & Hempty & Hbefore & ->)%IH.
    exists p. repeat split; [lia | lia | done |].
    intros q Hq. destruct (Z.eq_dec q probe) as [->|]; [done|].
    apply Hbefore. lia.
Qed.

Lemma hash_insert_loop_room (st : state) (h id : Z) (n : nat) (probe p : Z) :
  probe ≤ p < probe + Z.of_nat n →
  hash_index st ((h + p) mod HASH_SIZE) = -1 →
  is_ok (hash_insert_loop st h id n probe).
Proof.
  revert probe. induction n as [|n IH]; intros probe Hp Hempty; [lia|].
  cbn [hash_insert_loop].
  destruct (Z.eqb_spec (hash_index st ((h + probe) mod HASH_SIZE)) (-1))
    as [|Hocc]; [by eexists|].
  apply IH; [|done].
  destruct (Z.eq_dec p probe) as [->|]; [done | lia].
Qed.

Lemma probe_reaches (h j : Z) :
  0 ≤ j < HASH_SIZE →
  0 ≤ (j - h) mod HASH_SIZE < HASH_SIZE ∧
  (h + (j - h) mod HASH_SIZE) mod HASH_SIZE = j.
Proof.
  intros Hj. split; [apply Z.mod_pos_bound, HASH_SIZE_pos|].
  rewrite Zplus_mod_idemp_r. replace (h + (j - h)) with j by lia.
  by apply Z.mod_small.
Qed.

(** [hash_insert] exits only when every slot is taken. *)
Lemma hash_insert_room (st : state) (s : string) (id : Z) :
  (∃ j, 0 ≤ j < HASH_SIZE ∧ hash_index st j = -1) →
  is_ok (hash_insert s id st).
Proof.
  intros (j & Hj & Hempty). unfold hash_insert.
  destruct (probe_reaches (hash_str s mod HASH_SIZE) j Hj) as [Hp Hslot].
  apply (hash_insert_loop_room _ _ _ _ _ ((j - hash_str s mod HASH_SIZE) mod HASH_SIZE)).
  - rewrite HASH_SIZE_nat. lia.
  - by rewrite Hslot.
Qed.

(** ** Interning *)

Lemma ensure_tokens_capacity_tokens (st : state) :
  tokens (ensure_tokens_capacity st) = tokens st.
Proof. unfold ensure_tokens_capacity. by case_match. Qed.

Lemma ensure_tokens_capacity_hash_index (st : state) :
  hash_index (ensure_tokens_capacity st) = hash_index st.
Proof. unfold ensure_tokens_capacity. by case_match. Qed.

Lemma ensure_tokens_capacity_succs (st : state) :
  succs (ensure_tokens_capacity st) = succs st.
Proof. unfold ensure_tokens_capacity. by case_match. Qed.

Lemma ensure_tokens_capacity_succs_caps (st : state) :
  succs_caps (ensure_tokens_capacity st) = succs_caps st.
Proof. unfold ensure_tokens_capacity. by case_match. Qed.

Lemma ensure_tokens_capacity_size (st : state) :
  tokens_size (ensure_tokens_capacity st) = tokens_size st.
Proof. unfold tokens_size. by rewrite ensure_tokens_capacity_tokens. Qed.

(** The capacity covers one more token after the call. *)
Lemma ensure_tokens_capacity_room (st : state) :
  tokens_size st ≤ tokens_cap st →
  tokens_size st < tokens_cap (ensure_tokens_capacity st).
Proof.
  intros Hle. unfold ensure_tokens_capacity.
  destruct (Z.geb_spec (tokens_size st) (tokens_cap st)); [|lia].
  cbn [tokens_cap]. unfold tokens_size in *.
  destruct (Z.eqb_spec (tokens_cap st) 0); lia.
Qed.

Lemma wf_id_small (st : state) (id : Z) :
  wf st → 0 ≤ id ≤ tokens_size st → 0 ≤ id < 2 ^ (INT_BITS - 1).
Proof.
  intros Hwf Hid. pose proof (wf_size_le st Hwf). pose proof HASH_SIZE_int. lia.
Qed.

(** The state [token_id] builds for a spelling without an identifier:
    the spelling is stored under the next identifier, which goes into the
    first empty slot of the spelling's probe sequence. *)
Lemma wf_intern_fresh (st : state) (s : string) (p : Z) :
  wf st → s ∉ tokens st →
  0 ≤ p < HASH_SIZE →
  hash_index st (slot s p) = -1 →
  (∀ q, 0 ≤ q < p → hash_index st (slot s q) ≠ -1) →
  wf (set_hash_index (push_token s (ensure_tokens_capacity st)) (slot s p)
        (tokens_size st)).
Proof.
  intros Hwf Hfresh Hp Hempty Hbefore.
  pose proof (wf_succs_len st Hwf) as Hsl.
  pose proof (wf_caps_len st Hwf) as Hcl.
  split; unfold tokens_size;
    cbn [set_hash_index push_token tokens succs succs_caps hash_index];
    rewrite ?ensure_tokens_capacity_tokens, ?ensure_tokens_capacity_succs,
      ?ensure_tokens_capacity_succs_caps, ?ensure_tokens_capacity_hash_index.
  - rewrite !length_app. simpl. lia.
  - rewrite !length_app. simpl. lia.
  - intros i Hi. rewrite length_app. simpl.
    destruct (Z.eqb_spec i (slot s p)); [lia|].
    destruct (wf_range st Hwf i Hi) as [?|?]; [by left|].
    right. unfold tokens_size in *. lia.
  - intros i j Hi Hj.
    destruct (Z.eqb_spec i (slot s p)) as [->|Hni],
             (Z.eqb_spec j (slot s p)) as [->|Hnj]; intros Hocc Heq; [done| | |].
    + destruct (wf_range st Hwf j Hj) as [?|?]; unfold tokens_size in *; lia.
    + destruct (wf_range st Hwf i Hi) as [?|?]; unfold tokens_size in *; lia.
    + by apply (wf_inj st Hwf).
  - apply NoDup_app. split; [apply (wf_nodup st Hwf)|]. split.
    + intros x Hx ->%list_elem_of_singleton. done.
    + apply NoDup_singleton.
  - intros id t Hid. apply lookup_app_Some in Hid as [Hid|[Hlen Hid]].
    + destruct (wf_placed st Hwf id t Hid) as (p' & Hp' & Hslot & Hfull).
      exists p'. split; [done|]. split.
      * destruct (Z.eqb_spec (slot t p') (slot s p)) as [Heq|]; [|done].
        rewrite Heq in Hslot. lia.
      * intros q Hq. destruct (Z.eqb_spec (slot t q) (slot s p)).
        -- unfold tokens_size. lia.
        -- by apply Hfull.
    + apply list_lookup_singleton_Some in Hid as [Hid <-].
      exists p. split; [done|]. split.
      * rewrite Z.eqb_refl. unfold tokens_size. lia.
      * intros q Hq. destruct (Z.eqb_spec (slot s q) (slot s p)).
        -- unfold tokens_size. lia.
        -- by apply Hbefore.
  - intros id arr cap Harr Hcap.
    apply lookup_app_Some in Harr as [Harr|[Hlen Harr]];
      apply lookup_app_Some in Hcap as [Hcap|[Hlen' Hcap]].
    + by apply (wf_caps st Hwf id).
    + apply lookup_lt_Some in Harr. lia.
    + apply lookup_lt_Some in Hcap. lia.
    + apply list_lookup_singleton_Some in Harr as [_ <-].
      apply list_lookup_singleton_Some in Hcap as [_ <-]. done.
Qed.

(** Interning a spelling that has an identifier returns it and changes
    nothing. *)
Lemma token_id_interned (st : state) (s : string) (id : nat) :
  wf st → tokens st !! id = Some s → token_id s st = Ok (Z.of_nat id, st).
Proof.
  intros Hwf Hid. unfold token_id.
  rewrite (hash_find_interned st s id Hwf Hid), bind_Ok.
  destruct (Z.leb_spec 0 (Z.of_nat id)); [|lia].
  rewrite to_ulong_small; [done|].
  apply lookup_lt_Some in Hid. apply (wf_id_small st); [done|].
  unfold tokens_size. lia.
Qed.

(** Interning a spelling without an identifier, when it returns, appends it
    to [tokens] with an empty successor list. *)
Lemma token_id_fresh (st st' : state) (s : string) (id : Z) :
  wf st → s ∉ tokens st → token_id s st = Ok (id, st') →
  id = tokens_size st ∧ wf st' ∧
  tokens st' = tokens st ++ [s] ∧
  succs st' = succs st ++ [[]] ∧
  succs_caps st' = succs_caps st ++ [0].
Proof.
  intros Hwf Hfresh. unfold token_id.
  rewrite (hash_find_fresh st s Hwf Hfresh), bind_Ok. simpl (0 <=? -1).
  cbv iota. intros H. inv_bind H. injection H as <- <-.
  rewrite ensure_tokens_capacity_size in *.
  rewrite to_int_small in Ha
    by (apply (wf_id_small st); [done | pose proof (Nat2Z.is_nonneg (length (tokens st))); unfold tokens_size; lia]).
  unfold hash_insert in Ha.
  apply hash_insert_loop_Ok in Ha as (p & Hp & Hempty & Hbefore & ->).
  rewrite HASH_SIZE_nat in Hp.
  split; [done|]. split.
  - apply (wf_intern_fresh st s p); [done | done | lia | |].
    + revert Hempty. cbn [push_token hash_index].
      by rewrite ensure_tokens_capacity_hash_index.
    + intros q Hq. specialize (Hbefore q). revert Hbefore.
      cbn [push_token hash_index]. rewrite ensure_tokens_capacity_hash_index.
      intros Hb. apply Hb. lia.
  - cbn [set_hash_index push_token tokens succs succs_caps].
    by rewrite ensure_tokens_capacity_tokens, ensure_tokens_capacity_succs,
      ensure_tokens_capacity_succs_caps.
Qed.

(** It returns whenever a slot is left. *)
Lemma token_id_fresh_ok (st : state) (s : string) :
  wf st → s ∉ tokens st → tokens_size st < HASH_SIZE → is_ok (token_id s st).
Proof.
  intros Hwf Hfresh Hroom. unfold token_id.
  rewrite (hash_find_fresh st s Hwf Hfresh), bind_Ok. simpl (0 <=? -1). cbv iota.
  destruct (hash_insert_room (push_token s (ensure_tokens_capacity st)) s
              (to_int (tokens_size (ensure_tokens_capacity st)))) as [st' Hst'].
  - cbn [push_token hash_index]. rewrite ensure_tokens_capacity_hash_index.
    by apply wf_has_room.
  - rewrite Hst', bind_Ok. by eexists.
Qed.

Lemma token_id_cases (st st' : state) (s : string) (id : Z) :
  wf st → token_id s st = Ok (id, st') →
  (tokens st !! Z.to_nat id = Some s ∧ 0 ≤ id ∧ st' = st) ∨
  ((s ∉ tokens st) ∧ id = tokens_size st ∧ wf st' ∧
   tokens st' = tokens st ++ [s] ∧ succs st' = succs st ++ [[]] ∧
   succs_caps st' = succs_caps st ++ [0]).
Proof.
  intros Hwf H. destruct (decide (s ∈ tokens st)) as [Hin|Hfresh].
  - left. apply list_elem_of_lookup_1 in Hin as [n Hn].
    rewrite (token_id_interned st s n Hwf Hn) in H. injection H as <- <-.
    rewrite Nat2Z.id. split; [done|]. split; [lia | done].
  - right. split; [done|]. by apply token_id_fresh.
Qed.

Lemma token_id_wf (st st' : state) (s : string) (id : Z) :
  wf st → token_id s st = Ok (id, st') →
  wf st' ∧ 0 ≤ id ∧ tokens st' !! Z.to_nat id = Some s.
Proof.
  intros Hwf H. destruct (token_id_cases st st' s id Hwf H)
    as [(Hid & Hnn & ->)|(Hfresh & -> & Hwf' & Htok & _)]; [done|].
  split; [done|]. split; [unfold tokens_size; lia|].
  rewrite Htok. unfold tokens_size. rewrite Nat2Z.id.
  rewrite lookup_app_r by done. by rewrite Nat.sub_diag.
Qed.

Lemma wf_boot : wf boot.
Proof.
  split.
  - reflexivity.
  - reflexivity.
  - intros i _. by left.
  - intros i j _ _ Hocc. by destruct Hocc.
  - constructor.
  - intros id s Hid. discriminate Hid.
  - intros id arr cap Harr. discriminate Harr.
Qed.



(** [token_id] returns whenever the spelling is interned or a slot of the
    table is free. *)
Lemma token_id_returns (st : state) (s : string) :
  wf st → s ∈ tokens st ∨ tokens_size st < HASH_SIZE → is_ok (token_id s st).
Proof.
  intros Hwf Hroom. destruct (decide (s ∈ tokens st)) as [Hin|Hfresh].
  - apply list_elem_of_lookup_1 in Hin as [n Hn].
    rewrite (token_id_interned st s n Hwf Hn). by eexists.
  - destruct Hroom as [?|?]; [done|]. by apply token_id_fresh_ok.
Qed.

(** A second call with the same spelling finds the identifier of the
    first. *)
Lemma token_id_again (st st1 : state) (s : string) (id : Z) :
  wf st → token_id s st = Ok (id, st1) →
  token_id s st1 = Ok (id, st1) ∧ hash_find s st1 = Ok id.
Proof.
  intros Hwf H.
  destruct (token_id_wf st st1 s id Hwf H) as (Hwf1 & Hnn & Hid).
  pose proof (token_id_interned st1 s _ Hwf1 Hid) as H2.
  pose proof (hash_find_interned st1 s _ Hwf1 Hid) as H3.
  rewrite Z2Nat.id in H2, H3 by done. done.
Qed.

(** ** Runs of the interner *)

Lemma token_id_tokens (st st' : state) (s : string) (id : Z) :
  wf st → token_id s st = Ok (id, st') →
  tokens st' = (if decide (s ∈ tokens st) then tokens st else tokens st ++ [s]).
Proof.
  intros Hwf H. destruct (token_id_cases st st' s id Hwf H)
    as [(Hid & Hnn & ->)|(Hfresh & -> & Hwf' & Htok & _)].
  - rewrite decide_True; [done|]. by eapply list_elem_of_lookup_2.
  - by rewrite decide_False.
Qed.

Lemma first_seen_prefix (seen ss : list string) : seen `prefix_of` first_seen seen ss.
Proof.
  revert seen. induction ss as [|s ss IH]; intros seen; simpl; [done|].
  case_decide; [apply IH|].
  etrans; [|apply IH]. by apply prefix_app_r.
Qed.

Lemma intern_all_spec (ss : list string) (st st' : state) (ids : list Z) :
  wf st → intern_all ss st = Ok (ids, st') →
  wf st' ∧ tokens st' = first_seen (tokens st) ss ∧
  Forall2 (λ s id, 0 ≤ id ∧ tokens st' !! Z.to_nat id = Some s) ss ids.
Proof.
  revert st ids. induction ss as [|s ss IH]; intros st ids Hwf; simpl.
  - intros [= <- <-]. done.
  - intros H. inv_bind H. destruct a as [id st1].
    inv_bind H. destruct a as [ids' st2]. injection H as <- <-.
    destruct (token_id_wf st st1 s id Hwf Ha) as (Hwf1 & Hnn & Hid).
    destruct (IH st1 ids' Hwf1 Ha0) as (Hwf2 & Htok & Hall).
    split; [done|]. split.
    + by rewrite Htok, (token_id_tokens st st1 s id Hwf Ha).
    + constructor; [|done]. split; [done|].
      rewrite Htok. eapply prefix_lookup_Some; [done|apply first_seen_prefix].
Qed.

Lemma first_seen_length (seen ss : list string) :
  (length (first_seen seen ss) ≤ length seen + length ss)%nat.
Proof.
  revert seen. induction ss as [|s ss IH]; intros seen; simpl; [lia|].
  etrans; [apply IH|]. case_decide; rewrite ?length_app; simpl; lia.
Qed.

(** The run returns when the table has a slot for every spelling. *)
Lemma intern_all_ok (ss : list string) (st : state) :
  wf st → Z.of_nat (length (first_seen (tokens st) ss)) ≤ HASH_SIZE →
  is_ok (intern_all ss st).
Proof.
  revert st. induction ss as [|s ss IH]; intros st Hwf Hroom; simpl.
  - by eexists.
  - destruct (token_id_returns st s Hwf) as [[id st1] H1].
    { destruct (decide (s ∈ tokens st)) as [|Hfresh]; [by left | right].
      simpl in Hroom. rewrite decide_False in Hroom by done.
      pose proof (prefix_length _ _ (first_seen_prefix (tokens st ++ [s]) ss)) as Hp.
      rewrite length_app in Hp. simpl in Hp. unfold tokens_size. lia. }
    rewrite H1, bind_Ok.
    destruct (token_id_wf st st1 s id Hwf H1) as (Hwf1 & _ & _).
    destruct (IH st1 Hwf1) as [[ids st2] H2].
    { rewrite (token_id_tokens st st1 s id Hwf H1). apply Hroom. }
    rewrite H2, bind_Ok. by eexists.
Qed.




(** ** Recording an edge *)

Lemma wf_set_succs (st : state) (arrs : list (list string)) (caps : list Z) :
  wf st →
  length arrs = length (tokens st) → length caps = length (tokens st) →
  (∀ (id : nat) arr cap, arrs !! id = Some arr → caps !! id = Some cap →
     Z.of_nat (length arr) ≤ cap) →
  wf (set_succs st arrs caps).
Proof.
  intros Hwf Hl1 Hl2 Hcaps. split; try done; apply Hwf.
Qed.

Lemma grown_cap_room (size cap : Z) : 0 ≤ size ≤ cap → size < grown_cap size cap.
Proof.
  intros H. unfold grown_cap, INIT_SUCC_CAP.
  destruct (Z.eqb_spec cap 0); [lia|].
  destruct (Z.geb_spec size cap); lia.
Qed.

Lemma append_to_succs_spec (st st' : state) (prev curr : string) :
  wf st → append_to_succs prev curr st = Ok st' →
  ∃ pid st1 arr cap,
    token_id prev st = Ok (pid, st1) ∧
    succs st1 !! Z.to_nat pid = Some arr ∧
    succs_caps st1 !! Z.to_nat pid = Some cap ∧
    st' = set_succs st1 (<[Z.to_nat pid := arr ++ [curr]]> (succs st1))
            (<[Z.to_nat pid := grown_cap (Z.of_nat (length arr)) cap]> (succs_caps st1)) ∧
    wf st'.
Proof.
  intros Hwf H. unfold append_to_succs in H.
  inv_bind H as [pid st1] Hid.
  inv_bind H as cap Hcap. unfold succs_sizes in H.
  inv_bind H as size Hsize. inv_bind Hsize as arr Harr. injection Hsize as <-.
  inv_bind H as arr' Harr'. fold (grown_cap (Z.of_nat (length arr)) cap) in H.
  assert (arr' = arr) as -> by congruence. clear Harr'.
  destruct (Z.ltb_spec (Z.of_nat (length arr)) (grown_cap (Z.of_nat (length arr)) cap))
    as [Hroom|]; [|discriminate].
  inv_bind H as caps' Hcaps'. inv_bind H as arrs' Harrs'. injection H as <-.
  apply array_set_Ok in Hcaps' as [Hr1 ->]. apply array_set_Ok in Harrs' as [Hr2 ->].
  apply array_get_Ok in Hcap as [Hnn Hcap]. apply array_get_Ok in Harr as [_ Harr].
  destruct (token_id_wf st st1 prev pid Hwf Hid) as (Hwf1 & _ & _).
  exists pid, st1, arr, cap. do 4 (split; [done|]).
  apply wf_set_succs; [done | | |].
  - rewrite length_insert. apply Hwf1.
  - rewrite length_insert. apply Hwf1.
  - intros id arr' cap' Harr' Hcap'.
    destruct (decide (id = Z.to_nat pid)) as [->|Hne].
    + rewrite list_lookup_insert_eq in Harr' by (by eapply lookup_lt_Some).
      rewrite list_lookup_insert_eq in Hcap' by (by eapply lookup_lt_Some).
      simplify_eq. rewrite length_app. simpl. lia.
    + rewrite list_lookup_insert_ne in Harr' by done.
      rewrite list_lookup_insert_ne in Hcap' by done.
      by apply (wf_caps st1 Hwf1 id).
Qed.

(** [append_to_succs] returns whenever its call of [token_id] does. *)
Lemma append_to_succs_ok (st : state) (prev curr : string) :
  wf st → is_ok (token_id prev st) → is_ok (append_to_succs prev curr st).
Proof.
  intros Hwf [[pid st1] H1]. unfold append_to_succs. rewrite H1, bind_Ok.
  destruct (token_id_wf st st1 prev pid Hwf H1) as (Hwf1 & Hnn & Hid).
  pose proof (lookup_lt_Some _ _ _ Hid) as Hlt.
  destruct (lookup_lt_is_Some_2 (succs st1) (Z.to_nat pid)) as [arr Harr];
    [by rewrite (wf_succs_len st1 Hwf1)|].
  destruct (lookup_lt_is_Some_2 (succs_caps st1) (Z.to_nat pid)) as [cap Hcap];
    [by rewrite (wf_caps_len st1 Hwf1)|].
  assert (Hga : array_get (succs st1) pid = Ok arr) by (by apply array_get_Ok).
  assert (Hgc : array_get (succs_caps st1) pid = Ok cap) by (by apply array_get_Ok).
  rewrite Hgc, bind_Ok. unfold succs_sizes. rewrite Hga, !bind_Ok.
  fold (grown_cap (Z.of_nat (length arr)) cap).
  pose proof (wf_caps st1 Hwf1 _ _ _ Harr Hcap) as Hle.
  destruct (Z.ltb_spec (Z.of_nat (length arr)) (grown_cap (Z.of_nat (length arr)) cap))
    as [_|Hfull]; [|pose proof (grown_cap_room (Z.of_nat (length arr)) cap); lia].
  unfold array_set.
  rewrite (wf_succs_len st1 Hwf1), (wf_caps_len st1 Hwf1).
  destruct (Z.leb_spec 0 pid); [|lia].
  destruct (Z.ltb_spec pid (Z.of_nat (length (tokens st1)))); [|lia].
  simpl. by eexists.
Qed.

(** ** The successor lists record the observed pairs *)

Lemma followers_app (a : string) (es1 es2 : list (string * string)) :
  followers a (es1 ++ es2) = followers a es1 ++ followers a es2.
Proof. unfold followers. by rewrite filter_app, fmap_app. Qed.

Lemma followers_singleton (a p t : string) :
  followers a [(p, t)] = if decide (p = a) then [t] else [].
Proof.
  unfold followers. rewrite filter_cons, filter_nil. simpl.
  by destruct (decide (p = a)).
Qed.

Lemma followers_none (a : string) (es : list (string * string)) :
  (∀ b, (a, b) ∉ es) → followers a es = [].
Proof.
  intros Hno. unfold followers. induction es as [|[p t] es IH]; [done|].
  rewrite filter_cons. simpl. destruct (decide (p = a)) as [->|].
  - exfalso. apply (Hno t). by left.
  - apply IH. intros b Hb. apply (Hno b). by right.
Qed.

Lemma interned_ends_mono (es : list (string * string)) (st st' : state) :
  tokens st `prefix_of` tokens st' → interned_ends es st → interned_ends es st'.
Proof.
  intros [k Hk] H. unfold interned_ends in *. rewrite Hk.
  eapply Forall_impl; [done|]. intros e [H1 H2].
  split; apply elem_of_app; by left.
Qed.

Lemma token_id_records (st st' : state) (t : string) (id : Z)
    (es : list (string * string)) :
  wf st → records es st → interned_ends es st →
  token_id t st = Ok (id, st') →
  wf st' ∧ records es st' ∧ interned_ends es st' ∧ t ∈ tokens st' ∧
  tokens st' = (if decide (t ∈ tokens st) then tokens st else tokens st ++ [t]).
Proof.
  intros Hwf Hrec Hends H.
  pose proof (token_id_tokens st st' t id Hwf H) as Htok.
  destruct (token_id_cases st st' t id Hwf H)
    as [(Hid & Hnn & ->)|(Hfresh & -> & Hwf' & Htok' & Hsuccs & _)].
  - do 3 (split; [done|]). split; [by eapply list_elem_of_lookup_2 | done].
  - split; [done|]. split; [|split; [|split; [|done]]].
    + intros n a Hn. rewrite Htok' in Hn. rewrite Hsuccs.
      apply lookup_app_Some in Hn as [Hn|[Hlen Hn]].
      * rewrite lookup_app_l by (rewrite (wf_succs_len st Hwf); by eapply lookup_lt_Some).
        by apply Hrec.
      * apply list_lookup_singleton_Some in Hn as [Hn <-].
        rewrite lookup_app_r by (rewrite (wf_succs_len st Hwf); done).
        rewrite (wf_succs_len st Hwf), Hn. simpl. f_equal. symmetry.
        apply followers_none. intros b Hb.
        unfold interned_ends in Hends. rewrite Forall_forall in Hends.
        by destruct (Hends _ Hb) as [? _].
    + eapply interned_ends_mono; [|done]. rewrite Htok'. by apply prefix_app_r.
    + rewrite Htok'. apply elem_of_app. right. by left.
Qed.

Lemma append_to_succs_records (st st' : state) (p t : string)
    (es : list (string * string)) :
  wf st → records es st → interned_ends es st →
  p ∈ tokens st → t ∈ tokens st →
  append_to_succs p t st = Ok st' →
  wf st' ∧ tokens st' = tokens st ∧
  records (es ++ [(p, t)]) st' ∧ interned_ends (es ++ [(p, t)]) st'.
Proof.
  intros Hwf Hrec Hends Hp Ht H.
  destruct (append_to_succs_spec st st' p t Hwf H)
    as (pid & st1 & arr & cap & Hid & Harr & Hcap & -> & Hwf').
  apply list_elem_of_lookup_1 in Hp as [n Hn].
  rewrite (token_id_interned st p n Hwf Hn) in Hid. injection Hid as <- <-.
  rewrite Nat2Z.id in *.
  split; [done|]. split; [done|]. split.
  - intros id a Ha. cbn [set_succs tokens succs] in *.
    rewrite followers_app, followers_singleton.
    destruct (decide (id = n)) as [->|Hne].
    + rewrite list_lookup_insert_eq by (by eapply lookup_lt_Some).
      assert (a = p) as -> by congruence.
      rewrite decide_True by done. rewrite (Hrec n p Hn) in Harr. congruence.
    + rewrite list_lookup_insert_ne by done.
      rewrite decide_False; [rewrite app_nil_r; by apply Hrec|].
      intros ->. apply Hne.
      by apply (NoDup_lookup _ _ _ _ (wf_nodup st Hwf) Ha Hn).
  - unfold interned_ends. cbn [set_succs tokens].
    apply Forall_app. split; [done|]. constructor; [|done].
    split; [by eapply list_elem_of_lookup_2 | done].
Qed.

Lemma adjacent_cons (p t : string) (ts : list string) :
  adjacent (p :: t :: ts) = (p, t) :: adjacent (t :: ts).
Proof. reflexivity. Qed.

(** The loop invariant of the tokenizer: the successor lists record the
    pairs seen so far, [es], and record after the loop those followed by
    the pairs the loop called [append_to_succs] with, which are the
    consecutive pairs of the tokens it yielded (after [prev]). *)
Lemma tokenize_loop_spec (fuel : nat) (delimiters : string) :
  ∀ (prev : option string) (tok : option (string * string)) (st : state)
    (es : list (string * string)) (r : tokenized),
  wf st → records es st → interned_ends es st →
  (∀ p, prev = Some p → p ∈ tokens st) →
  tokenize_loop fuel delimiters prev tok st = Ok r →
  wf (t_state r) ∧
  records (es ++ t_edges r) (t_state r) ∧
  interned_ends (es ++ t_edges r) (t_state r) ∧
  tokens (t_state r) = first_seen (tokens st) (t_yielded r) ∧
  t_edges r = adjacent (option_list prev ++ t_yielded r).
Proof.
  induction fuel as [|fuel IH]; intros prev tok st es r Hwf Hrec Hends Hprev;
    destruct tok as [[t save]|]; cbn [tokenize_loop].
  - discriminate.
  - intros [= <-]. cbn [t_state t_edges t_yielded]. rewrite !app_nil_r.
    do 4 (split; [done|]). by destruct prev.
  - intros H. inv_bind H as [id st1] Hid. inv_bind H as st2 Hst2.
    inv_bind H as r' Hloop. injection H as <-.
    destruct (token_id_records st st1 t id es Hwf Hrec Hends Hid)
      as (Hwf1 & Hrec1 & Hends1 & Ht1 & Htok1).
    assert (Hprev1 : ∀ p, prev = Some p → p ∈ tokens st1).
    { intros p Hp. specialize (Hprev p Hp). rewrite Htok1.
      case_decide; [done|]. apply elem_of_app. by left. }
    destruct prev as [p|]; cbn [log_token t_state t_edges t_yielded option_list].
    + destruct (append_to_succs_records st1 st2 p t es Hwf1 Hrec1 Hends1
                  (Hprev1 p eq_refl) Ht1 Hst2) as (Hwf2 & Htok2 & Hrec2 & Hends2).
      destruct (IH (Some t) (strtok_r delimiters save) st2 (es ++ [(p, t)]) r'
                  Hwf2 Hrec2 Hends2) as (Hwf' & Hrec' & Hends' & Htok' & Hedges');
        [intros ? [= <-]; by rewrite Htok2 | done |].
      rewrite <- !app_assoc in *. simpl in Hrec', Hends'.
      split; [done|]. split; [done|]. split; [done|]. split.
      * simpl. by rewrite Htok', Htok2, Htok1.
      * simpl. rewrite Hedges'. reflexivity.
    + injection Hst2 as <-.
      destruct (IH (Some t) (strtok_r delimiters save) st1 es r'
                  Hwf1 Hrec1 Hends1) as (Hwf' & Hrec' & Hends' & Htok' & Hedges');
        [by intros ? [= <-] | done |].
      split; [done|]. split; [done|]. split; [done|]. split.
      * simpl. by rewrite Htok', Htok1.
      * simpl. rewrite Hedges'. reflexivity.
  - intros [= <-]. cbn [t_state t_edges t_yielded]. rewrite !app_nil_r.
    do 4 (split; [done|]). by destruct prev.
Qed.

(** ** [strtok_r] *)

Lemma skip_delims_length (delimiters s : string) :
  (String.length (skip_delims delimiters s) ≤ String.length s)%nat.
Proof.
  induction s as [|c s IH]; simpl; [done|].
  destruct (is_delim delimiters c); simpl; lia.
Qed.

Lemma split_token_length (delimiters s tok save : string) :
  split_token delimiters s = (tok, save) →
  (String.length tok + String.length save ≤ String.length s)%nat.
Proof.
  revert tok save. induction s as [|c s IH]; intros tok save; simpl.
  - intros [= <- <-]. done.
  - destruct (is_delim delimiters c).
    + intros [= <- <-]. simpl. lia.
    + destruct (split_token delimiters s) as [tok' save'].
      intros [= <- <-]. specialize (IH tok' save' eq_refl). simpl. lia.
Qed.

Lemma skip_delims_head (delimiters s : string) (c : ascii) (s' : string) :
  skip_delims delimiters s = String c s' → is_delim delimiters c = false.
Proof.
  induction s as [|c0 s0 IH]; simpl; [discriminate|].
  destruct (is_delim delimiters c0) eqn:Hc0; [done|].
  by intros [= <- <-].
Qed.

(** A token is never empty, and the rest of the buffer is shorter than the
    buffer was. *)
Lemma strtok_r_Some (delimiters s tok save : string) :
  strtok_r delimiters s = Some (tok, save) →
  tok ≠ EmptyString ∧ (String.length save < String.length s)%nat.
Proof.
  unfold strtok_r. pose proof (skip_delims_length delimiters s) as Hlen.
  destruct (skip_delims delimiters s) as [|c s1] eqn:Hs; [discriminate|].
  apply skip_delims_head in Hs. intros [= H]. simpl in H. rewrite Hs in H.
  destruct (split_token delimiters s1) as [tok' save'] eqn:Hsplit.
  injection H as <- <-. apply split_token_length in Hsplit.
  split; [done|]. simpl in Hlen. lia.
Qed.

(** ** The tokenizer returns *)

Lemma tokenize_loop_ok (fuel : nat) (delimiters : string) :
  ∀ (prev : option string) (tok : option (string * string)) (st : state),
  wf st →
  (∀ p, prev = Some p → p ∈ tokens st) →
  (∀ t save, tok = Some (t, save) → (String.length save < fuel)%nat) →
  tokens_size st + Z.of_nat fuel ≤ HASH_SIZE →
  is_ok (tokenize_loop fuel delimiters prev tok st).
Proof.
  induction fuel as [|fuel IH]; intros prev tok st Hwf Hprev Hfuel Hroom;
    destruct tok as [[t save]|]; cbn [tokenize_loop]; try (by eexists).
  - specialize (Hfuel t save eq_refl). lia.
  - destruct (token_id_returns st t Hwf) as [[id st1] Hid]; [right; lia|].
    rewrite Hid, bind_Ok.
    destruct (token_id_wf st st1 t id Hwf Hid) as (Hwf1 & Hnn & Hlk).
    pose proof (token_id_tokens st st1 t id Hwf Hid) as Htok1.
    assert (Hsize1 : tokens_size st1 ≤ tokens_size st + 1).
    { unfold tokens_size. rewrite Htok1. case_decide; rewrite ?length_app; simpl; lia. }
    assert (Hstep : ∃ st2, match prev with
                           | Some p => append_to_succs p t st1
                           | None => Ok st1
                           end = Ok st2 ∧ wf st2 ∧ tokens st2 = tokens st1).
    { destruct prev as [p|]; [|by exists st1].
      destruct (append_to_succs_ok st1 p t Hwf1) as [st2 Hst2].
      - apply (token_id_returns st1 p Hwf1). left.
        specialize (Hprev p eq_refl). rewrite Htok1.
        case_decide; [done|]. apply elem_of_app. by left.
      - exists st2. split; [done|].
        destruct (append_to_succs_spec st1 st2 p t Hwf1 Hst2)
          as (pid & st1' & arr & cap & Hpid & _ & _ & -> & Hwf2).
        split; [done|]. cbn [set_succs tokens].
        destruct (token_id_cases st1 st1' p pid Hwf1 Hpid)
          as [(_ & _ & ->)|(Hfresh & _)]; [done|].
        exfalso. apply Hfresh. specialize (Hprev p eq_refl). rewrite Htok1.
        case_decide; [done|]. apply elem_of_app. by left. }
    destruct Hstep as (st2 & -> & Hwf2 & Htok2). rewrite bind_Ok.
    destruct (IH (Some t) (strtok_r delimiters save) st2 Hwf2) as [r Hr].
    + intros ? [= <-]. rewrite Htok2. by eapply list_elem_of_lookup_2.
    + intros t' save' Hnext. apply strtok_r_Some in Hnext as [_ Hlt].
      specialize (Hfuel t save eq_refl). lia.
    + unfold tokens_size in *. rewrite Htok2. lia.
    + rewrite Hr, bind_Ok. by eexists.
Qed.

(** The tokenizer runs to its end on every text that has no more bytes than
    the table has slots. *)
Lemma tokenize_run_ok (delimiters str : string) :
  Z.of_nat (String.length str) ≤ HASH_SIZE →
  is_ok (tokenize_run delimiters str boot).
Proof.
  intros Hlen. unfold tokenize_run. apply tokenize_loop_ok.
  - apply wf_boot.
  - by intros p [=].
  - intros t save H. by apply strtok_r_Some in H as [_ ?].
  - exact Hlen.
Qed.

Lemma records_boot : records [] boot.
Proof. intros id a H. discriminate H. Qed.

Lemma tokenize_run_spec (delimiters str : string) (r : tokenized) :
  tokenize_run delimiters str boot = Ok r →
  wf (t_state r) ∧
  records (t_edges r) (t_state r) ∧
  interned_ends (t_edges r) (t_state r) ∧
  tokens (t_state r) = first_seen [] (t_yielded r) ∧
  t_edges r = adjacent (t_yielded r).
Proof.
  intros H. unfold tokenize_run in H.
  apply (tokenize_loop_spec _ _ _ _ _ [] r wf_boot records_boot) in H;
    [done | constructor | by intros p [=]].
Qed.




(** ** Strings *)

Lemma strlen_nonneg (s : string) : 0 ≤ strlen s.
Proof. unfold strlen. lia. Qed.

Lemma string_length_app (a b : string) :
  String.length (a +:+ b) = (String.length a + String.length b)%nat.
Proof.
  induction a as [|c a IH]; [reflexivity|].
  change (String c a +:+ b) with (String c (a +:+ b)).
  cbn [String.length]. rewrite IH. reflexivity.
Qed.

Lemma strlen_app (a b : string) : strlen (a +:+ b) = strlen a + strlen b.
Proof. unfold strlen. rewrite string_length_app. lia. Qed.

Lemma last_char_app (a b : string) :
  b ≠ EmptyString → last_char (a +:+ b) = last_char b.
Proof.
  intros Hb. induction a as [|c a IH]; [done|].
  change (String c a +:+ b) with (String c (a +:+ b)).
  cbn [last_char]. rewrite IH.
  destruct (a +:+ b) eqn:Hab; [|done].
  destruct a; [simpl in Hab; by subst | discriminate].
Qed.

Lemma last_char_app_space (a : string) :
  last_char (a +:+ " ") = " "%char.
Proof. by apply last_char_app. Qed.

Lemma substring_length (n : nat) (s : string) :
  String.length (substring 0 n s) = Nat.min n (String.length s).
Proof.
  revert s. induction n as [|n IH]; intros [|c s]; simpl; try done.
  by rewrite IH.
Qed.

Lemma substring_all (n : nat) (s : string) :
  (String.length s ≤ n)%nat → substring 0 n s = s.
Proof.
  revert s. induction n as [|n IH]; intros [|c s]; simpl; try done; try lia.
  intros H. rewrite IH; [done | lia].
Qed.

Lemma strcat_Ok (out_size : Z) (out src o : string) :
  strcat out_size out src = Ok o ↔
  strlen out + strlen src + 1 ≤ out_size ∧ o = out +:+ src.
Proof.
  unfold strcat. destruct (Z.leb_spec (strlen out + strlen src + 1) out_size).
  - split; [intros [= <-]; done | intros [_ ->]; done].
  - split; [discriminate | lia].
Qed.

Lemma not_terminal_space : token_ends_a_sentence " " = false.
Proof. reflexivity. Qed.

(** ** Errors of the interner in an arbitrary state *)

Lemma array_get_Err {A} (a : list A) (i : Z) (e : error) :
  array_get a i = Err e → e = OutOfBounds.
Proof.
  unfold array_get. destruct (i <? 0); [by intros [= <-]|].
  destruct (a !! Z.to_nat i); [discriminate | by intros [= <-]].
Qed.

Lemma hash_find_loop_Err (s : string) (st : state) (h : Z) (n : nat) (probe : Z)
    (e : error) :
  hash_find_loop s st h n probe = Err e → e = OutOfBounds.
Proof.
  revert probe. induction n as [|n IH]; intros probe; cbn [hash_find_loop];
    [discriminate|].
  destruct (hash_index st ((h + probe) mod HASH_SIZE) =? -1); [discriminate|].
  intros [H|(t & Ht & H)]%bind_Err_inv; [by apply array_get_Err in H|].
  case_bool_decide; [discriminate | by apply IH in H].
Qed.

Lemma hash_insert_loop_Err (st : state) (h id : Z) (n : nat) (probe : Z) (e : error) :
  hash_insert_loop st h id n probe = Err e → e = ExitFailure.
Proof.
  revert probe. induction n as [|n IH]; intros probe; cbn [hash_insert_loop].
  - by intros [= <-].
  - destruct (hash_index st ((h + probe) mod HASH_SIZE) =? -1); [discriminate|].
    apply IH.
Qed.

(** [token_id] fails in two ways only: the table is full, or the hash index
    holds something that is not an identifier. *)
Lemma token_id_Err (st : state) (s : string) (e : error) :
  token_id s st = Err e → e = ExitFailure ∨ e = OutOfBounds.
Proof.
  unfold token_id.
  intros [H|(found & Hf & H)]%bind_Err_inv; [right; by apply hash_find_loop_Err in H|].
  destruct (0 <=? found); [discriminate|].
  apply bind_Err_inv in H as [H|(st3 & _ & H)]; [|discriminate].
  left. by apply hash_insert_loop_Err in H.
Qed.

(** In any state, [token_id] leaves the successor lists alone or adds an
    empty one for a new identifier. *)
Lemma token_id_succs (st st1 : state) (s : string) (id : Z) :
  token_id s st = Ok (id, st1) →
  st1 = st ∨ (tokens st1 = tokens st ++ [s] ∧ succs st1 = succs st ++ [[]]).
Proof.
  unfold token_id. intros H. inv_bind H as found Hf.
  destruct (0 <=? found); [injection H as <- <-; by left|].
  inv_bind H as st3 Hins. injection H as <- <-. right.
  apply hash_insert_loop_Ok in Hins as (p & _ & _ & _ & ->).
  cbn [set_hash_index push_token tokens succs].
  by rewrite ensure_tokens_capacity_tokens, ensure_tokens_capacity_succs.
Qed.

(** ** The tokenizer never runs out of iterations *)

Lemma array_set_Err {A} (a : list A) (i : Z) (x : A) (e : error) :
  array_set a i x = Err e → e = OutOfBounds.
Proof.
  unfold array_set. destruct ((0 <=? i) && (i <? Z.of_nat (length a)));
    [discriminate | by intros [= <-]].
Qed.

Lemma append_to_succs_Err (st : state) (prev curr : string) (e : error) :
  append_to_succs prev curr st = Err e → e = ExitFailure ∨ e = OutOfBounds.
Proof.
  unfold append_to_succs, succs_sizes.
  intros [H|([pid st1] & _ & H)]%bind_Err_inv; [by apply token_id_Err in H|].
  right.
  apply bind_Err_inv in H as [H|(cap & _ & H)]; [by apply array_get_Err in H|].
  apply bind_Err_inv in H as [H|(size & _ & H)].
  { apply bind_Err_inv in H as [H|(arr & _ & H)]; [by apply array_get_Err in H|].
    discriminate. }
  apply bind_Err_inv in H as [H|(arr & _ & H)]; [by apply array_get_Err in H|].
  destruct (size <? _); [|by injection H as <-].
  apply bind_Err_inv in H as [H|(caps' & _ & H)]; [by apply array_set_Err in H|].
  apply bind_Err_inv in H as [H|(arrs' & _ & H)]; [by apply array_set_Err in H|].
  discriminate.
Qed.

(** In any state, the loop fails only where [token_id] or an array access
    fails: as many iterations as the text has bytes are enough. *)
Lemma tokenize_loop_Err (fuel : nat) (delimiters : string) :
  ∀ (prev : option string) (tok : option (string * string)) (st : state) (e : error),
  (∀ t save, tok = Some (t, save) → (String.length save < fuel)%nat) →
  tokenize_loop fuel delimiters prev tok st = Err e →
  e = ExitFailure ∨ e = OutOfBounds.
Proof.
  induction fuel as [|fuel IH]; intros prev tok st e Hfuel;
    destruct tok as [[t save]|]; cbn [tokenize_loop]; try discriminate.
  - specialize (Hfuel t save eq_refl). lia.
  - intros [H|([id st1] & _ & H)]%bind_Err_inv; [by apply token_id_Err in H|].
    apply bind_Err_inv in H as [H|(st2 & _ & H)].
    { destruct prev; [by apply append_to_succs_Err in H | discriminate]. }
    apply bind_Err_inv in H as [H|(r & _ & H)]; [|discriminate].
    apply IH in H; [done|].
    intros t' save' Hnext. apply strtok_r_Some in Hnext as [_ Hlt].
    specialize (Hfuel t save eq_refl). lia.
Qed.

Lemma tokenize_run_Err (delimiters str : string) (st : state) (e : error) :
  tokenize_run delimiters str st = Err e → e = ExitFailure ∨ e = OutOfBounds.
Proof.
  unfold tokenize_run. apply tokenize_loop_Err.
  intros t save H. by apply strtok_r_Some in H as [_ ?].
Qed.

(** ** One pass through the loop body *)

Lemma rand_range (r : rng) : 0 ≤ (rand r).1 ≤ RAND_MAX.
Proof.
  unfold rand. cbn [fst].
  pose proof (Z.mod_pos_bound (Z.of_N (r 0%nat)) (RAND_MAX + 1)) as H.
  unfold RAND_MAX in *. lia.
Qed.

Section Walk.

(** The size of the caller's buffer, fixed during a walk. *)
Context (out_size : Z).

Lemma walk_step_cases (out token : string) (st : state) (r : rng) :
  (∃ e, walk_step out_size out token st r = Err e ∧
        (token_id token st = Err e ∨
         ∃ id st1, token_id token st = Ok (id, st1) ∧
                   array_get (succs st1) id = Err e)) ∨
  (∃ id st1 arr s,
     walk_step out_size out token st r = Ok s ∧
     token_id token st = Ok (id, st1) ∧
     array_get (succs st1) id = Ok arr ∧
     step_of out_size out st1 r arr s).
Proof.
  unfold walk_step.
  destruct (token_id token st) as [[id st1]|e] eqn:Hid; [|left; eauto].
  rewrite bind_Ok. unfold succs_sizes.
  destruct (array_get (succs st1) id) as [arr|e] eqn:Harr;
    [|left; exists e; split; [done | right; eauto]].
  right. exists id, st1, arr. rewrite !bind_Ok. unfold step_of.
  destruct (Z.eqb_spec (Z.of_nat (length arr)) 0) as [Hlen|Hlen].
  { eexists. do 3 (split; [done|]). left. split; [|done].
    destruct arr; [done | simpl in Hlen; lia]. }
  pose proof (rand_range r) as Hx. destruct (rand r) as [x r1]. cbn [fst snd] in *.
  cbv beta iota.
  pose proof (Z.mod_pos_bound x (Z.of_nat (length arr))) as Hm.
  destruct (array_get_in_range arr (x mod Z.of_nat (length arr))) as [next Hnext];
    [lia|].
  rewrite bind_Ok, Hnext, bind_Ok. apply array_get_Ok in Hnext as [_ Hnext].
  destruct (Z.geb_spec (strlen out + 1 + strlen next + 1) out_size) as [Hfull|Hfits].
  { eexists. do 3 (split; [done|]). right. exists next. split; [done|].
    left. split; [lia | done]. }
  pose proof (strlen_nonneg next) as Hn.
  assert (H1 : strcat out_size out " " = Ok (out +:+ " ")).
  { apply strcat_Ok. split; [|done]. change (strlen " ") with 1. lia. }
  assert (H2 : strcat out_size (out +:+ " ") next = Ok ((out +:+ " ") +:+ next)).
  { apply strcat_Ok. split; [|done]. rewrite strlen_app.
    change (strlen " ") with 1. lia. }
  rewrite H1, bind_Ok, H2, bind_Ok.
  eexists. split; [|split; [done|split; [done|]]]; cycle 1.
  - right. exists next. split; [done|]. right. split; [lia | reflexivity].
  - by destruct (token_ends_a_sentence next).
Qed.

Lemma walk_step_Err (out token : string) (st : state) (r : rng)
    (e : error) :
  walk_step out_size out token st r = Err e → e = ExitFailure ∨ e = OutOfBounds.
Proof.
  intros H.
  destruct (walk_step_cases out token st r)
    as [(e' & He & [Hid|(id & st1 & _ & Harr)])|(? & ? & ? & s & Hs & _)].
  - rewrite H in He. injection He as <-. by apply token_id_Err in Hid.
  - rewrite H in He. injection He as <-. right. by apply array_get_Err in Harr.
  - congruence.
Qed.

Lemma walk_step_Ok (out token : string) (st : state) (r : rng)
    (s : step) :
  walk_step out_size out token st r = Ok s →
  ∃ id st1 arr,
    token_id token st = Ok (id, st1) ∧
    array_get (succs st1) id = Ok arr ∧
    step_of out_size out st1 r arr s.
Proof.
  intros H.
  destruct (walk_step_cases out token st r)
    as [(e' & He & _)|(id & st1 & arr & s' & Hs & Hrest)]; [congruence|].
  assert (s' = s) as -> by congruence. by exists id, st1, arr.
Qed.

(** In a well-formed state the body runs without error on an interned
    token, and leaves the globals as they are. *)
Lemma walk_step_wf (out token : string) (st : state) (r : rng) :
  wf st → token ∈ tokens st →
  ∃ (id : nat) arr s,
    walk_step out_size out token st r = Ok s ∧
    tokens st !! id = Some token ∧ succs st !! id = Some arr ∧
    step_of out_size out st r arr s.
Proof.
  intros Hwf [id Hid]%list_elem_of_lookup_1.
  pose proof (token_id_interned st token id Hwf Hid) as Htid.
  destruct (lookup_lt_is_Some_2 (succs st) id) as [arr Harr].
  { rewrite (wf_succs_len st Hwf). by eapply lookup_lt_Some. }
  destruct (walk_step_cases out token st r)
    as [(e & He & [H|(id' & st1 & H & Hget)])|(id' & st1 & arr' & s & Hs & H & Hget & Hstep)].
  - congruence.
  - rewrite Htid in H. injection H as <- <-.
    by rewrite (array_get_of_nat _ _ _ Harr) in Hget.
  - rewrite Htid in H. injection H as <- <-.
    rewrite (array_get_of_nat _ _ _ Harr) in Hget. injection Hget as <-.
    by exists id, arr, s.
Qed.

(** ** The while loop *)

Lemma string_app_empty_r (a : string) : a +:+ EmptyString = a.
Proof.
  induction a as [|c a IH]; [done|].
  change (String c a +:+ EmptyString) with (String c (a +:+ EmptyString)).
  by rewrite IH.
Qed.

(** After [" "] and [next] are appended, the output ends a sentence exactly
    when [next] does. *)
Lemma ends_after_append (out next : string) :
  token_ends_a_sentence ((out +:+ " ") +:+ next) = token_ends_a_sentence next.
Proof.
  unfold token_ends_a_sentence. destruct next as [|c next].
  - rewrite string_app_empty_r, last_char_app_space. reflexivity.
  - by rewrite last_char_app.
Qed.

Lemma step_of_succs_member (out : string) (st1 : state) (r : rng)
    (arr : list string) (out' next : string) (st' : state) (r' : rng) :
  step_of out_size out st1 r arr (Next out' next st' r') →
  next ∈ arr ∧ st' = st1 ∧ r' = (rand r).2 ∧
  out' = (out +:+ " ") +:+ next ∧
  token_ends_a_sentence next = false ∧
  strlen out + 1 + strlen next + 1 < out_size.
Proof.
  intros [[_ [=]]|(nx & Hnx & [[_ [=]]|[Hfit Hs]])].
  destruct (token_ends_a_sentence nx) eqn:Hends; [discriminate|].
  injection Hs as -> -> -> ->.
  split; [by eapply list_elem_of_lookup_2|]. done.
Qed.

Lemma step_of_break (out : string) (st1 : state) (r : rng)
    (arr : list string) (out' : string) (st' : state) (r' : rng) (o : outcome) :
  step_of out_size out st1 r arr (Break out' st' r' o) →
  st' = st1 ∧
  ((o ≠ Terminal ∧ out' = out) ∨
   (o = Terminal ∧ ∃ next, next ∈ arr ∧ out' = (out +:+ " ") +:+ next ∧
      token_ends_a_sentence next = true ∧
      strlen out + 1 + strlen next + 1 < out_size)).
Proof.
  intros [[_ [= -> -> -> ->]]|(nx & Hnx & [[_ [= -> -> -> ->]]|[Hfit Hs]])].
  - split; [done|]. by left.
  - split; [done|]. by left.
  - destruct (token_ends_a_sentence nx) eqn:Hends; [|discriminate].
    injection Hs as -> -> -> ->. split; [done|]. right. split; [done|].
    exists nx. split; [by eapply list_elem_of_lookup_2 | done].
Qed.

(** What holds of every walk that ends normally, in any state: the output
    is the one the loop started from or fits the buffer with a byte to
    spare; the number of passes is bounded through the shortest successor
    spelling [m]; and the outcome is [Terminal] exactly when the output
    ends a sentence. *)
Lemma walk_loop_Ok (m : Z) (fuel : nat) :
  ∀ (out token : string) (st : state) (r : rng) (w : walk),
  Forall (Forall (λ t, m ≤ strlen t)) (succs st) →
  walk_loop fuel out_size out token st r = Ok w →
  (w_out w = out ∨ strlen (w_out w) + 1 < out_size) ∧
  (w_steps w = 0 ∨
   0 < w_steps w ∧ (w_steps w - 1) * (m + 1) + strlen out + 2 < out_size) ∧
  (token_ends_a_sentence out = false →
   (w_outcome w = Terminal ↔ token_ends_a_sentence (w_out w) = true)).
Proof.
  induction fuel as [|fuel IH]; intros out token st r w Hm; cbn [walk_loop];
    destruct (Z.ltb_spec (strlen out + 2) out_size) as [Hcond|Hcond];
    try discriminate.
  - intros [= <-]. cbn. split; [by left|]. split; [by left|].
    intros ->. split; discriminate.
  - intros H. inv_bind H as s Hs.
    apply walk_step_Ok in Hs as (id & st1 & arr & Hid & Harr & Hstep).
    assert (Hm1 : Forall (Forall (λ t, m ≤ strlen t)) (succs st1)).
    { destruct (token_id_succs _ _ _ _ Hid) as [->|[_ ->]]; [done|].
      apply Forall_app. split; [done|]. by repeat constructor. }
    assert (Harr_m : Forall (λ t, m ≤ strlen t) arr).
    { apply array_get_Ok in Harr as [_ Harr].
      rewrite Forall_forall in Hm1. apply Hm1. by eapply list_elem_of_lookup_2. }
    destruct s as [out' st' r' o|out' next st' r'].
    + injection H as <-. cbn.
      apply step_of_break in Hstep
        as [-> [[Ho ->]|(-> & next & Hnext & -> & Hends & Hfit)]].
      * split; [by left|]. split; [right; lia|].
        intros ->. split; [done | discriminate].
      * split; [right; rewrite !strlen_app; change (strlen " ") with 1; lia|].
        split; [right; lia|]. intros _.
        by rewrite ends_after_append, Hends.
    + apply step_of_succs_member in Hstep as (Hnext & -> & -> & -> & Hends & Hfit).
      apply fmap_Ok_inv in H as (w' & Hw' & ->).
      destruct (IH _ _ _ _ _ Hm1 Hw') as (Hlen & Hsteps & Hterm).
      rewrite !strlen_app in Hsteps. change (strlen " ") with 1 in *.
      rewrite Forall_forall in Harr_m. specialize (Harr_m next Hnext).
      cbn. split; [right|split; [right|]].
      * destruct Hlen as [->|?]; [|done].
        rewrite !strlen_app. change (strlen " ") with 1. lia.
      * destruct Hsteps as [->|[Hpos Hsteps]]; [lia|].
        split; [lia|]. nia.
      * intros _. apply Hterm. by rewrite ends_after_append.
  - intros [= <-]. cbn. split; [by left|]. split; [by left|].
    intros ->. split; discriminate.
Qed.

Lemma walk_loop_Err (fuel : nat) :
  ∀ (out token : string) (st : state) (r : rng) (e : error),
  out_size - strlen out - 2 ≤ Z.of_nat fuel →
  walk_loop fuel out_size out token st r = Err e →
  e = ExitFailure ∨ e = OutOfBounds.
Proof.
  induction fuel as [|fuel IH]; intros out token st r e Hfuel; cbn [walk_loop];
    destruct (Z.ltb_spec (strlen out + 2) out_size) as [Hcond|Hcond];
    try discriminate; [lia|].
  intros [H|(s & Hs & H)]%bind_Err_inv; [by apply walk_step_Err in H|].
  destruct s as [out' st' r' o|out' next st' r']; [discriminate|].
  apply fmap_Err_inv in H.
  apply walk_step_Ok in Hs as (id & st1 & arr & _ & _ & Hstep).
  apply step_of_succs_member in Hstep as (_ & _ & _ & -> & _ & Hfit).
  apply IH in H; [done|].
  rewrite !strlen_app. change (strlen " ") with 1.
  pose proof (strlen_nonneg next). lia.
Qed.

(** In a well-formed state whose successors are all interned, the walk
    from an interned token ends normally and leaves the globals as they
    are. *)
Lemma walk_loop_wf (st : state) (fuel : nat) :
  wf st → succs_closed st →
  ∀ (out token : string) (r : rng),
  token ∈ tokens st →
  out_size - strlen out - 2 ≤ Z.of_nat fuel →
  ∃ w, walk_loop fuel out_size out token st r = Ok w ∧ w_state w = st.
Proof.
  intros Hwf Hclosed.
  induction fuel as [|fuel IH]; intros out token r Htoken Hfuel; cbn [walk_loop];
    destruct (Z.ltb_spec (strlen out + 2) out_size) as [Hcond|Hcond];
    try (by eexists); [lia|].
  destruct (walk_step_wf out token st r Hwf Htoken)
    as (id & arr & s & Hs & Hid & Harr & Hstep).
  rewrite Hs, bind_Ok.
  destruct s as [out' st' r' o|out' next st' r'].
  - apply step_of_break in Hstep as [-> _]. by eexists.
  - apply step_of_succs_member in Hstep as (Hnext & -> & -> & -> & _ & Hfit).
    destruct (IH ((out +:+ " ") +:+ next) next (rand r).2) as (w & Hw & Hst).
    + unfold succs_closed in Hclosed. rewrite Forall_forall in Hclosed.
      specialize (Hclosed arr (list_elem_of_lookup_2 _ _ _ Harr)).
      rewrite Forall_forall in Hclosed. by apply Hclosed.
    + rewrite !strlen_app. change (strlen " ") with 1.
      pose proof (strlen_nonneg next). lia.
    + rewrite Hw. by eexists.
Qed.

End Walk.

(** ** Start selection *)

Lemma first_capitalized_spec (ts : list string) (i : Z) :
  (∃ (n : nat) t,
     ts !! n = Some t ∧ starts_a_sentence t = true ∧
     (∀ (j : nat) t', (j < n)%nat → ts !! j = Some t' → starts_a_sentence t' = false) ∧
     first_capitalized ts i = i + Z.of_nat n) ∨
  (Forall (λ t, starts_a_sentence t = false) ts ∧ first_capitalized ts i = 0).
Proof.
  revert i. induction ts as [|t ts IH]; intros i; simpl.
  - right. by split.
  - destruct (starts_a_sentence t) eqn:Ht.
    + left. exists 0%nat, t. split; [done|]. split; [done|].
      split; [intros; lia | lia].
    + destruct (IH (i + 1)) as [(n & t' & Hn & Ht' & Hbefore & Heq)|[Hall Heq]].
      * left. exists (S n), t'. split; [done|]. split; [done|]. split; [|lia].
        intros [|j] t'' Hj Hlk; [by injection Hlk as <-|].
        apply (Hbefore j); [lia | done].
      * right. split; [by constructor | done].
Qed.

Lemma capitalized_lookup (st : state) (n : nat) (t : string) :
  tokens st !! n = Some t → capitalized st (Z.of_nat n) = starts_a_sentence t.
Proof. intros H. unfold capitalized. by rewrite (array_get_of_nat _ _ _ H). Qed.

Lemma drawn_id_range (st : state) (r : rng) (k : nat) :
  0 < tokens_size st → 0 ≤ drawn_id st r k < tokens_size st.
Proof. intros H. unfold drawn_id. by apply Z.mod_pos_bound. Qed.

Lemma random_pick_loop_spec (st : state) (n : nat) :
  0 < tokens_size st < 2 ^ (INT_BITS - 1) →
  ∀ r : rng,
  (∃ k : nat, (k < n)%nat ∧
     capitalized st (drawn_id st r k) = true ∧
     (∀ j : nat, (j < k)%nat → capitalized st (drawn_id st r j) = false) ∧
     random_pick_loop n st r = Ok (Some (drawn_id st r k), drop_rng (S k) r)) ∨
  ((∀ j : nat, (j < n)%nat → capitalized st (drawn_id st r j) = false) ∧
   random_pick_loop n st r = Ok (None, drop_rng n r)).
Proof.
  intros Hsize. induction n as [|n IH]; intros r; cbn [random_pick_loop].
  - right. split; [intros; lia | reflexivity].
  - destruct (Z.eqb_spec (tokens_size st) 0) as [|_]; [lia|].
    pose proof (rand_range r) as Hx.
    pose proof (drawn_id_range st r 0 ltac:(lia)) as Hd.
    assert (Hdraw : drawn_id st r 0 = (rand r).1 mod tokens_size st) by reflexivity.
    destruct (rand r) as [x r1] eqn:Hrand. cbn [fst] in *.
    rewrite to_int_small by lia. unfold int_rem.
    destruct (Z.eqb_spec (tokens_size st) 0) as [|_]; [lia|].
    rewrite bind_Ok, Z.rem_mod_nonneg by lia.
    rewrite <- Hdraw. rewrite to_ulong_small by lia.
    destruct (array_get_in_range (tokens st) (drawn_id st r 0)) as [t Ht];
      [unfold tokens_size in Hd; lia|].
    rewrite Ht, bind_Ok.
    assert (Hcap : capitalized st (drawn_id st r 0) = starts_a_sentence t).
    { unfold capitalized. by rewrite Ht. }
    assert (Hr1 : r1 = drop_rng 1 r) by (by injection Hrand as _ <-).
    destruct (starts_a_sentence t) eqn:Hstart.
    + left. exists 0%nat. split; [lia|]. split; [done|].
      split; [intros; lia|]. by rewrite Hr1.
    + destruct (IH r1) as [(k & Hk & Hhit & Hmiss & Heq)|[Hmiss Heq]]; subst r1.
      * left. exists (S k). split; [lia|]. split; [exact Hhit|]. split; [|exact Heq].
        intros [|j] Hj; [done|]. apply (Hmiss j). lia.
      * right. split; [|exact Heq].
        intros [|j] Hj; [done|]. apply (Hmiss j). lia.
Qed.

Lemma random_pick_loop_Err (st : state) (n : nat) (r : rng) (e : error) :
  random_pick_loop n st r = Err e → e = DivisionByZero ∨ e = OutOfBounds.
Proof.
  revert r. induction n as [|n IH]; intros r; cbn [random_pick_loop];
    [discriminate|].
  destruct (tokens_size st =? 0); [discriminate|].
  destruct (rand r) as [x r1]. unfold int_rem.
  destruct (to_int (tokens_size st) =? 0); [intros [= <-]; by left|].
  rewrite bind_Ok.
  intros [H|(t & Ht & H)]%bind_Err_inv; [right; by apply array_get_Err in H|].
  destruct (starts_a_sentence t); [discriminate | by apply IH in H].
Qed.

Lemma random_token_id_Err (st : state) (r : rng) (e : error) :
  random_token_id_that_starts_a_sentence st r = Err e →
  e = DivisionByZero ∨ e = OutOfBounds.
Proof.
  unfold random_token_id_that_starts_a_sentence.
  intros [H|([pick r1] & _ & H)]%bind_Err_inv; [by apply random_pick_loop_Err in H|].
  by destruct pick.
Qed.

Lemma wf_tokenized (delimiters str : string) (st : state) :
  tokenize_and_fill_succs delimiters str boot = Ok st →
  wf st ∧ succs_closed st.
Proof.
  unfold tokenize_and_fill_succs. intros H. inv_bind H as r Hr. injection H as <-.
  apply tokenize_run_spec in Hr as (Hwf & Hrec & Hends & _).
  split; [done|]. unfold succs_closed. apply Forall_forall. intros arr Harr.
  apply list_elem_of_lookup_1 in Harr as [id Hid].
  destruct (lookup_lt_is_Some_2 (tokens (t_state r)) id) as [a Ha].
  { rewrite <- (wf_succs_len _ Hwf). by eapply lookup_lt_Some. }
  rewrite (Hrec id a Ha) in Hid. injection Hid as <-.
  apply Forall_forall. intros t Ht. unfold followers in Ht.
  apply list_elem_of_fmap in Ht as ([p t'] & -> & Hpt).
  apply list_elem_of_filter in Hpt as [_ Hpt].
  unfold interned_ends in Hends. rewrite Forall_forall in Hends.
  by destruct (Hends _ Hpt).
Qed.

Lemma wf_alice_state : wf alice_state ∧ succs_closed alice_state.
Proof.
  unfold alice_state.
  destruct (tokenize_and_fill_succs main_delimiters "Alice saw Bob. Bob ran!" boot)
    as [st|e] eqn:H.
  - by apply wf_tokenized in H.
  - split; [apply wf_boot | constructor].
Qed.



(** The fallback scan answers the least identifier whose spelling begins
    with an uppercase letter, or 0 when there is none. *)
Lemma first_capitalized_scan (st : state) :
  ((0 ≤ first_capitalized (tokens st) 0 < tokens_size st) ∧
    capitalized st (first_capitalized (tokens st) 0) = true ∧
    (∀ i, 0 ≤ i < first_capitalized (tokens st) 0 → capitalized st i = false)) ∨
  (first_capitalized (tokens st) 0 = 0 ∧ ∀ i, capitalized st i = false).
Proof.
  destruct (first_capitalized_spec (tokens st) 0)
    as [(n & t & Hn & Ht & Hbefore & ->)|[Hall ->]].
  - left. rewrite Z.add_0_l. split; [|split].
    + apply lookup_lt_Some in Hn. unfold tokens_size. lia.
    + by rewrite (capitalized_lookup st n t Hn).
    + intros i Hi. unfold capitalized.
      destruct (array_get (tokens st) i) as [t'|] eqn:Hget; [|done].
      apply array_get_Ok in Hget as [_ Hget].
      apply (Hbefore (Z.to_nat i)); [lia | done].
  - right. split; [done|]. intros i. unfold capitalized.
    destruct (array_get (tokens st) i) as [t'|] eqn:Hget; [|done].
    apply array_get_Ok in Hget as [_ Hget].
    rewrite Forall_forall in Hall. apply Hall.
    by eapply list_elem_of_lookup_2.
Qed.

Lemma random_pick_loop_empty (st : state) (n : nat) (r : rng) :
  tokens st = [] → random_pick_loop n st r = Ok (None, r).
Proof.
  intros Hempty. destruct n as [|n]; [done|]. cbn [random_pick_loop].
  unfold tokens_size. by rewrite Hempty.
Qed.

Lemma wf_size_int (st : state) :
  wf st → tokens st ≠ [] → 0 < tokens_size st < 2 ^ (INT_BITS - 1).
Proof.
  intros Hwf Hne. pose proof (wf_id_small st (tokens_size st) Hwf) as H.
  unfold tokens_size in *. destruct (tokens st); [done|].
  simpl length in *. lia.
Qed.

(** Start selection returns, with an identifier of the table when there is
    one. *)
Lemma random_token_id_in_range (st : state) (r : rng) :
  wf st →
  ∃ id r', random_token_id_that_starts_a_sentence st r = Ok (id, r') ∧
           (tokens st ≠ [] → 0 ≤ id < tokens_size st).
Proof.
  intros Hwf. unfold random_token_id_that_starts_a_sentence.
  destruct (decide (tokens st = [])) as [Hempty|Hne].
  - rewrite (random_pick_loop_empty st _ r Hempty), bind_Ok.
    eexists _, _. split; [reflexivity | done].
  - pose proof (wf_size_int st Hwf Hne) as Hsize.
    destruct (random_pick_loop_spec st (Z.to_nat ATTEMPTS) Hsize r)
      as [(k & _ & _ & _ & ->)|[_ ->]]; rewrite bind_Ok.
    + eexists _, _. split; [reflexivity|]. intros _. apply drawn_id_range. lia.
    + eexists _, _. split; [reflexivity|]. intros _.
      destruct (first_capitalized_scan st) as [(? & _)|[-> _]]; [done | lia].
Qed.

(** ** One call of [generate_sentence] *)

(** The first token always fits: [strncat] copies at most [out_size - 1]
    bytes of it. *)
Lemma strncat_start (out_size : Z) (token : string) :
  0 < out_size →
  strncat out_size EmptyString token (out_size - 1) =
    Ok (substring 0 (Z.to_nat (out_size - 1)) token) ∧
  strlen (substring 0 (Z.to_nat (out_size - 1)) token) + 1 ≤ out_size.
Proof.
  intros Hpos.
  assert (Hlen : strlen (substring 0 (Z.to_nat (out_size - 1)) token) + 1 ≤ out_size).
  { unfold strlen. rewrite substring_length. lia. }
  split; [|done]. unfold strncat. apply strcat_Ok. split; [|done].
  change (strlen EmptyString) with 0. lia.
Qed.

Lemma generate_sentence_run_Ok (out : string) (out_size : Z) (st : state) (r : rng)
    (w : walk) :
  0 ≤ out_size →
  generate_sentence_run out out_size st r = Ok w →
  (out_size = 0 ∧ w = Walk out st r Truncated 0) ∨
  (0 < out_size ∧
   ∃ start_id r1 token,
     random_token_id_that_starts_a_sentence st r = Ok (start_id, r1) ∧
     start_token st start_id = Ok token ∧
     let out1 := substring 0 (Z.to_nat (out_size - 1)) token in
     strlen out1 + 1 ≤ out_size ∧
     ((token_ends_a_sentence token = true ∧ w = Walk out1 st r1 Terminal 0) ∨
      (token_ends_a_sentence token = false ∧
       walk_loop (Z.to_nat out_size) out_size out1 token st r1 = Ok w))).
Proof.
  intros Hnn. unfold generate_sentence_run.
  destruct (Z.eqb_spec out_size 0) as [->|Hne].
  - intros [= <-]. by left.
  - intros H. right. split; [lia|].
    inv_bind H as [start_id r1] Hstart. inv_bind H as token Htoken.
    destruct (strncat_start out_size token ltac:(lia)) as [Hcat Hlen].
    rewrite Hcat, bind_Ok in H.
    exists start_id, r1, token. split; [done|]. split; [done|]. split; [done|].
    destruct (token_ends_a_sentence token); [left | right].
    + split; [done|]. by injection H as <-.
    + done.
Qed.

Lemma generate_sentence_run_Err (out : string) (out_size : Z) (st : state) (r : rng)
    (e : error) :
  0 ≤ out_size →
  generate_sentence_run out out_size st r = Err e →
  e = ExitFailure ∨ e = OutOfBounds ∨ e = DivisionByZero.
Proof.
  intros Hnn. unfold generate_sentence_run.
  destruct (Z.eqb_spec out_size 0) as [->|Hne]; [discriminate|].
  intros [H|([start_id r1] & _ & H)]%bind_Err_inv.
  { apply random_token_id_Err in H. tauto. }
  apply bind_Err_inv in H as [H|(token & _ & H)].
  { unfold start_token in H. destruct (tokens_size st =? 0); [discriminate|].
    apply array_get_Err in H. tauto. }
  destruct (strncat_start out_size token ltac:(lia)) as [Hcat Hlen].
  rewrite Hcat, bind_Ok in H.
  destruct (token_ends_a_sentence token); [discriminate|].
  apply walk_loop_Err in H; [tauto|].
  pose proof (strlen_nonneg (substring 0 (Z.to_nat (out_size - 1)) token)). lia.
Qed.

(** The walk from the empty token in an empty vocabulary: one pass, which
    interns the empty spelling and finds no successor. *)
Lemma walk_loop_empty_vocabulary (out_size : Z) (st : state) (r : rng) (fuel : nat) :
  wf st → tokens st = [] →
  out_size - 2 ≤ Z.of_nat fuel →
  is_ok (walk_loop fuel out_size EmptyString EmptyString st r).
Proof.
  intros Hwf Hempty Hfuel. destruct fuel as [|fuel]; cbn [walk_loop];
    change (strlen EmptyString) with 0;
    (destruct (Z.ltb_spec (0 + 2) out_size) as [Hcond|Hcond]; [|by eexists]);
    [lia|].
  destruct (token_id_fresh_ok st EmptyString Hwf) as [[id st1] Hid].
  { rewrite Hempty. apply not_elem_of_nil. }
  { unfold tokens_size. rewrite Hempty. apply HASH_SIZE_pos. }
  destruct (token_id_fresh st st1 EmptyString id Hwf) as (-> & Hwf1 & _ & Hsuccs & _);
    [rewrite Hempty; apply not_elem_of_nil | done |].
  assert (Hnil : succs st = []).
  { apply length_zero_iff_nil. by rewrite (wf_succs_len st Hwf), Hempty. }
  rewrite Hnil in Hsuccs. simpl in Hsuccs.
  destruct (walk_step_cases out_size EmptyString EmptyString st r)
    as [(e & _ & [H|(id' & st1' & H & Hget)])|(id' & st1' & arr & s & Hs & H & Hget & Hstep)];
    rewrite Hid in H; try discriminate; injection H as <- <-.
  - unfold tokens_size in Hget. rewrite Hempty, Hsuccs in Hget. discriminate.
  - rewrite Hs, bind_Ok. destruct s; [by eexists|].
    apply step_of_succs_member in Hstep as (Hnext & _).
    unfold tokens_size in Hget. rewrite Hempty, Hsuccs in Hget.
    injection Hget as <-. by apply elem_of_nil in Hnext.
Qed.

(** In a well-formed state whose successors are all interned, a call ends
    normally, and it leaves the globals as they are when the vocabulary is
    not empty. *)
Lemma generate_sentence_run_wf (out : string) (out_size : Z) (st : state) (r : rng) :
  0 ≤ out_size → wf st → succs_closed st →
  ∃ w, generate_sentence_run out out_size st r = Ok w ∧
       (tokens st ≠ [] → w_state w = st).
Proof.
  intros Hnn Hwf Hclosed. unfold generate_sentence_run.
  destruct (Z.eqb_spec out_size 0) as [->|Hne]; [by eexists|].
  destruct (random_token_id_in_range st r Hwf) as (start_id & r1 & -> & Hsel).
  rewrite bind_Ok.
  assert (Hfuel : ∀ token, out_size -
            strlen (substring 0 (Z.to_nat (out_size - 1)) token) - 2 ≤
            Z.of_nat (Z.to_nat out_size)).
  { intros token.
    pose proof (strlen_nonneg (substring 0 (Z.to_nat (out_size - 1)) token)). lia. }
  destruct (decide (tokens st = [])) as [Hempty|Hne'].
  - unfold start_token, tokens_size. rewrite Hempty. simpl (_ =? _). cbv iota.
    rewrite bind_Ok.
    destruct (strncat_start out_size EmptyString ltac:(lia)) as [Hcat _].
    rewrite Hcat, bind_Ok. simpl (token_ends_a_sentence _). cbv iota.
    destruct (Z.to_nat (out_size - 1)); simpl substring;
      (destruct (walk_loop_empty_vocabulary out_size st r1 (Z.to_nat out_size) Hwf Hempty)
        as [w Hw]; [lia|]; exists w; split; [done | by intros ?]).
  - pose proof (Hsel Hne') as Hid.
    unfold start_token.
    destruct (Z.eqb_spec (tokens_size st) 0) as [|_]; [lia|].
    destruct (array_get_in_range (tokens st) start_id) as [token Htoken];
      [unfold tokens_size in Hid; lia|].
    rewrite Htoken, bind_Ok.
    destruct (strncat_start out_size token ltac:(lia)) as [Hcat _].
    rewrite Hcat, bind_Ok.
    destruct (token_ends_a_sentence token); [by eexists|].
    destruct (walk_loop_wf out_size st (Z.to_nat out_size) Hwf Hclosed
                (substring 0 (Z.to_nat (out_size - 1)) token) token r1)
      as (w & Hw & Hst).
    + apply array_get_Ok in Htoken as [_ Htoken]. by eapply list_elem_of_lookup_2.
    + apply Hfuel.
    + exists w. by split.
Qed.




Lemma wf_state_of (str : string) : wf (state_of str) ∧ succs_closed (state_of str).
Proof.
  unfold state_of.
  destruct (tokenize_and_fill_succs main_delimiters str boot) as [st|e] eqn:H.
  - by apply wf_tokenized in H.
  - split; [apply wf_boot | constructor].
Qed.

(** In a well-formed state with a non-empty vocabulary whose successors are
    all interned, as the tokenizer leaves it, a call of [generate_sentence]
    returns and hands back the globals unchanged. *)
Lemma generate_sentence_reads_only (out : string) (out_size : Z) (st : state) (r : rng) :
  0 ≤ out_size → wf st → succs_closed st → tokens st ≠ [] →
  ∃ out' r', generate_sentence out out_size st r = Ok (out', st, r').
Proof.
  intros Hnn Hwf Hclosed Hne.
  destruct (generate_sentence_run_wf out out_size st r Hnn Hwf Hclosed) as (w & Hw & Hst).
  exists (w_out w), (w_rng w). unfold generate_sentence.
  rewrite Hw, bind_Ok. by rewrite (Hst Hne).
Qed.



Lemma ends_with_terminal (s : string) (c : ascii) :
  c = "."%char ∨ c = "?"%char ∨ c = "!"%char →
  ends_with_char s c = true → token_ends_a_sentence s = true.
Proof.
  unfold ends_with_char, token_ends_a_sentence.
  intros Hc Hs. apply bool_decide_eq_true in Hs. rewrite Hs.
  destruct Hc as [-> | [-> | ->]]; reflexivity.
Qed.





(** When every token is shorter than the buffer, the walk ended at a
    terminal token exactly when the buffer ends a sentence. *)
Lemma terminal_iff_ends (out : string) (out_size : Z) (st : state) (r : rng)
    (w : walk) :
  0 < out_size →
  Forall (λ t, strlen t < out_size) (tokens st) →
  generate_sentence_run out out_size st r = Ok w →
  (w_outcome w = Terminal ↔ token_ends_a_sentence (w_out w) = true).
Proof.
  intros Hpos Hfit Hw.
  apply generate_sentence_run_Ok in Hw; [|lia].
  destruct Hw as [[-> _]|(_ & start_id & r1 & token & _ & Htoken & _ & Hw)]; [lia|].
  assert (Hwhole : substring 0 (Z.to_nat (out_size - 1)) token = token).
  { apply substring_all. unfold start_token in Htoken.
    destruct (tokens_size st =? 0).
    - injection Htoken as <-. simpl. lia.
    - apply array_get_Ok in Htoken as [_ Htoken].
      rewrite Forall_forall in Hfit.
      specialize (Hfit token (list_elem_of_lookup_2 _ _ _ Htoken)).
      unfold strlen in Hfit. lia. }
  rewrite Hwhole in Hw. destruct Hw as [[Hends ->]|[Hends Hw]]; [done|].
  apply (walk_loop_Ok out_size 0) in Hw as (_ & _ & Hterm); [by apply Hterm|].
  apply Forall_forall. intros arr _. apply Forall_forall. intros t _.
  apply strlen_nonneg.
Qed.

(** ** The states of a run *)

Lemma walk_loop_empty_state (out_size : Z) (st : state) (r : rng) (fuel : nat)
    (w : walk) :
  wf st → tokens st = [] →
  walk_loop fuel out_size EmptyString EmptyString st r = Ok w →
  w_state w = st ∨ ∃ id, token_id EmptyString st = Ok (id, w_state w).
Proof.
  intros Hwf Hempty. destruct fuel as [|fuel]; cbn [walk_loop];
    destruct (strlen EmptyString + 2 <? out_size); try discriminate;
    try (intros [= <-]; by left).
  intros H. inv_bind H as s Hs.
  apply walk_step_Ok in Hs as (id & st1 & arr & Hid & Harr & Hstep).
  destruct s as [out' st' r' o|out' next st' r'].
  - injection H as <-. apply step_of_break in Hstep as [-> _]. right. by exists id.
  - exfalso. apply step_of_succs_member in Hstep as (Hnext & _).
    assert (Hnil : succs st = []).
    { apply length_zero_iff_nil. by rewrite (wf_succs_len st Hwf), Hempty. }
    apply array_get_Ok in Harr as [_ Harr].
    destruct (token_id_succs _ _ _ _ Hid) as [->|[_ Hsuccs]].
    + rewrite Hnil in Harr. discriminate.
    + rewrite Hsuccs, Hnil in Harr. simpl in Harr.
      destruct (Z.to_nat id) as [|n]; simpl in Harr; [|by destruct n].
      injection Harr as <-. by apply elem_of_nil in Hnext.
Qed.

(** A call of [generate_sentence] keeps the table well formed and the
    successors interned. *)
Lemma generate_sentence_run_state (out : string) (out_size : Z) (st : state)
    (r : rng) (w : walk) :
  0 ≤ out_size → wf st → succs_closed st →
  generate_sentence_run out out_size st r = Ok w →
  wf (w_state w) ∧ succs_closed (w_state w).
Proof.
  intros Hnn Hwf Hclosed Hw.
  destruct (decide (tokens st = [])) as [Hempty|Hne].
  - apply generate_sentence_run_Ok in Hw; [|done].
    destruct Hw as [[_ ->]|(_ & start_id & r1 & token & _ & Htoken & _ & Hw)]; [done|].
    unfold start_token, tokens_size in Htoken. rewrite Hempty in Htoken.
    injection Htoken as <-.
    destruct Hw as [[_ ->]|[_ Hw]]; [done|].
    assert (Hsub : substring 0 (Z.to_nat (out_size - 1)) EmptyString = EmptyString)
      by (by destruct (Z.to_nat (out_size - 1))).
    rewrite Hsub in Hw.
    apply walk_loop_empty_state in Hw as [->|[id Hid]]; [done | | done | done].
    destruct (token_id_fresh st (w_state w) EmptyString id Hwf)
      as (_ & Hwf' & _ & Hsuccs & _); [rewrite Hempty; apply not_elem_of_nil | done |].
    split; [done|]. unfold succs_closed. rewrite Hsuccs.
    assert (Hnil : succs st = []).
    { apply length_zero_iff_nil. by rewrite (wf_succs_len st Hwf), Hempty. }
    rewrite Hnil. by repeat constructor.
  - destruct (generate_sentence_run_wf out out_size st r Hnn Hwf Hclosed) as (w' & Hw' & Hst).
    assert (w' = w) as -> by congruence. by rewrite (Hst Hne).
Qed.

(** Every state of a run is well formed, with all successors interned: the
    properties stated for such states hold throughout [main]. *)
Lemma reachable_wf (st : state) : reachable st → wf st ∧ succs_closed st.
Proof.
  induction 1 as [delimiters str st Htok|st out out_size r out' st' r' _ [Hwf Hclosed] Hnn Hgen].
  - by apply wf_tokenized in Htok.
  - unfold generate_sentence in Hgen. inv_bind Hgen as w Hw. injection Hgen as _ <- _.
    by apply (generate_sentence_run_state out out_size st r w).
Qed.

(** ** The driver *)

(** What a retry loop of [main] prints is the buffer of a walk that ended
    at a terminal token, and the loop leaves the globals as they are. *)
Lemma retry_loop_prints_terminal (c : ascii) (st : state) (tries : nat) :
  wf st → succs_closed st → tokens st ≠ [] →
  Forall (λ t, strlen t < BUF_SIZE) (tokens st) →
  c = "."%char ∨ c = "?"%char ∨ c = "!"%char →
  ∀ (buf : string) (r : rng) printed buf' st' r',
  retry_loop tries c buf st r = Ok (printed, buf', st', r') →
  st' = st ∧
  ∀ s, printed = Some s →
    ends_with_char s c = true ∧
    ∃ buf0 r0 w, generate_sentence_run buf0 BUF_SIZE st r0 = Ok w ∧
                 w_out w = s ∧ w_outcome w = Terminal.
Proof.
  intros Hwf Hclosed Hne Hfit Hc.
  induction tries as [|tries IH]; intros buf r printed buf' st' r'; cbn [retry_loop].
  - intros [= <- <- <- <-]. split; [done|]. by intros s [=].
  - intros H. inv_bind H as [[out st1] r1] Hgen.
    unfold generate_sentence in Hgen. inv_bind Hgen as w Hw.
    injection Hgen as <- <- <-.
    destruct (generate_sentence_run_wf buf BUF_SIZE st r ltac:(done) Hwf Hclosed)
      as (w' & Hw' & Hst).
    assert (w' = w) as -> by congruence. rewrite (Hst Hne) in *.
    destruct (ends_with_char (w_out w) c) eqn:Hends.
    + injection H as <- <- <- <-. split; [done|]. intros s [= <-].
      split; [done|]. exists buf, r, w. split; [done|]. split; [done|].
      apply (terminal_iff_ends buf BUF_SIZE st r w); [done | done | done |].
      by eapply ends_with_terminal.
    + by apply IH in H.
Qed.

(** * More properties *)

(** ** The scrubber *)

Lemma scrub_length (s : string) :
  String.length (replace_non_printable_chars_with_space s) = String.length s.
Proof. induction s as [|c s IH]; simpl; [done | by rewrite IH]. Qed.

Lemma isprint_space : isprint " " = true.
Proof. reflexivity. Qed.

Lemma scrub_printable (s : string) :
  Forall (λ c, isprint c = true)
    (list_ascii_of_string (replace_non_printable_chars_with_space s)).
Proof.
  induction s as [|c s IH]; simpl; constructor; [|done].
  destruct (isprint c) eqn:Hc; [done | reflexivity].
Qed.

Lemma scrub_fixed (s : string) :
  Forall (λ c, isprint c = true) (list_ascii_of_string s) →
  replace_non_printable_chars_with_space s = s.
Proof.
  induction s as [|c s IH]; simpl; [done|].
  intros [Hc Hs]%Forall_cons. by rewrite Hc, IH.
Qed.

Lemma scrub_get (s : string) (n : nat) (c : ascii) :
  String.get n s = Some c →
  String.get n (replace_non_printable_chars_with_space s) =
    Some (if isprint c then c else " "%char).
Proof.
  revert n. induction s as [|c0 s IH]; intros [|n]; simpl; try discriminate.
  - by intros [= ->].
  - apply IH.
Qed.

(** ** The sequence of tokens *)

Lemma tokenize_loop_yielded (fuel : nat) (delimiters : string) :
  ∀ (prev : option string) (tok : option (string * string)) (st : state)
    (r : tokenized),
  tokenize_loop fuel delimiters prev tok st = Ok r →
  t_yielded r = strtok_seq fuel delimiters tok.
Proof.
  induction fuel as [|fuel IH]; intros prev tok st r;
    destruct tok as [[t save]|]; cbn [tokenize_loop strtok_seq];
    try discriminate; try (by intros [= <-]).
  intros H. inv_bind H as [id st1] Hid. inv_bind H as st2 Hst2.
  inv_bind H as r' Hloop. injection H as <-.
  destruct prev; cbn [log_token t_yielded]; f_equal; by eapply IH.
Qed.

Lemma tokenize_run_yielded (delimiters str : string) (st : state) (r : tokenized) :
  tokenize_run delimiters str st = Ok r → t_yielded r = strtok_all delimiters str.
Proof. apply tokenize_loop_yielded. Qed.

(** The number of iterations does not matter once it covers the rest of
    the buffer. *)
Lemma strtok_seq_fuel (delimiters : string) (f1 : nat) :
  ∀ (f2 : nat) (tok : option (string * string)),
  (∀ t save, tok = Some (t, save) → (String.length save < f1)%nat) →
  (∀ t save, tok = Some (t, save) → (String.length save < f2)%nat) →
  strtok_seq f1 delimiters tok = strtok_seq f2 delimiters tok.
Proof.
  induction f1 as [|f1 IH]; intros f2 tok H1 H2.
  - destruct tok as [[t save]|]; [|by destruct f2].
    specialize (H1 t save eq_refl). lia.
  - destruct tok as [[t save]|]; [|by destruct f2].
    destruct f2 as [|f2]; [specialize (H2 t save eq_refl); lia|].
    cbn [strtok_seq]. f_equal. apply IH.
    + intros t' save' Hn. apply strtok_r_Some in Hn as [_ Hlt].
      specialize (H1 t save eq_refl). lia.
    + intros t' save' Hn. apply strtok_r_Some in Hn as [_ Hlt].
      specialize (H2 t save eq_refl). lia.
Qed.

Lemma strtok_all_step (delimiters str t save : string) :
  strtok_r delimiters str = Some (t, save) →
  strtok_all delimiters str = t :: strtok_all delimiters save.
Proof.
  intros H. unfold strtok_all. rewrite H.
  pose proof (strtok_r_Some _ _ _ _ H) as [_ Hlt].
  destruct (String.length str) as [|n] eqn:Hlen; [lia|].
  cbn [strtok_seq]. f_equal. apply strtok_seq_fuel.
  - intros t' save' Hn. apply strtok_r_Some in Hn as [_ ?]. lia.
  - intros t' save' Hn. by apply strtok_r_Some in Hn as [_ ?].
Qed.

Lemma strtok_all_none (delimiters str : string) :
  strtok_r delimiters str = None → strtok_all delimiters str = [].
Proof. intros H. unfold strtok_all. rewrite H. by destruct (String.length str). Qed.

Lemma skip_delims_only (delimiters s : string) :
  only_delimiters delimiters s ↔ skip_delims delimiters s = EmptyString.
Proof.
  unfold only_delimiters. induction s as [|c s IH]; simpl.
  - split; [done | constructor].
  - destruct (is_delim delimiters c) eqn:Hc.
    + rewrite Forall_cons. rewrite <- IH. tauto.
    + split; [|discriminate]. intros [Hc' _]%Forall_cons. congruence.
Qed.

Lemma strtok_r_None (delimiters s : string) :
  strtok_r delimiters s = None ↔ only_delimiters delimiters s.
Proof.
  rewrite skip_delims_only. unfold strtok_r.
  destruct (skip_delims delimiters s); split; done.
Qed.

Lemma split_token_free (delimiters s : string) :
  delimiter_free delimiters (split_token delimiters s).1.
Proof.
  unfold delimiter_free. induction s as [|c s IH]; simpl; [constructor|].
  destruct (is_delim delimiters c) eqn:Hc; [constructor|].
  destruct (split_token delimiters s) as [tok save]. simpl in *.
  by constructor.
Qed.

Lemma strtok_r_free (delimiters s tok save : string) :
  strtok_r delimiters s = Some (tok, save) → delimiter_free delimiters tok.
Proof.
  unfold strtok_r. destruct (skip_delims delimiters s) as [|c s1]; [discriminate|].
  pose proof (split_token_free delimiters (String c s1)) as Hf.
  destruct (split_token delimiters (String c s1)) as [tok' save'].
  by intros [= <- <-].
Qed.

Lemma strtok_seq_tokens (delimiters : string) (fuel : nat) :
  ∀ tok : option (string * string),
  (∀ t save, tok = Some (t, save) → t ≠ EmptyString ∧ delimiter_free delimiters t) →
  Forall (λ t, t ≠ EmptyString ∧ delimiter_free delimiters t)
    (strtok_seq fuel delimiters tok).
Proof.
  induction fuel as [|fuel IH]; intros [[t save]|] Htok; cbn [strtok_seq];
    try constructor.
  - by apply (Htok t save).
  - apply IH. intros t' save' Hn. split.
    + by apply strtok_r_Some in Hn as [? _].
    + by apply strtok_r_free in Hn.
Qed.

Lemma strtok_all_tokens (delimiters str : string) :
  Forall (λ t, t ≠ EmptyString ∧ delimiter_free delimiters t)
    (strtok_all delimiters str).
Proof.
  apply strtok_seq_tokens. intros t save H. split.
  - by apply strtok_r_Some in H as [? _].
  - by apply strtok_r_free in H.
Qed.

(** ** The tokens are the runs between delimiters *)

Lemma delimiter_free_cons (delimiters : string) (c : ascii) (t : string) :
  delimiter_free delimiters (String c t) ↔
  is_delim delimiters c = false ∧ delimiter_free delimiters t.
Proof. unfold delimiter_free. simpl. by rewrite Forall_cons. Qed.

Lemma split_token_run (delimiters t s : string) :
  delimiter_free delimiters t →
  split_token delimiters (t +:+ s) =
    match s with
    | EmptyString => (t, EmptyString)
    | String c s' => if is_delim delimiters c then (t, s')
                     else let '(tok, save) := split_token delimiters s in
                          (t +:+ tok, save)
    end.
Proof.
  induction t as [|c0 t IH]; intros Hfree.
  - change (EmptyString +:+ s) with s. destruct s as [|c s']; [done|].
    simpl. destruct (is_delim delimiters c); [done|].
    by destruct (split_token delimiters s').
  - apply delimiter_free_cons in Hfree as [Hc0 Hfree].
    change (String c0 t +:+ s) with (String c0 (t +:+ s)).
    cbn [split_token]. rewrite Hc0, (IH Hfree).
    destruct s as [|c s']; [done|].
    destruct (is_delim delimiters c); [done|].
    by destruct (split_token delimiters (String c s')).
Qed.

Lemma strtok_r_word (delimiters t : string) (c : ascii) (rest : string) :
  t ≠ EmptyString → delimiter_free delimiters t → is_delim delimiters c = true →
  strtok_r delimiters (t +:+ String c rest) = Some (t, rest).
Proof.
  intros Hne Hfree Hc. unfold strtok_r.
  destruct t as [|c0 t]; [done|].
  pose proof Hfree as [Hc0 _]%delimiter_free_cons.
  change (String c0 t +:+ String c rest) with (String c0 (t +:+ String c rest)).
  cbn [skip_delims]. rewrite Hc0.
  change (String c0 (t +:+ String c rest)) with (String c0 t +:+ String c rest).
  by rewrite (split_token_run _ _ _ Hfree), Hc.
Qed.

Lemma strtok_r_last_word (delimiters t : string) :
  t ≠ EmptyString → delimiter_free delimiters t →
  strtok_r delimiters t = Some (t, EmptyString).
Proof.
  intros Hne Hfree. unfold strtok_r.
  destruct t as [|c0 t]; [done|].
  pose proof Hfree as [Hc0 _]%delimiter_free_cons.
  cbn [skip_delims]. rewrite Hc0.
  pose proof (split_token_run delimiters (String c0 t) EmptyString Hfree) as H.
  rewrite string_app_empty_r in H. cbv beta iota in H.
  change (Some (split_token delimiters (String c0 t)) = Some (String c0 t, EmptyString)).
  by rewrite H.
Qed.

Lemma strtok_all_skip (delimiters : string) (c : ascii) (s : string) :
  is_delim delimiters c = true →
  strtok_all delimiters (String c s) = strtok_all delimiters s.
Proof.
  intros Hc.
  assert (Hr : strtok_r delimiters (String c s) = strtok_r delimiters s).
  { unfold strtok_r. cbn [skip_delims]. by rewrite Hc. }
  destruct (strtok_r delimiters s) as [[t save]|] eqn:Hs.
  - by rewrite (strtok_all_step _ _ _ _ Hr), (strtok_all_step _ _ _ _ Hs).
  - by rewrite (strtok_all_none _ _ Hr), (strtok_all_none _ _ Hs).
Qed.

Lemma strtok_all_join (delimiters : string) (sep : ascii) (ws : list string) :
  is_delim delimiters sep = true →
  Forall (λ t, t ≠ EmptyString ∧ delimiter_free delimiters t) ws →
  strtok_all delimiters (join_words sep ws) = ws.
Proof.
  intros Hsep. induction ws as [|w ws IH]; intros Hws.
  - by apply strtok_all_none.
  - apply Forall_cons in Hws as [[Hne Hfree] Hws].
    destruct ws as [|w' ws].
    + change (join_words sep [w]) with w.
      rewrite (strtok_all_step _ _ _ _ (strtok_r_last_word _ _ Hne Hfree)).
      by rewrite strtok_all_none.
    + change (join_words sep (w :: w' :: ws))
        with (w +:+ String sep (join_words sep (w' :: ws))).
      rewrite (strtok_all_step _ _ _ _
                 (strtok_r_word delimiters w sep _ Hne Hfree Hsep)).
      by rewrite (IH Hws).
Qed.

(** ** The bytes of the tokens are bytes of the text *)

Lemma skip_delims_chars (P : ascii → Prop) (delimiters s : string) :
  Forall P (list_ascii_of_string s) →
  Forall P (list_ascii_of_string (skip_delims delimiters s)).
Proof.
  induction s as [|c s IH]; simpl; [done|].
  intros [Hc Hs]%Forall_cons.
  destruct (is_delim delimiters c); [by apply IH | by constructor].
Qed.

Lemma split_token_chars (P : ascii → Prop) (delimiters s : string) :
  Forall P (list_ascii_of_string s) →
  Forall P (list_ascii_of_string (split_token delimiters s).1) ∧
  Forall P (list_ascii_of_string (split_token delimiters s).2).
Proof.
  induction s as [|c s IH]; simpl; [done|].
  intros [Hc Hs]%Forall_cons.
  destruct (is_delim delimiters c); [by split|].
  destruct (IH Hs) as [H1 H2].
  destruct (split_token delimiters s) as [tok save]. simpl in *.
  split; [by constructor | done].
Qed.

Lemma strtok_r_chars (P : ascii → Prop) (delimiters s tok save : string) :
  Forall P (list_ascii_of_string s) →
  strtok_r delimiters s = Some (tok, save) →
  Forall P (list_ascii_of_string tok) ∧ Forall P (list_ascii_of_string save).
Proof.
  intros Hs. unfold strtok_r.
  pose proof (skip_delims_chars P delimiters s Hs) as Hskip.
  destruct (skip_delims delimiters s) as [|c s1]; [discriminate|].
  pose proof (split_token_chars P delimiters (String c s1) Hskip) as H.
  destruct (split_token delimiters (String c s1)) as [tok' save'].
  by intros [= <- <-].
Qed.

Lemma strtok_seq_chars (P : ascii → Prop) (delimiters : string) (fuel : nat) :
  ∀ tok : option (string * string),
  (∀ t save, tok = Some (t, save) →
     Forall P (list_ascii_of_string t) ∧ Forall P (list_ascii_of_string save)) →
  Forall (λ t, Forall P (list_ascii_of_string t)) (strtok_seq fuel delimiters tok).
Proof.
  induction fuel as [|fuel IH]; intros [[t save]|] Htok; cbn [strtok_seq];
    try constructor.
  - by apply (Htok t save).
  - apply IH. intros t' save' Hn.
    apply (strtok_r_chars P delimiters save); [|done].
    by apply (Htok t save).
Qed.

Lemma strtok_all_chars (P : ascii → Prop) (delimiters str : string) :
  Forall P (list_ascii_of_string str) →
  Forall (λ t, Forall P (list_ascii_of_string t)) (strtok_all delimiters str).
Proof.
  intros Hs. apply strtok_seq_chars. intros t save H.
  by apply (strtok_r_chars P delimiters str).
Qed.

(** ** The hash *)

Lemma lxor_bound (a b n : Z) :
  0 < n → 0 ≤ a < 2 ^ n → 0 ≤ b < 2 ^ n → 0 ≤ Z.lxor a b < 2 ^ n.
Proof.
  intros Hn Ha Hb.
  assert (Hnn : 0 ≤ Z.lxor a b) by (apply Z.lxor_nonneg; lia).
  split; [done|].
  destruct (Z.eq_dec (Z.lxor a b) 0) as [->|Hne]; [by apply Z.pow_pos_nonneg; lia|].
  apply Z.log2_lt_pow2; [lia|].
  pose proof (Z.log2_lxor a b ltac:(lia) ltac:(lia)) as Hlog.
  assert (Hla : Z.log2 a < n).
  { destruct (Z.eq_dec a 0) as [->|]; [done|]. apply Z.log2_lt_pow2; lia. }
  assert (Hlb : Z.log2 b < n).
  { destruct (Z.eq_dec b 0) as [->|]; [done|]. apply Z.log2_lt_pow2; lia. }
  lia.
Qed.

Lemma char_code_range (c : ascii) : 0 ≤ char_code c < 256.
Proof.
  unfold char_code. pose proof (N_ascii_bounded c) as H. lia.
Qed.

Lemma to_ulong_range (z : Z) : 0 ≤ to_ulong z < 2 ^ ULONG_BITS.
Proof. unfold to_ulong. apply Z.mod_pos_bound. reflexivity. Qed.

Lemma hash_str_from_range (s : string) :
  ∀ h, 0 ≤ h < 2 ^ ULONG_BITS → 0 ≤ hash_str_from h s < 2 ^ ULONG_BITS.
Proof.
  induction s as [|c s IH]; intros h Hh; simpl; [done|].
  apply IH. apply lxor_bound; [done | apply to_ulong_range |].
  pose proof (char_code_range c).
  assert (256 < 2 ^ ULONG_BITS) by reflexivity. lia.
Qed.

Lemma hash_str_from_app (a b : string) :
  ∀ h, hash_str_from h (a +:+ b) = hash_str_from (hash_str_from h a) b.
Proof.
  induction a as [|c a IH]; intros h; [done|].
  change (String c a +:+ b) with (String c (a +:+ b)). simpl. apply IH.
Qed.

(** ** A full table *)

Lemma hash_insert_loop_full (st : state) (h id : Z) (n : nat) (probe : Z) :
  (∀ j, 0 ≤ j < HASH_SIZE → hash_index st j ≠ -1) →
  hash_insert_loop st h id n probe = Err ExitFailure.
Proof.
  intros Hfull. revert probe. induction n as [|n IH]; intros probe; [done|].
  cbn [hash_insert_loop].
  destruct (Z.eqb_spec (hash_index st ((h + probe) mod HASH_SIZE)) (-1)) as [He|_];
    [|apply IH].
  exfalso. revert He. apply Hfull. apply Z.mod_pos_bound, HASH_SIZE_pos.
Qed.

Lemma hash_insert_Ok (st st' : state) (s : string) (id : Z) :
  hash_insert s id st = Ok st' →
  ∃ p, 0 ≤ p < HASH_SIZE ∧ hash_index st (slot s p) = -1 ∧
       (∀ q, 0 ≤ q < p → hash_index st (slot s q) ≠ -1) ∧
       st' = set_hash_index st (slot s p) id.
Proof.
  unfold hash_insert. intros (p & Hp & He & Hb & ->)%hash_insert_loop_Ok.
  rewrite HASH_SIZE_nat in Hp. exists p. split; [lia|]. split; [done|].
  split; [|done]. intros q Hq. apply Hb. lia.
Qed.

(** With as many identifiers as slots, no slot is empty. *)
Lemma wf_full (st : state) :
  wf st → tokens_size st = HASH_SIZE →
  ∀ j, 0 ≤ j < HASH_SIZE → hash_index st j ≠ -1.
Proof.
  intros Hwf Hsize j Hj.
  destruct (wf_slots_of_ids st Hwf (length (tokens st))) as (l & Hlen & Hnd & Hl);
    [done|].
  assert (Hsub : l ⊆+ seqZ 0 HASH_SIZE).
  { apply NoDup_submseteq; [done|]. intros x Hx. apply elem_of_seqZ.
    specialize (Hl x Hx). lia. }
  assert (Hperm : l ≡ₚ seqZ 0 HASH_SIZE).
  { apply submseteq_length_Permutation; [done|].
    rewrite length_seqZ, Hlen. unfold tokens_size in Hsize. lia. }
  assert (Hin : j ∈ l).
  { rewrite Hperm. apply elem_of_seqZ. lia. }
  specialize (Hl j Hin). lia.
Qed.

Lemma token_id_full (st : state) (s : string) :
  wf st → s ∉ tokens st → tokens_size st = HASH_SIZE →
  token_id s st = Err ExitFailure.
Proof.
  intros Hwf Hfresh Hsize. unfold token_id.
  rewrite (hash_find_fresh st s Hwf Hfresh), bind_Ok. simpl (0 <=? -1). cbv iota.
  unfold hash_insert. rewrite hash_insert_loop_full; [done|].
  cbn [push_token hash_index]. rewrite ensure_tokens_capacity_hash_index.
  by apply wf_full.
Qed.

(** ** Capacities *)

Lemma caps_ok_boot : caps_ok boot.
Proof.
  split; [done | done | by exists 0%nat | intros id arr cap H; discriminate H].
Qed.

Lemma ensure_tokens_capacity_cap (st : state) :
  tokens_size st ≤ tokens_cap st →
  tokens_cap st ≤ Z.max 32768 (2 * (tokens_size st - 1)) →
  (∃ k : nat, tokens_cap st = 32768 * 2 ^ Z.of_nat k) →
  tokens_size st + 1 ≤ tokens_cap (ensure_tokens_capacity st) ∧
  tokens_cap (ensure_tokens_capacity st) ≤ Z.max 32768 (2 * tokens_size st) ∧
  ∃ k : nat, tokens_cap (ensure_tokens_capacity st) = 32768 * 2 ^ Z.of_nat k.
Proof.
  intros Hle Htight [k Hk]. unfold ensure_tokens_capacity.
  assert (Hpow : 0 < 2 ^ Z.of_nat k) by (apply Z.pow_pos_nonneg; lia).
  destruct (Z.geb_spec (tokens_size st) (tokens_cap st)) as [Hfull|Hroom].
  - cbn [tokens_cap]. destruct (Z.eqb_spec (tokens_cap st) 0) as [Hz|_]; [lia|].
    split; [lia|]. split; [lia|]. exists (S k).
    rewrite Nat2Z.inj_succ, Z.pow_succ_r by lia. lia.
  - split; [lia|]. split; [lia|]. by exists k.
Qed.

Lemma token_id_caps (st st' : state) (s : string) (id : Z) :
  wf st → caps_ok st → token_id s st = Ok (id, st') →
  caps_ok st' ∧ id < tokens_cap st'.
Proof.
  intros Hwf [Hle Htight Hpow Hsuccs] H.
  destruct (decide (s ∈ tokens st)) as [Hin|Hfresh].
  - apply list_elem_of_lookup_1 in Hin as [n Hn].
    rewrite (token_id_interned st s n Hwf Hn) in H. injection H as <- <-.
    split; [done|]. apply lookup_lt_Some in Hn. unfold tokens_size in Hle. lia.
  - unfold token_id in H.
    rewrite (hash_find_fresh st s Hwf Hfresh), bind_Ok in H.
    simpl (0 <=? -1) in H. cbv iota in H. inv_bind H as st3 Hins.
    injection H as <- <-. apply hash_insert_Ok in Hins as (p & _ & _ & _ & ->).
    destruct (ensure_tokens_capacity_cap st Hle Htight Hpow) as (Hroom & Htight' & Hpow').
    rewrite ensure_tokens_capacity_size.
    split; [|cbn [set_hash_index push_token tokens_cap]; lia].
    split; unfold tokens_size;
      cbn [set_hash_index push_token tokens tokens_cap succs succs_caps];
      rewrite ?ensure_tokens_capacity_tokens, ?ensure_tokens_capacity_succs,
        ?ensure_tokens_capacity_succs_caps, ?length_app; simpl length;
      unfold tokens_size in *.
    + lia.
    + lia.
    + done.
    + intros n arr cap Harr Hcap.
      apply lookup_app_Some in Harr as [Harr|[Hlen Harr]];
        apply lookup_app_Some in Hcap as [Hcap|[Hlen' Hcap]].
      * by apply (Hsuccs n).
      * apply lookup_lt_Some in Harr.
        rewrite (wf_succs_len st Hwf), <- (wf_caps_len st Hwf) in Harr. lia.
      * apply lookup_lt_Some in Hcap.
        rewrite (wf_caps_len st Hwf), <- (wf_succs_len st Hwf) in Hcap. lia.
      * apply list_lookup_singleton_Some in Harr as [_ <-].
        apply list_lookup_singleton_Some in Hcap as [_ <-]. by left.
Qed.

Lemma grown_cap_ok (arr : list string) (cap : Z) (curr : string) :
  succ_cap_ok arr cap →
  succ_cap_ok (arr ++ [curr]) (grown_cap (Z.of_nat (length arr)) cap).
Proof.
  intros [[-> ->]|(Hlen & Htight & k & Hk)]; right; rewrite length_app;
    simpl length; unfold grown_cap, INIT_SUCC_CAP in *.
  - simpl. split; [lia|]. split; [lia|]. by exists 0%nat.
  - assert (Hpow : 0 < 2 ^ Z.of_nat k) by (apply Z.pow_pos_nonneg; lia).
    destruct (Z.eqb_spec cap 0) as [Hz|_]; [lia|].
    destruct (Z.geb_spec (Z.of_nat (length arr)) cap) as [Hfull|Hroom].
    + split; [lia|]. split; [lia|]. exists (S k).
      rewrite Nat2Z.inj_succ, Z.pow_succ_r by lia. lia.
    + split; [lia|]. split; [lia|]. by exists k.
Qed.

Lemma append_to_succs_caps (st st' : state) (prev curr : string) :
  wf st → caps_ok st → append_to_succs prev curr st = Ok st' → caps_ok st'.
Proof.
  intros Hwf Hcaps H.
  destruct (append_to_succs_spec st st' prev curr Hwf H)
    as (pid & st1 & arr & cap & Hid & Harr & Hcap & -> & Hwf').
  destruct (token_id_caps st st1 prev pid Hwf Hcaps Hid) as [[Hle Htight Hpow Hsuccs] _].
  split; try done.
  cbn [set_succs succs succs_caps]. intros n arr' cap' Harr' Hcap'.
  destruct (decide (n = Z.to_nat pid)) as [->|Hne].
  - rewrite list_lookup_insert_eq in Harr' by (by eapply lookup_lt_Some).
    rewrite list_lookup_insert_eq in Hcap' by (by eapply lookup_lt_Some).
    injection Harr' as <-. injection Hcap' as <-.
    apply grown_cap_ok. by apply (Hsuccs (Z.to_nat pid)).
  - rewrite list_lookup_insert_ne in Harr' by done.
    rewrite list_lookup_insert_ne in Hcap' by done.
    by apply (Hsuccs n).
Qed.

Lemma tokenize_loop_caps (fuel : nat) (delimiters : string) :
  ∀ (prev : option string) (tok : option (string * string)) (st : state)
    (r : tokenized),
  wf st → caps_ok st →
  tokenize_loop fuel delimiters prev tok st = Ok r →
  caps_ok (t_state r).
Proof.
  induction fuel as [|fuel IH]; intros prev tok st r Hwf Hcaps;
    destruct tok as [[t save]|]; cbn [tokenize_loop];
    try discriminate; try (by intros [= <-]).
  intros H. inv_bind H as [id st1] Hid. inv_bind H as st2 Hst2.
  inv_bind H as r' Hloop. injection H as <-.
  destruct (token_id_wf st st1 t id Hwf Hid) as (Hwf1 & _ & _).
  destruct (token_id_caps st st1 t id Hwf Hcaps Hid) as [Hcaps1 _].
  assert (wf st2 ∧ caps_ok st2) as [Hwf2 Hcaps2].
  { destruct prev as [p|]; [|by injection Hst2 as <-].
    split; [|by apply (append_to_succs_caps st1 st2 p t)].
    by destruct (append_to_succs_spec st1 st2 p t Hwf1 Hst2)
      as (? & ? & ? & ? & _ & _ & _ & _ & ?). }
  destruct prev; cbn [log_token t_state]; by eapply IH.
Qed.

Lemma generate_sentence_run_caps (out : string) (out_size : Z) (st : state)
    (r : rng) (w : walk) :
  0 ≤ out_size → wf st → succs_closed st → caps_ok st →
  generate_sentence_run out out_size st r = Ok w →
  caps_ok (w_state w).
Proof.
  intros Hnn Hwf Hclosed Hcaps Hw.
  destruct (decide (tokens st = [])) as [Hempty|Hne].
  - apply generate_sentence_run_Ok in Hw; [|done].
    destruct Hw as [[_ ->]|(_ & start_id & r1 & token & _ & Htoken & _ & Hw)]; [done|].
    unfold start_token, tokens_size in Htoken. rewrite Hempty in Htoken.
    injection Htoken as <-.
    destruct Hw as [[_ ->]|[_ Hw]]; [done|].
    assert (Hsub : substring 0 (Z.to_nat (out_size - 1)) EmptyString = EmptyString)
      by (by destruct (Z.to_nat (out_size - 1))).
    rewrite Hsub in Hw.
    apply walk_loop_empty_state in Hw as [->|[id Hid]]; [done | | done | done].
    by destruct (token_id_caps st (w_state w) EmptyString id Hwf Hcaps Hid).
  - destruct (generate_sentence_run_wf out out_size st r Hnn Hwf Hclosed) as (w' & Hw' & Hst).
    assert (w' = w) as -> by congruence. by rewrite (Hst Hne).
Qed.

Lemma reachable_caps (st : state) : reachable st → caps_ok st.
Proof.
  induction 1 as [delimiters str st Htok|st out out_size r out' st' r' Hreach Hcaps Hnn Hgen].
  - unfold tokenize_and_fill_succs in Htok. inv_bind Htok as r Hr.
    injection Htok as <-.
    by apply (tokenize_loop_caps _ _ _ _ _ _ wf_boot caps_ok_boot) in Hr.
  - destruct (reachable_wf st Hreach) as [Hwf Hclosed].
    unfold generate_sentence in Hgen. inv_bind Hgen as w Hw. injection Hgen as _ <- _.
    by apply (generate_sentence_run_caps out out_size st r w).
Qed.

(** ** Sentences as paths *)

Lemma append_tokens_cons (out t : string) (ts : list string) :
  append_tokens out (t :: ts) = append_tokens ((out +:+ " ") +:+ t) ts.
Proof. reflexivity. Qed.

Lemma followers_elem (a b : string) (es : list (string * string)) :
  b ∈ followers a es ↔ (a, b) ∈ es.
Proof.
  unfold followers. rewrite list_elem_of_fmap. split.
  - intros ([p t] & -> & [Hp Hin]%list_elem_of_filter). simpl in Hp. by subst.
  - intros Hin. exists (a, b). split; [done|]. by apply list_elem_of_filter.
Qed.

(** The walk follows successor lists: what it appends is a path from the
    token it starts at; no token before the last ends a sentence; the walk
    ends at a dead end only at a token without successors. *)
Lemma walk_loop_chain (out_size : Z) (st : state) (fuel : nat) :
  wf st →
  ∀ (out token : string) (r : rng) (w : walk),
  token ∈ tokens st → succs_closed st →
  walk_loop fuel out_size out token st r = Ok w →
  ∃ ts,
    w_out w = append_tokens out ts ∧ chain st token ts ∧
    (∀ (i : nat) t, ts !! i = Some t → (S i < length ts)%nat →
       token_ends_a_sentence t = false) ∧
    (w_outcome w = Terminal → ∃ t, last ts = Some t ∧ token_ends_a_sentence t = true) ∧
    (w_outcome w ≠ Terminal → ∀ t, last ts = Some t → token_ends_a_sentence t = false) ∧
    (w_outcome w = DeadEnd →
       ∃ id : nat, tokens st !! id = Some (default token (last ts)) ∧
                   succs st !! id = Some []).
Proof.
  intros Hwf. induction fuel as [|fuel IH]; intros out token r w Htoken Hclosed;
    cbn [walk_loop]; destruct (strlen out + 2 <? out_size); try discriminate.
  1,3: intros [= <-]; exists []; cbn;
       (split; [done|]); (split; [done|]);
       (split; [intros i t Hi; discriminate Hi|]);
       (split; [intros Ho; discriminate Ho|]);
       (split; [by intros _ t [=] | intros Ho; discriminate Ho]).
  destruct (walk_step_wf out_size out token st r Hwf Htoken)
    as (id & arr & s & Hs & Hid & Harr & Hstep).
  rewrite Hs, bind_Ok.
  destruct s as [out' st' r' o|out' next st' r'].
  - intros [= <-]. cbn [w_out w_outcome].
    destruct Hstep as [[-> Hs']|(next & Hnext & [[_ Hs']|[_ Hs']])].
    + injection Hs' as -> -> -> ->. exists []. cbn.
      split; [done|]. split; [done|]. split; [intros i t Hi; discriminate Hi|].
      split; [intros Ho; discriminate Ho|]. split; [by intros _ t [=]|].
      intros _. by exists id.
    + injection Hs' as -> -> -> ->. exists []. cbn.
      split; [done|]. split; [done|]. split; [intros i t Hi; discriminate Hi|].
      split; [intros Ho; discriminate Ho|]. split; [by intros _ t [=]|].
      intros Ho; discriminate Ho.
    + destruct (token_ends_a_sentence next) eqn:Hends; [|discriminate].
      injection Hs' as -> -> -> ->. exists [next]. cbn.
      split; [done|]. split.
      { split; [|done]. exists id, arr. split; [done|]. split; [done|].
        by eapply list_elem_of_lookup_2. }
      split; [intros i t Hi Hlen; simpl in Hlen; lia|].
      split; [intros _; by exists next|].
      split; [by intros Ho | intros Ho; discriminate Ho].
  - apply step_of_succs_member in Hstep as (Hnext & -> & -> & -> & Hends & _).
    intros (w' & Hw' & ->)%fmap_Ok_inv.
    assert (Hnext_tok : next ∈ tokens st).
    { unfold succs_closed in Hclosed. rewrite Forall_forall in Hclosed.
      specialize (Hclosed arr (list_elem_of_lookup_2 _ _ _ Harr)).
      rewrite Forall_forall in Hclosed. by apply Hclosed. }
    destruct (IH _ _ _ _ Hnext_tok Hclosed Hw')
      as (ts & Hout & Hchain & Hmid & Hterm & Hnonterm & Hdead).
    exists (next :: ts). cbn [count_step w_out w_outcome].
    split; [by rewrite append_tokens_cons|]. split.
    { split; [|done]. by exists id, arr. }
    split; [|split; [|split]].
    + intros [|i] t Hi Hlen.
      * by injection Hi as <-.
      * apply (Hmid i t Hi). simpl in Hlen. lia.
    + intros Ho. destruct (Hterm Ho) as (t & Hlast & Ht). exists t.
      split; [|done]. destruct ts as [|t0 ts]; [discriminate Hlast | exact Hlast].
    + intros Ho t Hlast. destruct ts as [|t0 ts].
      * by injection Hlast as <-.
      * apply (Hnonterm Ho). exact Hlast.
    + intros Ho. destruct (Hdead Ho) as (id' & Hid' & Hsucc'). exists id'.
      split; [|done]. destruct ts as [|t0 ts]; [done|].
      change (last (next :: t0 :: ts)) with (last (t0 :: ts)).
      destruct (last (t0 :: ts)) as [x|] eqn:Hlast; [exact Hid'|].
      by apply last_None in Hlast.
Qed.

(** Start selection answers a capitalized token whenever the vocabulary has
    one. *)
Lemma random_token_id_capitalized (st : state) (r : rng) (id : Z) (r' : rng) :
  wf st → tokens st ≠ [] →
  random_token_id_that_starts_a_sentence st r = Ok (id, r') →
  capitalized st id = true ∨ ∀ i, capitalized st i = false.
Proof.
  intros Hwf Hne. unfold random_token_id_that_starts_a_sentence.
  pose proof (wf_size_int st Hwf Hne) as Hsize.
  destruct (random_pick_loop_spec st (Z.to_nat ATTEMPTS) Hsize r)
    as [(k & _ & Hhit & _ & ->)|[_ ->]]; rewrite bind_Ok; intros [= <- <-].
  - by left.
  - destruct (first_capitalized_scan st) as [(_ & ? & _)|[_ ?]]; [by left | by right].
Qed.

Lemma capitalized_none (st : state) :
  (∀ i, capitalized st i = false) →
  Forall (λ t, starts_a_sentence t = false) (tokens st).
Proof.
  intros Hnone. apply Forall_forall. intros t [n Hn]%list_elem_of_lookup_1.
  specialize (Hnone (Z.of_nat n)). by rewrite (capitalized_lookup st n t Hn) in Hnone.
Qed.

(** A sentence is a path of the successor graph: the buffer holds the start
    token, cut to the buffer if need be, and after it the tokens of a path
    from it, each after one space. *)
Lemma generate_sentence_run_chain (out : string) (out_size : Z) (st : state)
    (r : rng) (w : walk) :
  0 < out_size → wf st → succs_closed st → tokens st ≠ [] →
  generate_sentence_run out out_size st r = Ok w →
  ∃ start ts,
    start ∈ tokens st ∧
    (starts_a_sentence start = true ∨
     Forall (λ t, starts_a_sentence t = false) (tokens st)) ∧
    w_out w = append_tokens (substring 0 (Z.to_nat (out_size - 1)) start) ts ∧
    chain st start ts ∧
    (∀ (i : nat) t, (start :: ts) !! i = Some t → (i < length ts)%nat →
       token_ends_a_sentence t = false) ∧
    (w_outcome w = Terminal ↔
     token_ends_a_sentence (default start (last ts)) = true) ∧
    (w_outcome w = DeadEnd →
       ∃ id : nat, tokens st !! id = Some (default start (last ts)) ∧
                   succs st !! id = Some []).
Proof.
  intros Hpos Hwf Hclosed Hne Hw.
  apply generate_sentence_run_Ok in Hw; [|lia].
  destruct Hw as [[-> _]|(_ & start_id & r1 & token & Hsel & Htoken & _ & Hw)]; [lia|].
  pose proof (random_token_id_capitalized st r start_id r1 Hwf Hne Hsel) as Hcap.
  unfold start_token in Htoken.
  destruct (Z.eqb_spec (tokens_size st) 0) as [Hz|_].
  { unfold tokens_size in Hz. destruct (tokens st); [done | simpl in Hz; lia]. }
  assert (Hstart : starts_a_sentence token = true ∨
                   Forall (λ t, starts_a_sentence t = false) (tokens st)).
  { destruct Hcap as [Hcap|Hnone]; [left | right; by apply capitalized_none].
    unfold capitalized in Hcap. by rewrite Htoken in Hcap. }
  apply array_get_Ok in Htoken as [_ Htoken].
  pose proof (list_elem_of_lookup_2 _ _ _ Htoken) as Hin.
  exists token. destruct Hw as [[Hends ->]|[Hends Hw]].
  - exists []. cbn. do 4 (split; [done|]).
    split; [intros i t _ Hi; lia|]. split; [done|]. intros Ho; discriminate Ho.
  - apply (walk_loop_chain out_size st _ Hwf) in Hw; [|done|done].
    destruct Hw as (ts & Hout & Hchain & Hmid & Hterm & Hnonterm & Hdead).
    exists ts. do 4 (split; [done|]). split; [|split; [|done]].
    + intros [|i] t Hi Hlen; [by injection Hi as <-|]. apply (Hmid i t Hi). lia.
    + split.
      * intros Ho. destruct (Hterm Ho) as (t & -> & Ht). done.
      * intros Ht. destruct (w_outcome w) eqn:Ho; [done| |];
          (destruct (last ts) as [t|] eqn:Hlast; simpl in Ht;
           [rewrite (Hnonterm ltac:(done) t eq_refl) in Ht; discriminate
           |congruence]).
Qed.

Lemma chain_adjacent (st : state) (start : string) (ts : list string) :
  chain st start ts →
  Forall (λ e, follows st e.1 e.2) (adjacent (start :: ts)).
Proof.
  revert start. induction ts as [|t ts IH]; intros start; [constructor|].
  intros [Hf Hchain]. rewrite adjacent_cons. constructor; [done | by apply IH].
Qed.

(** In the tables the tokenizer built, [b] is a successor of [a] exactly
    when [b] came right after [a] somewhere in the text. *)
Lemma follows_observed (delimiters str : string) (r : tokenized) (a b : string) :
  tokenize_run delimiters str boot = Ok r →
  follows (t_state r) a b ↔ (a, b) ∈ adjacent (strtok_all delimiters str).
Proof.
  intros H. pose proof (tokenize_run_yielded _ _ _ _ H) as Hy.
  apply tokenize_run_spec in H as (Hwf & Hrec & Hends & _ & Hedges).
  rewrite <- Hy, <- Hedges. split.
  - intros (id & arr & Hid & Harr & Hin).
    rewrite (Hrec id a Hid) in Harr. injection Harr as <-.
    by apply followers_elem.
  - intros Hin. unfold interned_ends in Hends. rewrite Forall_forall in Hends.
    destruct (Hends _ Hin) as [[id Hid]%list_elem_of_lookup_1 _]. simpl in Hid.
    exists id, (followers a (t_edges r)). split; [done|]. split; [by apply Hrec|].
    by apply followers_elem.
Qed.

(** ** A vocabulary without words *)

Lemma mute_closed (st : state) : mute st → succs_closed st.
Proof.
  intros (_ & _ & Hs). unfold succs_closed. eapply Forall_impl; [done|].
  by intros arr ->.
Qed.

Lemma mute_boot : mute boot.
Proof. split; [apply wf_boot|]. split; constructor. Qed.

Lemma wf_empty_mute (st : state) : wf st → tokens st = [] → mute st.
Proof.
  intros Hwf Hempty. split; [done|]. rewrite Hempty. split; [constructor|].
  assert (succs st = []) as ->; [|constructor].
  apply length_zero_iff_nil. by rewrite (wf_succs_len st Hwf), Hempty.
Qed.

Lemma token_id_mute (st st' : state) (id : Z) :
  mute st → token_id EmptyString st = Ok (id, st') → mute st'.
Proof.
  intros (Hwf & Htoks & Hsuccs) H.
  destruct (token_id_cases st st' EmptyString id Hwf H)
    as [(_ & _ & ->)|(_ & _ & Hwf' & Ht & Hs & _)]; [done|].
  split; [done|]. rewrite Ht, Hs.
  split; apply Forall_app; split; try done; by repeat constructor.
Qed.

Lemma walk_loop_mute (out_size : Z) (st : state) (r : rng) (fuel : nat) (w : walk) :
  mute st →
  walk_loop fuel out_size EmptyString EmptyString st r = Ok w →
  w_out w = EmptyString ∧ mute (w_state w).
Proof.
  intros Hmute. destruct fuel as [|fuel]; cbn [walk_loop];
    destruct (strlen EmptyString + 2 <? out_size); try discriminate;
    try (by intros [= <-]).
  intros H. inv_bind H as s Hs.
  apply walk_step_Ok in Hs as (id & st1 & arr & Hid & Harr & Hstep).
  pose proof (token_id_mute st st1 id Hmute Hid) as Hmute1.
  assert (arr = []) as ->.
  { destruct Hmute1 as (_ & _ & Hs1). rewrite Forall_forall in Hs1. apply Hs1.
    apply array_get_Ok in Harr as [_ Harr]. by eapply list_elem_of_lookup_2. }
  destruct s as [out' st' r' o|out' next st' r'].
  - injection H as <-. cbn.
    destruct Hstep as [[_ Hs']|(next & Hnext & _)]; [|discriminate Hnext].
    by injection Hs' as -> -> _ _.
  - apply step_of_succs_member in Hstep as (Hnext & _). by apply elem_of_nil in Hnext.
Qed.

(** With no word in the table a call writes the empty string, and the
    table stays without words. *)
Lemma generate_sentence_run_mute (out : string) (out_size : Z) (st : state)
    (r : rng) (w : walk) :
  0 < out_size → mute st →
  generate_sentence_run out out_size st r = Ok w →
  w_out w = EmptyString ∧ mute (w_state w).
Proof.
  intros Hpos Hmute Hw. apply generate_sentence_run_Ok in Hw; [|lia].
  destruct Hw as [[-> _]|(_ & start_id & r1 & token & _ & Htoken & _ & Hw)]; [lia|].
  assert (token = EmptyString) as ->.
  { unfold start_token in Htoken. destruct (tokens_size st =? 0); [congruence|].
    apply array_get_Ok in Htoken as [_ Htoken].
    destruct Hmute as (_ & Htoks & _). rewrite Forall_forall in Htoks.
    apply Htoks. by eapply list_elem_of_lookup_2. }
  assert (Hsub : substring 0 (Z.to_nat (out_size - 1)) EmptyString = EmptyString)
    by (by destruct (Z.to_nat (out_size - 1))).
  rewrite Hsub in Hw. destruct Hw as [[Hends _]|[_ Hw]]; [discriminate Hends|].
  by apply walk_loop_mute in Hw.
Qed.

Lemma retry_loop_mute (c : ascii) (tries : nat) :
  c ≠ NUL →
  ∀ (buf : string) (st : state) (r : rng),
  mute st →
  ∃ buf' st' r', retry_loop tries c buf st r = Ok (None, buf', st', r') ∧ mute st'.
Proof.
  intros Hc. induction tries as [|tries IH]; intros buf st r Hmute; cbn [retry_loop].
  - by eexists _, _, _.
  - destruct (generate_sentence_run_wf buf BUF_SIZE st r ltac:(done)
                (proj1 Hmute) (mute_closed st Hmute)) as (w & Hw & _).
    unfold generate_sentence. rewrite Hw, !bind_Ok.
    destruct (generate_sentence_run_mute buf BUF_SIZE st r w ltac:(done) Hmute Hw)
      as [Hout Hmute'].
    rewrite Hout. unfold ends_with_char. cbn [last_char].
    rewrite bool_decide_eq_false_2 by done. apply IH, Hmute'.
Qed.

(** ** The retry loops *)

(** With words in the table a retry loop returns, leaves the globals as
    they are, and prints, if anything, the buffer of one of its calls,
    which ends with the character asked for. *)
Lemma retry_loop_walk (c : ascii) (st : state) (tries : nat) :
  wf st → succs_closed st → tokens st ≠ [] →
  ∀ (buf : string) (r : rng),
  ∃ printed buf' r',
    retry_loop tries c buf st r = Ok (printed, buf', st, r') ∧
    ∀ s, printed = Some s →
      ends_with_char s c = true ∧
      ∃ buf0 r0 w, generate_sentence_run buf0 BUF_SIZE st r0 = Ok w ∧ w_out w = s.
Proof.
  intros Hwf Hclosed Hne.
  induction tries as [|tries IH]; intros buf r; cbn [retry_loop].
  - eexists _, _, _. split; [done|]. by intros s [=].
  - destruct (generate_sentence_run_wf buf BUF_SIZE st r ltac:(done) Hwf Hclosed)
      as (w & Hw & Hst).
    unfold generate_sentence. rewrite Hw, !bind_Ok. rewrite (Hst Hne).
    destruct (ends_with_char (w_out w) c) eqn:Hends.
    + eexists _, _, _. split; [done|]. intros s [= <-]. split; [done|].
      by exists buf, r, w.
    + apply IH.
Qed.

(** ** The book *)

Lemma scrub_blank (book : string) :
  Forall (λ c, isprint c = false ∨ c = " "%char) (list_ascii_of_string book) →
  only_delimiters main_delimiters (replace_non_printable_chars_with_space book).
Proof.
  unfold only_delimiters. induction book as [|c book IH]; simpl; [constructor|].
  intros [Hc Hb]%Forall_cons. constructor; [|by apply IH].
  destruct Hc as [->| ->]; reflexivity.
Qed.

(** ** The vocabulary of a text *)

Lemma first_seen_elem (ss : list string) :
  ∀ (seen : list string) x, x ∈ first_seen seen ss ↔ x ∈ seen ∨ x ∈ ss.
Proof.
  induction ss as [|s ss IH]; intros seen x; cbn [first_seen].
  - rewrite elem_of_nil. tauto.
  - rewrite IH, elem_of_cons. case_decide as Hs.
    + split; [tauto|]. intros [?|[->|?]]; tauto.
    + rewrite elem_of_app, list_elem_of_singleton. tauto.
Qed.

Lemma tokenize_run_vocabulary (delimiters str : string) (r : tokenized) (t : string) :
  tokenize_run delimiters str boot = Ok r →
  t ∈ tokens (t_state r) ↔ t ∈ strtok_all delimiters str.
Proof.
  intros H. destruct (tokenize_run_spec delimiters str r H) as (_ & _ & _ & -> & _).
  rewrite (tokenize_run_yielded delimiters str boot r H), first_seen_elem, elem_of_nil.
  tauto.
Qed.

(** After the build a word of the text is found under its identifier, and
    any other string is reported absent. *)
Lemma hash_find_after_build (delimiters str : string) (r : tokenized) (t : string) :
  tokenize_run delimiters str boot = Ok r →
  (t ∈ strtok_all delimiters str →
   ∃ id : nat, hash_find t (t_state r) = Ok (Z.of_nat id) ∧
               tokens (t_state r) !! id = Some t) ∧
  (t ∉ strtok_all delimiters str → hash_find t (t_state r) = Ok (-1)).
Proof.
  intros H. pose proof (tokenize_run_vocabulary delimiters str r t H) as Hvoc.
  destruct (tokenize_run_spec delimiters str r H) as (Hwf & _).
  split; intros Ht.
  - apply Hvoc, list_elem_of_lookup_1 in Ht as [id Hid]. exists id.
    split; [by apply hash_find_interned | done].
  - apply hash_find_fresh; [done|]. by rewrite Hvoc.
Qed.

(** A text without a word leaves the globals as they are. *)
Lemma tokenize_run_blank (delimiters str : string) (st : state) :
  only_delimiters delimiters str →
  tokenize_run delimiters str st = Ok {| t_state := st; t_yielded := []; t_edges := [] |}.
Proof.
  intros H%strtok_r_None. unfold tokenize_run. rewrite H.
  by destruct (String.length str).
Qed.

(** ** When the tokenizer returns *)

Lemma append_step (st1 : state) (prev : option string) (t : string) :
  wf st1 → (∀ p, prev = Some p → p ∈ tokens st1) →
  ∃ st2, match prev with
         | Some p => append_to_succs p t st1
         | None => Ok st1
         end = Ok st2 ∧ wf st2 ∧ tokens st2 = tokens st1.
Proof.
  intros Hwf1 Hprev. destruct prev as [p|]; [|by exists st1].
  specialize (Hprev p eq_refl).
  destruct (append_to_succs_ok st1 p t Hwf1) as [st2 Hst2].
  - apply (token_id_returns st1 p Hwf1). by left.
  - exists st2. split; [done|].
    destruct (append_to_succs_spec st1 st2 p t Hwf1 Hst2)
      as (pid & st1' & arr & cap & Hpid & _ & _ & -> & Hwf2).
    split; [done|]. cbn [set_succs tokens].
    by destruct (token_id_cases st1 st1' p pid Hwf1 Hpid)
      as [(_ & _ & ->)|(Hfresh & _)].
Qed.

(** The loop returns when the table has a slot for every distinct word,
    and otherwise stops the program at the first word that finds the
    table full. *)
Lemma tokenize_loop_exit (fuel : nat) (delimiters : string) :
  ∀ (prev : option string) (tok : option (string * string)) (st : state),
  wf st →
  (∀ p, prev = Some p → p ∈ tokens st) →
  (∀ t save, tok = Some (t, save) → (String.length save < fuel)%nat) →
  let distinct := first_seen (tokens st) (strtok_seq fuel delimiters tok) in
  (Z.of_nat (length distinct) ≤ HASH_SIZE →
   is_ok (tokenize_loop fuel delimiters prev tok st)) ∧
  (HASH_SIZE < Z.of_nat (length distinct) →
   tokenize_loop fuel delimiters prev tok st = Err ExitFailure).
Proof.
  induction fuel as [|fuel IH]; intros prev tok st Hwf Hprev Hfuel;
    destruct tok as [[t save]|]; cbn [tokenize_loop strtok_seq first_seen].
  - specialize (Hfuel t save eq_refl). lia.
  - pose proof (wf_size_le st Hwf) as Hle. unfold tokens_size in Hle.
    split; [by eexists | lia].
  - assert (Hnext : ∀ t' save', strtok_r delimiters save = Some (t', save') →
                      (String.length save' < fuel)%nat).
    { intros t' save' Hn. apply strtok_r_Some in Hn as [_ Hlt].
      specialize (Hfuel t save eq_refl). lia. }
    case_decide as Hin.
    + apply list_elem_of_lookup_1 in Hin as [n Hn].
      rewrite (token_id_interned st t n Hwf Hn), bind_Ok.
      destruct (append_step st prev t Hwf Hprev) as (st2 & -> & Hwf2 & Htok2).
      rewrite bind_Ok.
      destruct (IH (Some t) (strtok_r delimiters save) st2 Hwf2) as [Hok Hfull];
        [|done|].
      { intros ? [= <-]. rewrite Htok2. by eapply list_elem_of_lookup_2. }
      rewrite Htok2 in Hok, Hfull. split; intros Hlen.
      * destruct (Hok Hlen) as [r ->]. rewrite bind_Ok. by eexists.
      * by rewrite (Hfull Hlen).
    + pose proof (wf_size_le st Hwf) as Hle.
      pose proof (prefix_length _ _
        (first_seen_prefix (tokens st ++ [t])
           (strtok_seq fuel delimiters (strtok_r delimiters save)))) as Hp.
      rewrite length_app in Hp. simpl in Hp.
      destruct (decide (tokens_size st = HASH_SIZE)) as [Hfull|Hroom].
      * rewrite (token_id_full st t Hwf Hin Hfull). unfold tokens_size in Hfull.
        split; [lia | done].
      * destruct (token_id_fresh_ok st t Hwf Hin ltac:(lia)) as [[id st1] Hid].
        destruct (token_id_fresh st st1 t id Hwf Hin Hid) as (_ & Hwf1 & Htok1 & _).
        rewrite Hid, bind_Ok.
        destruct (append_step st1 prev t Hwf1) as (st2 & -> & Hwf2 & Htok2).
        { intros p Hp'. rewrite Htok1. apply elem_of_app. left. by apply Hprev. }
        rewrite bind_Ok.
        destruct (IH (Some t) (strtok_r delimiters save) st2 Hwf2) as [Hok Hfull];
          [|done|].
        { intros ? [= <-]. rewrite Htok2, Htok1. apply elem_of_app. right.
          by apply list_elem_of_singleton. }
        rewrite Htok2, Htok1 in Hok, Hfull. split; intros Hlen.
        -- destruct (Hok Hlen) as [r ->]. rewrite bind_Ok. by eexists.
        -- by rewrite (Hfull Hlen).
  - split; [by eexists|]. pose proof (wf_size_le st Hwf) as Hle.
    unfold tokens_size in Hle. lia.
Qed.

Lemma tokenize_run_exit (delimiters str : string) :
  let distinct := first_seen [] (strtok_all delimiters str) in
  (Z.of_nat (length distinct) ≤ HASH_SIZE →
   is_ok (tokenize_run delimiters str boot)) ∧
  (HASH_SIZE < Z.of_nat (length distinct) →
   tokenize_run delimiters str boot = Err ExitFailure).
Proof.
  apply (tokenize_loop_exit (String.length str) delimiters None
           (strtok_r delimiters str) boot wf_boot); [done|].
  intros t save H. by apply strtok_r_Some in H as [_ Hlt].
Qed.

(** ** The bytes of a sentence *)

Lemma list_ascii_app (a b : string) :
  list_ascii_of_string (a +:+ b) = list_ascii_of_string a ++ list_ascii_of_string b.
Proof. induction a as [|c a IH]; [done|]. simpl. by rewrite IH. Qed.

Lemma substring_chars (P : ascii → Prop) (n : nat) (s : string) :
  Forall P (list_ascii_of_string s) →
  Forall P (list_ascii_of_string (substring 0 n s)).
Proof.
  revert s. induction n as [|n IH]; intros [|c s]; simpl; try constructor.
  - by apply Forall_cons in H as [? _].
  - apply IH. by apply Forall_cons in H as [_ ?].
Qed.

Lemma append_tokens_chars (P : ascii → Prop) (ts : list string) :
  P " "%char →
  Forall (λ t, Forall P (list_ascii_of_string t)) ts →
  ∀ out, Forall P (list_ascii_of_string out) →
  Forall P (list_ascii_of_string (append_tokens out ts)).
Proof.
  intros Hsp. induction 1 as [|t ts Ht _ IH]; intros out Hout; [done|].
  rewrite append_tokens_cons. apply IH. rewrite !list_ascii_app.
  repeat (apply Forall_app; split); try done. by repeat constructor.
Qed.

Lemma adjacent_elem (ws : list string) (a b : string) :
  (a, b) ∈ adjacent ws → a ∈ ws ∧ b ∈ ws.
Proof.
  induction ws as [|x ws IH]; [by intros ?%elem_of_nil|].
  destruct ws as [|y ws]; [by intros ?%elem_of_nil|].
  rewrite adjacent_cons. intros [[= -> ->]|Hin]%elem_of_cons.
  - split; [left | right; left].
  - apply IH in Hin as [? ?]. split; by right.
Qed.

Lemma adjacent_tail (start : string) (ts words : list string) :
  Forall (λ e, e ∈ adjacent words) (adjacent (start :: ts)) →
  Forall (λ t, t ∈ words) ts.
Proof.
  revert start. induction ts as [|t ts IH]; intros start; [constructor|].
  rewrite adjacent_cons. intros [Hin Hrest]%Forall_cons. constructor.
  - by apply adjacent_elem in Hin as [_ ?].
  - by eapply IH.
Qed.

(** Every byte of a sentence is a space or a byte of one of the words. *)
Lemma made_of_chars (P : ascii → Prop) (words : list string) (n : nat) (s : string) :
  P " "%char →
  Forall (λ t, Forall P (list_ascii_of_string t)) words →
  made_of words n s → Forall P (list_ascii_of_string s).
Proof.
  intros Hsp Hwords (start & ts & Hstart & -> & Hadj).
  rewrite Forall_forall in Hwords. apply append_tokens_chars; [done| |].
  - apply adjacent_tail in Hadj. eapply Forall_impl; [done|]. intros t. apply Hwords.
  - by apply substring_chars, Hwords.
Qed.

Lemma last_char_elem (s : string) :
  s ≠ EmptyString → last_char s ∈ list_ascii_of_string s.
Proof.
  induction s as [|c s IH]; [done|]. intros _.
  destruct s as [|c' s]; [left|]. right. by apply IH.
Qed.

(** The byte [last_char] returns is the one at index [strlen(s) - 1]. *)
Lemma last_char_get (s : string) :
  s ≠ EmptyString → String.get (String.length s - 1) s = Some (last_char s).
Proof.
  induction s as [|c s IH]; [done|]. intros _.
  destruct s as [|c' s]; [done|].
  change (last_char (String c (String c' s))) with (last_char (String c' s)).
  rewrite <- IH by done. simpl. by rewrite Nat.sub_0_r.
Qed.

Lemma last_char_snoc (s : string) (c : ascii) :
  last_char (s +:+ String c EmptyString) = c.
Proof. by rewrite last_char_app. Qed.

(** A sentence that ends with a byte other than the space and the
    terminator has it from one of the words. *)
Lemma made_of_mark (c : ascii) (words : list string) (n : nat) (s : string) :
  c ≠ NUL → c ≠ " "%char →
  made_of words n s → ends_with_char s c = true →
  ∃ t, t ∈ words ∧ occurs c t.
Proof.
  intros Hnul Hsp Hmade Hends. apply bool_decide_eq_true in Hends.
  destruct (decide (Exists (λ t, c ∈ list_ascii_of_string t) words)) as [Hex|Hno].
  - apply Exists_exists in Hex as (t & ? & ?). by exists t.
  - exfalso. apply not_Exists_Forall in Hno; [|intros t; apply _].
    assert (Hall : Forall (λ x, x ≠ c) (list_ascii_of_string s)).
    { apply (made_of_chars (λ x, x ≠ c) words n s); [done| |done].
      eapply Forall_impl; [exact Hno|]. intros t Ht. apply Forall_forall.
      intros x Hx ->. by apply Ht. }
    destruct (decide (s = EmptyString)) as [->|Hne]; [by apply Hnul|].
    rewrite Forall_forall in Hall. by apply (Hall _ (last_char_elem s Hne)).
Qed.

(** ** The sentences of a book *)

Lemma generate_sentence_run_made_of (delimiters str : string) (rt : tokenized)
    (buf : string) (out_size : Z) (r : rng) (w : walk) :
  tokenize_run delimiters str boot = Ok rt →
  tokens (t_state rt) ≠ [] → 0 < out_size →
  generate_sentence_run buf out_size (t_state rt) r = Ok w →
  made_of (strtok_all delimiters str) (Z.to_nat (out_size - 1)) (w_out w).
Proof.
  intros Hrt Hne Hpos Hw.
  assert (Hwf : wf (t_state rt) ∧ succs_closed (t_state rt)).
  { apply (wf_tokenized delimiters str). unfold tokenize_and_fill_succs.
    by rewrite Hrt, bind_Ok. }
  destruct Hwf as [Hwf Hclosed].
  destruct (generate_sentence_run_chain buf out_size (t_state rt) r w
              Hpos Hwf Hclosed Hne Hw)
    as (start & ts & Hstart & _ & Hout & Hchain & _).
  exists start, ts. split; [by apply (tokenize_run_vocabulary delimiters str rt)|].
  split; [done|]. apply chain_adjacent in Hchain.
  eapply Forall_impl; [exact Hchain|]. intros [a b] Hab.
  by apply (follows_observed delimiters str rt).
Qed.

(** Once the tokenizer has returned [main] returns, and each sentence it
    prints ends with the mark of its loop and is made of words of the book,
    neighbours in the sentence being neighbours somewhere in the book. *)
Lemma main_tokenized (book buf : string) (r : rng) (rt : tokenized) :
  tokenize_run main_delimiters (replace_non_printable_chars_with_space book) boot = Ok rt →
  ∃ question exclamation,
    main book buf r = Ok (question, exclamation) ∧
    (∀ s, question = Some s →
       ends_with_char s "?" = true ∧
       made_of (book_words book) (Z.to_nat (BUF_SIZE - 1)) s) ∧
    (∀ s, exclamation = Some s →
       ends_with_char s "!" = true ∧
       made_of (book_words book) (Z.to_nat (BUF_SIZE - 1)) s).
Proof.
  intros Hrt. unfold main. fold boot. unfold tokenize_and_fill_succs.
  rewrite Hrt, !bind_Ok.
  assert (Hwf : wf (t_state rt) ∧ succs_closed (t_state rt)).
  { apply (wf_tokenized main_delimiters (replace_non_printable_chars_with_space book)).
    unfold tokenize_and_fill_succs. by rewrite Hrt, bind_Ok. }
  destruct Hwf as [Hwf Hclosed].
  destruct (decide (tokens (t_state rt) = [])) as [Hempty|Hne].
  - pose proof (wf_empty_mute _ Hwf Hempty) as Hmute.
    destruct (retry_loop_mute "?" (Z.to_nat TRIES) ltac:(done) buf (t_state rt) r Hmute)
      as (buf1 & st1 & r1 & -> & Hmute1).
    rewrite bind_Ok.
    destruct (retry_loop_mute "!" (Z.to_nat TRIES) ltac:(done) buf1 st1 r1 Hmute1)
      as (buf2 & st2 & r2 & -> & _).
    rewrite bind_Ok. exists None, None. by repeat split.
  - destruct (retry_loop_walk "?" (t_state rt) (Z.to_nat TRIES) Hwf Hclosed Hne buf r)
      as (q & buf1 & r1 & -> & Hq).
    rewrite bind_Ok.
    destruct (retry_loop_walk "!" (t_state rt) (Z.to_nat TRIES) Hwf Hclosed Hne buf1 r1)
      as (e & buf2 & r2 & -> & He).
    rewrite bind_Ok. exists q, e. split; [done|].
    split; intros s Hs; [destruct (Hq s Hs) as (Hends & buf0 & r0 & w & Hw & <-)
                        |destruct (He s Hs) as (Hends & buf0 & r0 & w & Hw & <-)];
      (split; [done|]);
      by apply (generate_sentence_run_made_of main_delimiters _ rt buf0 BUF_SIZE r0 w).
Qed.

Lemma main_Err (book buf : string) (r : rng) (e : error) :
  main book buf r = Err e →
  tokenize_run main_delimiters (replace_non_printable_chars_with_space book) boot = Err e.
Proof.
  intros H.
  destruct (tokenize_run main_delimiters
              (replace_non_printable_chars_with_space book) boot) as [rt|e'] eqn:Hrt.
  - destruct (main_tokenized book buf r rt Hrt) as (q & x & Hmain & _). congruence.
  - unfold main in H. fold boot in H. unfold tokenize_and_fill_succs in H.
    rewrite Hrt in H. by injection H as ->.
Qed.

(** [main] returns when the book has no more distinct words than the table
    has slots; otherwise it stops with status 1. *)
Lemma main_exit_cases (book buf : string) (r : rng) :
  let distinct := first_seen [] (book_words book) in
  (Z.of_nat (length distinct) ≤ HASH_SIZE → is_ok (main book buf r)) ∧
  (HASH_SIZE < Z.of_nat (length distinct) → main book buf r = Err ExitFailure).
Proof.
  destruct (tokenize_run_exit main_delimiters
              (replace_non_printable_chars_with_space book)) as [Hok Hfull].
  split; intros Hlen.
  - destruct (Hok Hlen) as [rt Hrt].
    destruct (main_tokenized book buf r rt Hrt) as (q & x & -> & _). by eexists.
  - specialize (Hfull Hlen). unfold main. fold boot. unfold tokenize_and_fill_succs.
    rewrite Hfull. reflexivity.
Qed.

Lemma main_prints (book buf : string) (r : rng) (question exclamation : option string) :
  main book buf r = Ok (question, exclamation) →
  (∀ s, question = Some s →
     ends_with_char s "?" = true ∧
     made_of (book_words book) (Z.to_nat (BUF_SIZE - 1)) s) ∧
  (∀ s, exclamation = Some s →
     ends_with_char s "!" = true ∧
     made_of (book_words book) (Z.to_nat (BUF_SIZE - 1)) s).
Proof.
  intros Hmain.
  destruct (tokenize_run main_delimiters
              (replace_non_printable_chars_with_space book) boot) as [rt|e'] eqn:Hrt.
  - destruct (main_tokenized book buf r rt Hrt) as (q & x & Hmain' & Hq & Hx).
    rewrite Hmain in Hmain'. by injection Hmain' as -> ->.
  - unfold main in Hmain. fold boot in Hmain. unfold tokenize_and_fill_succs in Hmain.
    rewrite Hrt in Hmain. discriminate Hmain.
Qed.

Lemma book_words_chars (P : ascii → Prop) (book : string) :
  P " "%char → Forall P (list_ascii_of_string book) →
  Forall (λ t, Forall P (list_ascii_of_string t)) (book_words book).
Proof.
  intros Hsp Hbook. apply strtok_all_chars.
  induction book as [|c book IH]; simpl; [constructor|].
  apply Forall_cons in Hbook as [Hc Hbook].
  constructor; [by destruct (isprint c) | by apply IH].
Qed.

(** The words of the book are made of visible characters. *)
Lemma book_words_visible (book : string) :
  Forall (λ t, t ≠ EmptyString ∧
               Forall (λ c, 33 ≤ char_code c ≤ 126) (list_ascii_of_string t))
    (book_words book).
Proof.
  pose proof (strtok_all_tokens main_delimiters
                (replace_non_printable_chars_with_space book)) as Htok.
  pose proof (strtok_all_chars (λ c, isprint c = true) main_delimiters _
                (scrub_printable book)) as Hpr.
  fold (book_words book) in Htok, Hpr.
  rewrite Forall_forall in Htok, Hpr. apply Forall_forall. intros t Ht.
  destruct (Htok t Ht) as [Hne Hfree]. split; [done|].
  specialize (Hpr t Ht). unfold delimiter_free in Hfree.
  rewrite Forall_forall in Hfree, Hpr. apply Forall_forall. intros c Hc.
  specialize (Hfree c Hc). specialize (Hpr c Hc). unfold isprint in Hpr.
  apply andb_true_iff in Hpr as [Hlo Hhi]. apply Z.leb_le in Hlo, Hhi.
  destruct (decide (char_code c = 32)) as [Heq|?]; [|lia].
  assert (c = " "%char) as ->; [|discriminate Hfree].
  unfold char_code in Heq. apply (f_equal Z.to_N) in Heq. rewrite N2Z.id in Heq.
  apply (f_equal ascii_of_N) in Heq. by rewrite ascii_N_embedding in Heq.
Qed.

(** The mark a sentence ends with occurs in the book. *)
Lemma book_mark (c : ascii) (book : string) (n : nat) (s : string) :
  c ≠ NUL → c ≠ " "%char →
  made_of (book_words book) n s → ends_with_char s c = true →
  occurs c book.
Proof.
  intros Hnul Hsp Hmade Hends.
  destruct (made_of_mark c _ n s Hnul Hsp Hmade Hends) as (t & Ht & Hocc).
  destruct (decide (c ∈ list_ascii_of_string book)) as [Hin|Hno]; [done|].
  exfalso.
  assert (Hbook : Forall (λ x, x ≠ c) (list_ascii_of_string book)).
  { apply Forall_forall. by intros x Hx ->. }
  pose proof (book_words_chars (λ x, x ≠ c) book ltac:(done) Hbook) as Hall.
  rewrite Forall_forall in Hall. specialize (Hall t Ht).
  rewrite Forall_forall in Hall. by apply (Hall c Hocc).
Qed.

(** A book without the mark gets no sentence of that loop printed. *)
Lemma main_without_mark (book buf : string) (r : rng)
    (question exclamation : option string) :
  main book buf r = Ok (question, exclamation) →
  (¬ occurs "?" book → question = None) ∧
  (¬ occurs "!" book → exclamation = None).
Proof.
  intros Hmain. destruct (main_prints book buf r _ _ Hmain) as [Hq Hx].
  split; intros Hno.
  - destruct question as [s|]; [|done]. destruct (Hq s eq_refl) as [Hends Hmade].
    exfalso. apply Hno. by apply (book_mark "?" book (Z.to_nat (BUF_SIZE - 1)) s).
  - destruct exclamation as [s|]; [|done]. destruct (Hx s eq_refl) as [Hends Hmade].
    exfalso. apply Hno. by apply (book_mark "!" book (Z.to_nat (BUF_SIZE - 1)) s).
Qed.

(** A book without a visible character gets nothing printed. *)
Lemma main_blank (book buf : string) (r : rng) :
  Forall (λ c, isprint c = false ∨ c = " "%char) (list_ascii_of_string book) →
  main book buf r = Ok (None, None).
Proof.
  intros Hblank%scrub_blank.
  pose proof (tokenize_run_blank main_delimiters _ boot Hblank) as Hrt.
  destruct (main_tokenized book buf r _ Hrt) as (q & x & -> & Hq & Hx).
  assert (Hwords : book_words book = []).
  { apply strtok_all_none. by apply strtok_r_None. }
  rewrite Hwords in Hq, Hx.
  destruct q as [s|].
  { destruct (Hq s eq_refl) as (_ & start & ts & Hin & _). by apply elem_of_nil in Hin. }
  destruct x as [s|]; [|done].
  destruct (Hx s eq_refl) as (_ & start & ts & Hin & _). by apply elem_of_nil in Hin.
Qed.

(** ** Exits *)

Lemma token_id_exit (st : state) (s : string) (e : error) :
  wf st → token_id s st = Err e →
  e = ExitFailure ∧ (s ∉ tokens st) ∧ tokens_size st = HASH_SIZE.
Proof.
  intros Hwf He. destruct (decide (s ∈ tokens st)) as [Hin|Hfresh].
  - apply list_elem_of_lookup_1 in Hin as [n Hn].
    rewrite (token_id_interned st s n Hwf Hn) in He. discriminate He.
  - destruct (decide (tokens_size st = HASH_SIZE)) as [Hfull|Hroom].
    + rewrite (token_id_full st s Hwf Hfresh Hfull) in He. by injection He as <-.
    + pose proof (wf_size_le st Hwf) as Hle.
      destruct (token_id_fresh_ok st s Hwf Hfresh ltac:(lia)) as [a Ha]. congruence.
Qed.

Lemma hash_insert_room_iff (st : state) (s : string) (id : Z) :
  is_ok (hash_insert s id st) ↔ ∃ j, 0 ≤ j < HASH_SIZE ∧ hash_index st j = -1.
Proof.
  split; [|apply hash_insert_room].
  intros [st' H]. apply hash_insert_Ok in H as (p & _ & Hp & _).
  exists (slot s p). split; [apply slot_range | done].
Qed.

Lemma main_exit_status (book buf : string) (r : rng) (e : error) :
  main book buf r = Err e → e = ExitFailure.
Proof.
  intros H%main_Err.
  destruct (tokenize_run_exit main_delimiters
              (replace_non_printable_chars_with_space book)) as [Hok Hfull].
  destruct (Z_le_gt_dec
              (Z.of_nat (length (first_seen []
                 (strtok_all main_delimiters
                    (replace_non_printable_chars_with_space book))))) HASH_SIZE)
    as [Hle|Hgt].
  - destruct (Hok Hle) as [rt Hrt]. congruence.
  - rewrite Hfull in H by lia. by injection H as <-.
Qed.

Lemma reachable_alice_state : reachable alice_state.
Proof.
  unfold alice_state.
  destruct (tokenize_and_fill_succs main_delimiters "Alice saw Bob. Bob ran!" boot)
    as [st|e] eqn:H.
  - by apply (reach_tokenized main_delimiters "Alice saw Bob. Bob ran!").
  - vm_compute in H. discriminate H.
Qed.

(** ** Recording an edge *)

(** The two lines of the tokenizer's loop that record an edge: [token_id]
    on the current token, then [append_to_succs] on the previous and the
    current one. *)
Lemma append_to_succs_edge (st0 st st' : state) (prev curr : string) (cid : Z) :
  wf st0 →
  token_id curr st0 = Ok (cid, st) →
  append_to_succs prev curr st = Ok st' →
  ∃ pid st1 arr cap,
    token_id prev st = Ok (pid, st1) ∧
    wf st' ∧
    (0 ≤ pid ∧ tokens st' !! Z.to_nat pid = Some prev ∧ hash_find prev st' = Ok pid) ∧
    (0 ≤ cid ∧ tokens st' !! Z.to_nat cid = Some curr ∧ hash_find curr st' = Ok cid) ∧
    tokens st' = tokens st1 ∧ hash_index st' = hash_index st1 ∧
    succs st1 !! Z.to_nat pid = Some arr ∧
    succs_caps st1 !! Z.to_nat pid = Some cap ∧
    succs st' = <[Z.to_nat pid := arr ++ [curr]]> (succs st1) ∧
    succs st' !! Z.to_nat pid = Some (arr ++ [curr]) ∧
    succs_caps st' =
      <[Z.to_nat pid := if cap =? 0 then INIT_SUCC_CAP
                        else if Z.of_nat (length arr) >=? cap then cap * 2
                        else cap]> (succs_caps st1).
Proof.
  intros Hwf0 Hcurr H.
  destruct (token_id_wf st0 st curr cid Hwf0 Hcurr) as (Hwf & Hcnn & Hcid).
  destruct (append_to_succs_spec st st' prev curr Hwf H)
    as (pid & st1 & arr & cap & Hid & Harr & Hcap & -> & Hwf').
  destruct (token_id_wf st st1 prev pid Hwf Hid) as (Hwf1 & Hpnn & Hpid).
  assert (Hcid1 : tokens st1 !! Z.to_nat cid = Some curr).
  { rewrite (token_id_tokens st st1 prev pid Hwf Hid).
    case_decide; [done|]. by apply lookup_app_l_Some. }
  exists pid, st1, arr, cap. cbn [set_succs tokens hash_index succs succs_caps].
  split; [done|]. split; [done|].
  split.
  { split; [done|]. split; [done|].
    pose proof (hash_find_interned _ prev _ Hwf' Hpid) as Hf.
    by rewrite Z2Nat.id in Hf. }
  split.
  { split; [done|]. split; [done|].
    pose proof (hash_find_interned _ curr _ Hwf' Hcid1) as Hf.
    by rewrite Z2Nat.id in Hf. }
  repeat (split; [done|]).
  split; [|done]. apply list_lookup_insert_eq. by eapply lookup_lt_Some.
Qed.

(** ** The draws of the start selection *)







(** ** The retry loops on any table *)

(** What a retry loop prints, with or without words in the table. *)
Lemma retry_loop_complete (c : ascii) (st : state) (tries : nat)
    (buf : string) (r : rng) (printed : option string) (buf' : string)
    (st' : state) (r' : rng) :
  wf st → succs_closed st →
  Forall (λ t, strlen t < BUF_SIZE) (tokens st) →
  c = "."%char ∨ c = "?"%char ∨ c = "!"%char →
  retry_loop tries c buf st r = Ok (printed, buf', st', r') →
  (tokens st ≠ [] → st' = st) ∧
  (tokens st = [] → printed = None ∧ mute st') ∧
  ∀ s, printed = Some s →
    ends_with_char s c = true ∧
    ∃ buf0 r0 w, generate_sentence_run buf0 BUF_SIZE st r0 = Ok w ∧
                 w_out w = s ∧ w_outcome w = Terminal.
Proof.
  intros Hwf Hclosed Hlen Hc H.
  destruct (decide (tokens st = [])) as [Hempty|Hne].
  - assert (Hnul : c ≠ NUL) by (destruct Hc as [-> | [-> | ->]]; done).
    destruct (retry_loop_mute c tries Hnul buf st r (wf_empty_mute st Hwf Hempty))
      as (b & s1 & r1 & Hrun & Hmute).
    rewrite Hrun in H. injection H as <- <- <- <-.
    split; [done|]. split; [done|]. by intros s [=].
  - destruct (retry_loop_prints_terminal c st tries Hwf Hclosed Hne Hlen Hc
                buf r printed buf' st' r' H) as [Hst Hprinted].
    split; [done|]. split; [done|]. exact Hprinted.
Qed.

(** * The claims *)

(** C1. Interning is idempotent: in a well-formed table, when [token_id s]
    returns, what it returns is an identifier of the table, under which
    [tokens] holds the spelling [s]; a second call with the same spelling
    returns the same identifier and changes nothing, and [hash_find s]
    answers that identifier; and the first call does return whenever [s]
    is already interned or a slot of the table is free. *)
Theorem token_id_idempotent (st : state) (s : string) :
  wf st →
  (∀ id st1, token_id s st = Ok (id, st1) →
     0 ≤ id < tokens_size st1 ∧
     tokens st1 !! Z.to_nat id = Some s ∧
     token_id s st1 = Ok (id, st1) ∧ hash_find s st1 = Ok id) ∧
  (s ∈ tokens st ∨ tokens_size st < HASH_SIZE → is_ok (token_id s st)).
Proof.
  intros Hwf. split.
  - intros id st1 H.
    destruct (token_id_wf st st1 s id Hwf H) as (_ & Hnn & Hid).
    pose proof (lookup_lt_Some _ _ _ Hid) as Hlt.
    split; [unfold tokens_size; lia|]. split; [exact Hid|].
    by apply (token_id_again st).
  - by apply token_id_returns.
Qed.

Lemma token_id_idempotent_witness :
  wf boot ∧
  ∃ st1, token_id "Alice" boot = Ok (0, st1) ∧
         tokens st1 !! Z.to_nat 0 = Some "Alice" ∧
         token_id "Alice" st1 = Ok (0, st1) ∧
         hash_find "Alice" st1 = Ok 0.
Proof.
  split; [exact wf_boot|].
  destruct (token_id_idempotent boot "Alice" wf_boot) as [Hagain Hreturns].
  destruct Hreturns as [[id st1] H]; [right; exact HASH_SIZE_pos|].
  assert (E : fst <$> token_id "Alice" boot = Ok 0) by (vm_compute; reflexivity).
  rewrite H in E. injection E as E. rewrite E in H.
  exists st1. split; [exact H|].
  destruct (Hagain 0 st1 H) as (_ & Hid & H2 & H3).
  split; [exact Hid|]. split; [exact H2 | exact H3].
Defined.

(** C2. Interning is injective and dense: after any run of [token_id] from a
    well-formed table, [tokens] lists the distinct spellings in the order of
    their first occurrence, so the identifiers are the positions 0, 1, 2, ...
    of that list; every returned identifier carries the spelling it was
    returned for; distinct spellings got distinct identifiers and equal
    spellings the same one; and identifiers assigned before the run keep
    their spelling. *)
Theorem intern_all_injective (ss : list string) (st st' : state) (ids : list Z) :
  wf st → intern_all ss st = Ok (ids, st') →
  tokens st' = first_seen (tokens st) ss ∧
  NoDup (tokens st') ∧
  (∀ (k : nat) s, ss !! k = Some s →
     ∃ id, ids !! k = Some id ∧ 0 ≤ id < tokens_size st' ∧
           tokens st' !! Z.to_nat id = Some s) ∧
  (∀ (k1 k2 : nat) s1 s2 id1 id2,
     ss !! k1 = Some s1 → ss !! k2 = Some s2 →
     ids !! k1 = Some id1 → ids !! k2 = Some id2 →
     (s1 = s2 ↔ id1 = id2)) ∧
  (∀ (id : nat) s, tokens st !! id = Some s → tokens st' !! id = Some s).
Proof.
  intros Hwf H.
  destruct (intern_all_spec ss st st' ids Hwf H) as (Hwf' & Htok & Hall).
  assert (Hget : ∀ (k : nat) s id, ss !! k = Some s → ids !! k = Some id →
            0 ≤ id ∧ tokens st' !! Z.to_nat id = Some s).
  { intros k s id Hs Hid.
    destruct (Forall2_lookup_l _ _ _ _ _ Hall Hs) as (id' & Hid' & Hok).
    by simplify_eq. }
  split; [done|]. split; [apply (wf_nodup st' Hwf')|]. split; [|split].
  - intros k s Hs.
    destruct (Forall2_lookup_l _ _ _ _ _ Hall Hs) as (id & Hid & Hnn & Hlk).
    exists id. split; [done|]. split; [|done].
    apply lookup_lt_Some in Hlk. unfold tokens_size. lia.
  - intros k1 k2 s1 s2 id1 id2 Hs1 Hs2 Hid1 Hid2.
    destruct (Hget k1 s1 id1 Hs1 Hid1) as [Hn1 Hl1].
    destruct (Hget k2 s2 id2 Hs2 Hid2) as [Hn2 Hl2].
    split.
    + intros <-.
      pose proof (NoDup_lookup _ _ _ _ (wf_nodup st' Hwf') Hl1 Hl2). lia.
    + intros <-. congruence.
  - intros id s Hid. rewrite Htok.
    eapply prefix_lookup_Some; [done | apply first_seen_prefix].
Qed.

Lemma intern_all_injective_witness :
  wf boot ∧
  ∃ st',
    intern_all ["Alice"; "saw"; "Alice"; "Bob."] boot = Ok ([0; 1; 0; 2], st') ∧
    tokens st' = ["Alice"; "saw"; "Bob."] ∧
    NoDup (tokens st').
Proof.
  split; [exact wf_boot|].
  destruct (intern_all ["Alice"; "saw"; "Alice"; "Bob."] boot) as [[ids st']|e] eqn:Hrun.
  - exists st'.
    destruct (intern_all_injective _ _ _ _ wf_boot Hrun) as (Htok & Hnd & _).
    assert (Hids : fst <$> intern_all ["Alice"; "saw"; "Alice"; "Bob."] boot
                   = Ok [0; 1; 0; 2]) by (vm_compute; reflexivity).
    rewrite Hrun in Hids. injection Hids as ->.
    split; [reflexivity|]. split; [exact Htok | exact Hnd].
  - exfalso. revert Hrun. vm_compute. discriminate.
Defined.

(** C3. The successor lists are the exact record of the observed pairs.
    After the tokenizer has run over a text from the empty table, the
    tokens it went through are the words of the text, in order; each of
    them is interned, [tokens] holding the distinct words in the order of
    their first occurrence; the calls of [append_to_succs] were the
    consecutive pairs of words; every such pair [(a, b)] is recorded, [b]
    standing in the successor list of [a]; and the successor list of each
    token [a] is the list of the words that followed [a], in the order
    observed and with repetitions: every [b] occurs in it as many times as
    the pair [(a, b)] was observed, its length is the number of observed
    pairs that start with [a], and it is empty when [a] never starts a
    pair.  The run ends normally on every text of at most [HASH_SIZE]
    bytes. *)
Theorem succs_record_observed_pairs (delimiters str : string) :
  (∀ r, tokenize_run delimiters str boot = Ok r →
     t_yielded r = strtok_all delimiters str ∧
     t_edges r = adjacent (strtok_all delimiters str) ∧
     tokens (t_state r) = first_seen [] (strtok_all delimiters str) ∧
     Forall (λ t, t ∈ tokens (t_state r)) (strtok_all delimiters str) ∧
     (∀ a b, (a, b) ∈ adjacent (strtok_all delimiters str) →
        ∃ (id : nat) arr,
          tokens (t_state r) !! id = Some a ∧
          succs (t_state r) !! id = Some arr ∧
          b ∈ arr ∧ b ∈ tokens (t_state r)) ∧
     ∀ (id : nat) a, tokens (t_state r) !! id = Some a →
       ∃ arr, succs (t_state r) !! id = Some arr ∧
         arr = followers a (adjacent (strtok_all delimiters str)) ∧
         succs_sizes (t_state r) (Z.of_nat id) =
           Ok (Z.of_nat (length (filter (λ e, e.1 = a)
                                   (adjacent (strtok_all delimiters str))))) ∧
         (∀ b, length (filter (λ x, x = b) arr) =
               length (filter (λ e, e = (a, b))
                         (adjacent (strtok_all delimiters str)))) ∧
         ((∀ b, (a, b) ∉ adjacent (strtok_all delimiters str)) → arr = [])) ∧
  (Z.of_nat (String.length str) ≤ HASH_SIZE →
   is_ok (tokenize_run delimiters str boot)).
Proof.
  split; [|apply tokenize_run_ok].
  intros r H. destruct (tokenize_run_spec delimiters str r H)
    as (Hwf & Hrec & Hends & Htok & Hedges).
  pose proof (tokenize_run_yielded delimiters str boot r H) as Hyield.
  rewrite Hyield in Htok, Hedges. rewrite Hedges in Hrec, Hends.
  split; [done|]. split; [done|]. split; [done|].
  split.
  { apply Forall_forall. intros t Ht. rewrite Htok, first_seen_elem. by right. }
  split.
  { intros a b Hab. unfold interned_ends in Hends. rewrite Forall_forall in Hends.
    destruct (Hends (a, b) Hab) as [Ha Hb]. cbn [fst snd] in Ha, Hb.
    apply list_elem_of_lookup_1 in Ha as [id Hid].
    exists id, (followers a (adjacent (strtok_all delimiters str))).
    split; [done|]. split; [by apply Hrec|]. split; [|done].
    by apply followers_elem. }
  intros id a Ha. exists (followers a (adjacent (strtok_all delimiters str))).
  pose proof (Hrec id a Ha) as Hsucc.
  split; [done|]. split; [done|]. split; [|split].
  - unfold succs_sizes. rewrite (array_get_of_nat _ _ _ Hsucc), bind_Ok.
    unfold followers. by rewrite length_fmap.
  - intros b. unfold followers.
    generalize (adjacent (strtok_all delimiters str)). clear.
    intros es. induction es as [|[p t] es IH]; [done|].
    rewrite !filter_cons. simpl.
    destruct (decide (p = a)) as [->|Hne]; simpl.
    + rewrite filter_cons.
      destruct (decide (t = b)) as [->|Hnb].
      * rewrite decide_True by done. simpl. f_equal. exact IH.
      * rewrite decide_False by congruence. exact IH.
    + rewrite decide_False by congruence. exact IH.
  - apply followers_none.
Qed.

(** C4. Recording an edge.  The tokenizer records an edge in two lines:
    [token_id] on the current token, then [append_to_succs] on the
    previous token and the current one.  After them both spellings are
    interned: each has its identifier in [tokens] and is found by
    [hash_find].  [append_to_succs] itself goes through the interner for
    its first argument, which changes nothing when that one was interned
    before, as it is in the tokenizer; the second one has been interned
    by the line before.  The call appends the current token to the
    successor list of the previous one, whose capacity goes from 0 to
    [INIT_SUCC_CAP] = 4 at the first append and doubles whenever the list
    is full, and leaves a well-formed table.  It returns whenever the
    previous token is interned or a slot is free; and every pair recorded
    in a run of the tokenizer has both ends in [tokens]. *)
Theorem append_to_succs_records_edge (st0 st : state) (prev curr : string) (cid : Z) :
  wf st0 →
  token_id curr st0 = Ok (cid, st) →
  (∀ st', append_to_succs prev curr st = Ok st' →
     ∃ pid st1 arr cap,
       token_id prev st = Ok (pid, st1) ∧
       (prev ∈ tokens st0 → st1 = st) ∧
       wf st' ∧
       (0 ≤ pid ∧ tokens st' !! Z.to_nat pid = Some prev ∧
        hash_find prev st' = Ok pid) ∧
       (0 ≤ cid ∧ tokens st' !! Z.to_nat cid = Some curr ∧
        hash_find curr st' = Ok cid) ∧
       tokens st' = tokens st1 ∧ hash_index st' = hash_index st1 ∧
       succs st1 !! Z.to_nat pid = Some arr ∧
       succs_caps st1 !! Z.to_nat pid = Some cap ∧
       succs st' = <[Z.to_nat pid := arr ++ [curr]]> (succs st1) ∧
       succs st' !! Z.to_nat pid = Some (arr ++ [curr]) ∧
       succs_caps st' =
         <[Z.to_nat pid := if cap =? 0 then 4
                           else if Z.of_nat (length arr) >=? cap then cap * 2
                           else cap]> (succs_caps st1)) ∧
  (prev ∈ tokens st0 ∨ tokens_size st < HASH_SIZE →
   is_ok (append_to_succs prev curr st)) ∧
  (∀ delimiters str r, tokenize_run delimiters str boot = Ok r →
     Forall (λ e, e.1 ∈ tokens (t_state r) ∧ e.2 ∈ tokens (t_state r)) (t_edges r)).
Proof.
  intros Hwf0 Hcurr.
  destruct (token_id_wf st0 st curr cid Hwf0 Hcurr) as (Hwf & _ & _).
  assert (Hmono : prev ∈ tokens st0 → prev ∈ tokens st).
  { intros Hin. rewrite (token_id_tokens st0 st curr cid Hwf0 Hcurr).
    case_decide; [done|]. apply elem_of_app. by left. }
  split; [|split].
  - intros st' H.
    destruct (append_to_succs_edge st0 st st' prev curr cid Hwf0 Hcurr H)
      as (pid & st1 & arr & cap & Hid & Hrest).
    exists pid, st1, arr, cap. split; [done|]. split; [|exact Hrest].
    intros Hin%Hmono.
    by destruct (token_id_cases st st1 prev pid Hwf Hid)
      as [(_ & _ & ->)|(Hfresh & _)].
  - intros Hroom. apply append_to_succs_ok; [done|].
    apply token_id_returns; [done|]. destruct Hroom as [Hin|Hlt]; [left | right]; auto.
  - intros delimiters str r H. by apply tokenize_run_spec in H as (_ & _ & ? & _).
Qed.

Lemma append_to_succs_records_edge_witness :
  wf (state_of "a") ∧
  ∃ cid st st',
    token_id "b" (state_of "a") = Ok (cid, st) ∧
    append_to_succs "a" "b" st = Ok st' ∧
    ∃ pid arr,
      hash_find "a" st' = Ok pid ∧ hash_find "b" st' = Ok cid ∧
      succs st' !! Z.to_nat pid = Some (arr ++ ["b"]).
Proof.
  split; [exact (proj1 (wf_state_of "a"))|].
  destruct (token_id "b" (state_of "a")) as [[cid st]|e] eqn:H;
    [|vm_compute in H; discriminate H].
  destruct (append_to_succs_records_edge (state_of "a") st "a" "b" cid
              (proj1 (wf_state_of "a")) H) as (Hedge & Hreturns & _).
  destruct Hreturns as [st' H'].
  { left. apply (bool_decide_unpack _). vm_compute. exact I. }
  exists cid, st, st'. split; [reflexivity|]. split; [exact H'|].
  destruct (Hedge st' H')
    as (pid & st1 & arr & cap & _ & _ & _ & (_ & _ & Hp) & (_ & _ & Hc) & _ & _
        & _ & _ & _ & Harr & _).
  exists pid, arr. split; [exact Hp|]. split; [exact Hc | exact Harr].
Defined.

(** The two lines on the table that holds "a": "b" gets identifier 1, is
    appended to the successor list of "a", the capacity of which becomes
    4, and both spellings are found. *)
Lemma append_to_succs_after_token_id :
  ('(_, st) ← token_id "b" (state_of "a");
   st' ← append_to_succs "a" "b" st;
   Ok (tokens st', succs st', succs_caps st', hash_find "a" st', hash_find "b" st')) =
  Ok (["a"; "b"], [["b"]; []], [4; 0], Ok 0, Ok 1).
Proof. by_computation. Qed.

(** Aside, outside the program: called on its own with a second argument
    that no [token_id] has seen, which the tokenizer never does, the
    function interns the first argument and none else. *)
Lemma append_to_succs_alone :
  (st' ← append_to_succs "a" "b" boot;
   Ok (tokens st', succs st', succs_caps st', hash_find "a" st', hash_find "b" st')) =
  Ok (["a"], [["b"]], [4], Ok 0, Ok (-1)).
Proof. by_computation. Qed.

(** Capacities along five appends to the same list: 4, 4, 4, 4, 8. *)
Lemma append_to_succs_doubles :
  (st1 ← append_to_succs "a" "b" boot;
   st2 ← append_to_succs "a" "c" st1;
   st3 ← append_to_succs "a" "b" st2;
   st4 ← append_to_succs "a" "d" st3;
   st5 ← append_to_succs "a" "e" st4;
   Ok (succs_caps st1, succs_caps st4, succs_caps st5, succs st5)) =
  Ok ([4], [4], [8], [["b"; "c"; "b"; "d"; "e"]]).
Proof. by_computation. Qed.

(** "A" is followed by "B" twice and by "C" once. *)
Lemma succs_frequency_example :
  tokenize_report "A B A C A B" =
    Ok (["A"; "B"; "A"; "C"; "A"; "B"],
        [("A", "B"); ("B", "A"); ("A", "C"); ("C", "A"); ("A", "B")],
        ["A"; "B"; "C"],
        [["B"; "C"; "B"]; ["A"]; ["A"]],
        [Ok 0; Ok 1; Ok 0; Ok 2; Ok 0; Ok 1]).
Proof. by_computation. Qed.

(** C5 fails on the empty vocabulary.  When the text holds no token (here a
    single space), [main] still calls [generate_sentence]; the walk starts
    from the empty string and its first pass calls [token_id] on it, which
    interns it: the call leaves one token, the empty spelling, with
    identifier 0 and an empty successor list, where there was none. *)
Theorem generate_sentence_interns_empty :
  tokens (state_of " ") = [] ∧
  hash_find EmptyString (state_of " ") = Ok (-1) ∧
  hash_index (state_of " ") 5381 = -1 ∧
  (λ '(out, st', _), (out, tokens st', succs st', succs_caps st',
                      hash_index st' 5381, hash_find EmptyString st')) <$>
    generate_sentence EmptyString 4096 (state_of " ") sample_rng =
  Ok (EmptyString, [EmptyString], [[]], [0], 0, Ok 0).
Proof. by_computation. Qed.

(** C6. [generate_sentence] never writes past the caller's buffer.  For
    every state of the globals, every random stream and every [out_size]:
    the call never fails on a write that does not fit (nor does the model
    run out of iterations); when it returns, the buffer is untouched if
    [out_size] is 0 and otherwise holds a string shorter than [out_size],
    so that string and its terminator lie within the buffer; it does return
    in every well-formed state whose successors are interned; and a pass
    through the loop appends a successor only when the output, the
    separator, the successor and the terminator together take fewer than
    [out_size] bytes, leaving the output as it was otherwise. *)
Theorem generate_sentence_fits (out : string) (out_size : Z) (st : state) (r : rng) :
  0 ≤ out_size →
  (∀ e, generate_sentence_run out out_size st r = Err e →
     e ≠ BufferOverflow ∧ e ≠ OutOfFuel) ∧
  (∀ w, generate_sentence_run out out_size st r = Ok w →
     (out_size = 0 → w_out w = out) ∧
     (0 < out_size → strlen (w_out w) < out_size)) ∧
  (wf st → succs_closed st → is_ok (generate_sentence_run out out_size st r)) ∧
  (∀ out0 token st0 r0 s, walk_step out_size out0 token st0 r0 = Ok s →
     match s with
     | Break out' _ _ Terminal | Next out' _ _ _ =>
         ∃ next, out' = (out0 +:+ " ") +:+ next ∧
                 strlen out0 + 1 + strlen next + 1 < out_size
     | Break out' _ _ _ => out' = out0
     end).
Proof.
  intros Hnn. split; [|split; [|split]].
  - intros e He. apply generate_sentence_run_Err in He; [|done].
    destruct He as [-> | [-> | ->]]; done.
  - intros w Hw.
    apply generate_sentence_run_Ok in Hw; [|done].
    destruct Hw as [[-> ->]|(Hpos & start_id & r1 & token & _ & _ & Hlen & Hw)].
    { split; [done | lia]. }
    split; [lia|]. intros _.
    destruct Hw as [[_ ->]|[_ Hw]]; [cbn; lia|].
    apply (walk_loop_Ok out_size 0) in Hw as ([->|Hlt] & _); [lia | lia |].
    apply Forall_forall. intros arr _. apply Forall_forall. intros t _.
    apply strlen_nonneg.
  - intros Hwf Hclosed.
    destruct (generate_sentence_run_wf out out_size st r Hnn Hwf Hclosed) as (w & Hw & _).
    by exists w.
  - intros out0 token st0 r0 s Hs.
    apply walk_step_Ok in Hs as (id & st1 & arr & _ & _ & Hstep).
    destruct s as [out' st' r' o|out' next st' r'].
    + apply step_of_break in Hstep as [_ [[Ho ->]|(-> & next & _ & -> & _ & Hfit)]].
      * by destruct o.
      * by exists next.
    + apply step_of_succs_member in Hstep as (_ & _ & _ & -> & _ & Hfit).
      by exists next.
Qed.

Lemma generate_sentence_fits_witness :
  0 ≤ 4096 ∧
  ∃ w, generate_sentence_run EmptyString 4096 alice_state sample_rng = Ok w ∧
       strlen (w_out w) < 4096.
Proof.
  split; [lia|].
  destruct (generate_sentence_fits EmptyString 4096 alice_state sample_rng)
    as (_ & Hlen & Hok & _); [lia|].
  destruct (Hok (proj1 wf_alice_state) (proj2 wf_alice_state)) as [w Hw].
  exists w. split; [exact Hw|]. apply (Hlen w Hw). lia.
Defined.

(** Small buffers: nothing is written into one of 0 bytes; the first token
    is cut to [out_size - 1] bytes; "Bob ran!" and its terminator would
    fill 9 bytes, and are appended from 10 bytes on. *)
Lemma generate_sentence_small_buffers :
  w_out <$> generate_sentence_run "old" 0 alice_state sample_rng = Ok "old" ∧
  w_out <$> generate_sentence_run "old" 1 alice_state sample_rng = Ok EmptyString ∧
  w_out <$> generate_sentence_run "old" 2 alice_state sample_rng = Ok "B" ∧
  w_out <$> generate_sentence_run "old" 3 alice_state sample_rng = Ok "Bo" ∧
  w_out <$> generate_sentence_run "old" 9 alice_state sample_rng = Ok "Bob" ∧
  w_out <$> generate_sentence_run "old" 10 alice_state sample_rng = Ok "Bob ran!".
Proof. by_computation. Qed.

(** C7. A walk always ends.  For every state of the globals (any successor
    graph, cyclic or not), every random stream and every [out_size], the
    call never runs out of iterations: [out_size] passes are enough.  When
    it returns, the number of passes through the loop is at most
    [out_size], the bound for the shortest possible token, one byte; and
    at most [out_size / m] when every spelling of a non-empty vocabulary
    and of its successor lists has at least [m] bytes. *)
Theorem walk_terminates (out : string) (out_size : Z) (st : state) (r : rng) :
  0 ≤ out_size →
  (∀ e, generate_sentence_run out out_size st r = Err e → e ≠ OutOfFuel) ∧
  (wf st → succs_closed st → is_ok (generate_sentence_run out out_size st r)) ∧
  (∀ w, generate_sentence_run out out_size st r = Ok w →
     (0 ≤ w_steps w ≤ out_size / 1) ∧
     (∀ m, 1 ≤ m → tokens st ≠ [] →
        Forall (λ t, m ≤ strlen t) (tokens st) →
        Forall (Forall (λ t, m ≤ strlen t)) (succs st) →
        w_steps w ≤ out_size / m)).
Proof.
  intros Hnn. split; [|split].
  - intros e He. apply generate_sentence_run_Err in He; [|done].
    destruct He as [-> | [-> | ->]]; done.
  - intros Hwf Hclosed.
    destruct (generate_sentence_run_wf out out_size st r Hnn Hwf Hclosed) as (w & Hw & _).
    by exists w.
  - intros w Hw. apply generate_sentence_run_Ok in Hw; [|done].
    destruct Hw as [[-> ->]|(Hpos & start_id & r1 & token & _ & Htoken & Hlen & Hw)].
    { cbn. split; [done|]. intros m Hm _ _ _. apply Z.div_le_lower_bound; lia. }
    destruct Hw as [[_ ->]|[_ Hw]].
    { cbn. split; [rewrite Z.div_1_r; lia|].
      intros m Hm _ _ _. apply Z.div_le_lower_bound; lia. }
    pose proof (strlen_nonneg (substring 0 (Z.to_nat (out_size - 1)) token)) as Hout1.
    split.
    + apply (walk_loop_Ok out_size 0) in Hw as (_ & Hsteps & _).
      * rewrite Z.div_1_r. lia.
      * apply Forall_forall. intros arr _. apply Forall_forall. intros t _.
        apply strlen_nonneg.
    + intros m Hm Hne Htoks Hsuccs.
      apply (walk_loop_Ok out_size m) in Hw as (_ & Hsteps & _); [|done].
      apply Z.div_le_lower_bound; [lia|].
      destruct Hsteps as [->|[Hpos' Hsteps]]; [lia|].
      assert (Hm_token : m ≤ strlen token).
      { unfold start_token in Htoken.
        destruct (Z.eqb_spec (tokens_size st) 0) as [Hz|_].
        - unfold tokens_size in Hz. destruct (tokens st); [done | simpl in Hz; lia].
        - apply array_get_Ok in Htoken as [_ Htoken].
          rewrite Forall_forall in Htoks. apply Htoks.
          by eapply list_elem_of_lookup_2. }
      assert (Hwhole : strlen (substring 0 (Z.to_nat (out_size - 1)) token) = strlen token).
      { unfold strlen in *. rewrite substring_length in *. nia. }
      rewrite Hwhole in Hsteps. nia.
Qed.

Lemma walk_terminates_witness :
  0 ≤ 24 ∧
  ∃ w, generate_sentence_run EmptyString 24 (state_of "Go on Go on") sample_rng = Ok w ∧
       0 ≤ w_steps w ≤ 24.
Proof.
  split; [lia|].
  destruct (generate_sentence_run EmptyString 24 (state_of "Go on Go on") sample_rng)
    as [w|e] eqn:Hrun.
  - exists w. split; [reflexivity|].
    destruct (walk_terminates EmptyString 24 (state_of "Go on Go on") sample_rng)
      as (_ & _ & Hsteps); [lia|].
    destruct (Hsteps w Hrun) as [Hle _]. rewrite Z.div_1_r in Hle. exact Hle.
  - exfalso. revert Hrun. vm_compute. discriminate.
Defined.

(** A walk on a cycle: "Go" is followed by "on" and "on" by "Go"; in a
    buffer of 24 bytes the walk is cut after seven passes, within the
    bound 24 / 2 for tokens of two bytes. *)
Lemma walk_on_a_cycle :
  sentence_report 24 (state_of "Go on Go on") sample_rng =
    Ok ("Go on Go on Go on Go", ["Go"; "on"], [["on"; "on"]; ["Go"]], Truncated, 7).
Proof. by_computation. Qed.





(** With the stream 3, 10, 17, ... the first draw picks identifier
    3 mod 5 = 3, "Bob"; among three tokens the draws are 0, 1, 2 and the
    third one hits "You"; the empty vocabulary gives 0. *)
Lemma start_selection_examples :
  fst <$> random_token_id_that_starts_a_sentence alice_state sample_rng = Ok 3 ∧
  fst <$> random_token_id_that_starts_a_sentence (state_of "who are You") sample_rng
    = Ok 2 ∧
  fst <$> random_token_id_that_starts_a_sentence boot sample_rng = Ok 0.
Proof. by_computation. Qed.

(** C9. Tokenizing "Alice saw Bob. Bob ran!" on space, CR and LF yields the
    five tokens in order and records the four edges in order; every token
    is interned (identifiers 0 to 4, found again by [hash_find]), the last
    one with an empty successor list; and a text of a single token interns
    it with an empty successor list and records no edge. *)
Theorem tokenize_alice :
  tokenize_report "Alice saw Bob. Bob ran!" =
    Ok (["Alice"; "saw"; "Bob."; "Bob"; "ran!"],
        [("Alice", "saw"); ("saw", "Bob."); ("Bob.", "Bob"); ("Bob", "ran!")],
        ["Alice"; "saw"; "Bob."; "Bob"; "ran!"],
        [["saw"]; ["Bob."]; ["Bob"]; ["ran!"]; []],
        [Ok 0; Ok 1; Ok 2; Ok 3; Ok 4]) ∧
  tokenize_report "Alice" = Ok (["Alice"], [], ["Alice"], [[]], [Ok 0]).
Proof. by_computation. Qed.

(** C10 as stated fails: nothing the caller can look at after a call says
    how the walk ended.  With the tokens "Hello." and "Help" and a buffer
    of four bytes, the walk that starts at "Hello." ends at a terminal
    token and the one that starts at "Help" is cut by the size bound; both
    leave "Hel" in the buffer and the globals as they were. *)
Lemma walk_outcome_not_reported :
  ¬ ∃ report : string → Z → state → outcome,
      ∀ out out_size st r w,
        generate_sentence_run out out_size st r = Ok w →
        report (w_out w) out_size (w_state w) = w_outcome w.
Proof.
  intros [report Hreport].
  pose proof (wf_state_of "Hello. Help") as [Hwf Hclosed].
  assert (Hne : tokens (state_of "Hello. Help") ≠ []) by (vm_compute; discriminate).
  destruct (generate_sentence_run_wf EmptyString 4 _ rng_zeros
              ltac:(lia) Hwf Hclosed) as (w0 & Hw0 & Hst0).
  destruct (generate_sentence_run_wf EmptyString 4 _ rng_ones
              ltac:(lia) Hwf Hclosed) as (w1 & Hw1 & Hst1).
  pose proof (Hreport _ _ _ _ _ Hw0) as H0.
  pose proof (Hreport _ _ _ _ _ Hw1) as H1.
  rewrite (Hst0 Hne) in H0. rewrite (Hst1 Hne) in H1.
  assert (E0 : (λ w, (w_out w, w_outcome w)) <$>
                 generate_sentence_run EmptyString 4 (state_of "Hello. Help") rng_zeros
               = Ok ("Hel", Terminal)) by (vm_compute; reflexivity).
  assert (E1 : (λ w, (w_out w, w_outcome w)) <$>
                 generate_sentence_run EmptyString 4 (state_of "Hello. Help") rng_ones
               = Ok ("Hel", Truncated)) by (vm_compute; reflexivity).
  rewrite Hw0 in E0. rewrite Hw1 in E1.
  injection E0 as Eo0 Ec0. injection E1 as Eo1 Ec1.
  rewrite Eo0, Ec0 in H0. rewrite Eo1, Ec1 in H1. congruence.
Qed.

(** A dead end and a size truncation that leave the same buffer. *)
Lemma dead_end_looks_like_truncation :
  sentence_report 12 (state_of "Alice saw") sample_rng =
    Ok ("Alice saw", ["Alice"; "saw"], [["saw"]; []], DeadEnd, 2) ∧
  sentence_report 12 (state_of "Alice saw Bob") sample_rng =
    Ok ("Alice saw", ["Alice"; "saw"; "Bob"], [["saw"]; ["Bob"]; []], Truncated, 2).
Proof. by_computation. Qed.

(** C10, as the code has it.  [generate_sentence] returns the buffer and
    nothing else.  When the buffer is longer than every token, its last
    character tells a terminal walk from the others: the walk ended at a
    token that ends in '.', '?' or '!' exactly when the buffer does, so the
    driver's test [ends_with_char] on '?' or '!' succeeds only after such a
    walk; a dead end and a size truncation both leave a buffer that does
    not end a sentence. *)
Theorem terminal_outcome_visible (out : string) (out_size : Z) (st : state)
    (r : rng) (w : walk) :
  0 < out_size →
  Forall (λ t, strlen t < out_size) (tokens st) →
  generate_sentence_run out out_size st r = Ok w →
  (w_outcome w = Terminal ↔ token_ends_a_sentence (w_out w) = true) ∧
  (∀ c, c = "."%char ∨ c = "?"%char ∨ c = "!"%char →
        ends_with_char (w_out w) c = true → w_outcome w = Terminal) ∧
  (w_outcome w = DeadEnd ∨ w_outcome w = Truncated →
   token_ends_a_sentence (w_out w) = false).
Proof.
  intros Hpos Hfit Hw.
  pose proof (terminal_iff_ends out out_size st r w Hpos Hfit Hw) as Hiff.
  split; [done|]. split.
  - intros c Hc Hends. apply Hiff. by eapply ends_with_terminal.
  - intros Ho. apply not_true_is_false. intros Hends.
    apply Hiff in Hends. destruct Ho; congruence.
Qed.

Lemma terminal_outcome_visible_witness :
  0 < 4096 ∧
  Forall (λ t, strlen t < 4096) (tokens alice_state) ∧
  ∃ w, generate_sentence_run EmptyString 4096 alice_state sample_rng = Ok w ∧
       (w_outcome w = Terminal ↔ token_ends_a_sentence (w_out w) = true).
Proof.
  split; [lia|].
  assert (Hfit : Forall (λ t, strlen t < 4096) (tokens alice_state)).
  { vm_compute. repeat constructor. }
  split; [exact Hfit|].
  destruct (generate_sentence_run EmptyString 4096 alice_state sample_rng)
    as [w|e] eqn:Hrun.
  - exists w. split; [reflexivity|].
    apply (terminal_outcome_visible EmptyString 4096 alice_state sample_rng w);
      [lia | exact Hfit | exact Hrun].
  - exfalso. revert Hrun. vm_compute. discriminate.
Defined.

(** * More of the program *)

(** ** The scrubber *)

(** X1. [replace_non_printable_chars_with_space] rewrites the book in
    place, byte by byte: the length stays; every byte is printable
    afterwards; the byte at each position is the old one when that was
    printable and a space otherwise; a text of printable bytes is left as
    it is; and a second pass changes nothing. *)
Theorem scrub_makes_printable (s : string) :
  String.length (replace_non_printable_chars_with_space s) = String.length s ∧
  Forall (λ c, isprint c = true)
    (list_ascii_of_string (replace_non_printable_chars_with_space s)) ∧
  (∀ n c, String.get n s = Some c →
     String.get n (replace_non_printable_chars_with_space s) =
       Some (if isprint c then c else " "%char)) ∧
  (Forall (λ c, isprint c = true) (list_ascii_of_string s) →
   replace_non_printable_chars_with_space s = s) ∧
  replace_non_printable_chars_with_space (replace_non_printable_chars_with_space s) =
    replace_non_printable_chars_with_space s.
Proof.
  split; [apply scrub_length|]. split; [apply scrub_printable|].
  split; [apply scrub_get|]. split; [apply scrub_fixed|].
  apply scrub_fixed, scrub_printable.
Qed.

(** ** The tokenizer *)

(** X2. The tokens the loop of [tokenize_and_fill_succs] gets from
    [strtok_r] depend on the text and the delimiters only, not on the
    globals; none of them is empty, none holds a delimiter, and each of
    their bytes is a byte of the text. *)
Theorem tokens_are_words (delimiters str : string) :
  (∀ st r, tokenize_run delimiters str st = Ok r →
     t_yielded r = strtok_all delimiters str) ∧
  Forall (λ t, t ≠ EmptyString ∧ delimiter_free delimiters t ∧
               Forall (λ c, occurs c str) (list_ascii_of_string t))
    (strtok_all delimiters str).
Proof.
  split; [intros st r; apply tokenize_run_yielded|].
  pose proof (strtok_all_tokens delimiters str) as Htok.
  assert (Hchars : Forall (λ t, Forall (λ c, occurs c str) (list_ascii_of_string t))
                      (strtok_all delimiters str)).
  { apply strtok_all_chars, Forall_forall. by intros c Hc. }
  rewrite Forall_forall in Htok. rewrite Forall_forall in Hchars.
  apply Forall_forall. intros t Ht. destruct (Htok t Ht) as [Hne Hfree].
  split; [done|]. split; [done|]. by apply Hchars.
Qed.

(** X3. Tokenizing is the inverse of joining: words that are not empty and
    hold no delimiter, written with one delimiter between neighbours, come
    back as the same words in the same order. *)
Theorem tokenize_joined_words (delimiters : string) (sep : ascii) (ws : list string) :
  is_delim delimiters sep = true →
  Forall (λ t, t ≠ EmptyString ∧ delimiter_free delimiters t) ws →
  strtok_all delimiters (join_words sep ws) = ws.
Proof. apply strtok_all_join. Qed.

Lemma tokenize_joined_words_witness :
  is_delim main_delimiters " " = true ∧
  strtok_all main_delimiters (join_words " " ["Alice"; "saw"; "Bob."]) =
    ["Alice"; "saw"; "Bob."].
Proof.
  split; [reflexivity|].
  apply (tokenize_joined_words main_delimiters " " ["Alice"; "saw"; "Bob."]);
    [reflexivity|].
  repeat (constructor; [split; [discriminate | repeat constructor]|]).
  constructor.
Defined.

(** X4. A text that holds delimiters only, or nothing, has no token:
    [tokenize_and_fill_succs] returns with the globals as they were. *)
Theorem tokenize_blank_text (delimiters str : string) (st : state) :
  only_delimiters delimiters str →
  tokenize_and_fill_succs delimiters str st = Ok st.
Proof.
  intros H. unfold tokenize_and_fill_succs.
  by rewrite (tokenize_run_blank delimiters str st H).
Qed.

Lemma tokenize_blank_text_witness :
  only_delimiters main_delimiters (String " " (String "010" (String "013" " "))) ∧
  tokenize_and_fill_succs main_delimiters
    (String " " (String "010" (String "013" " "))) alice_state = Ok alice_state.
Proof.
  assert (H : only_delimiters main_delimiters
                (String " " (String "010" (String "013" " "))))
    by (repeat constructor).
  split; [exact H|]. exact (tokenize_blank_text _ _ alice_state H).
Defined.

(** X5. After the scrubber, the tokenizer of [main] sees words of visible
    characters only: no word of the book is empty, and every byte of every
    word has a code from 33 to 126. *)
Theorem book_words_are_visible (book : string) :
  Forall (λ t, t ≠ EmptyString ∧
               Forall (λ c, 33 ≤ char_code c ≤ 126) (list_ascii_of_string t))
    (book_words book).
Proof. apply book_words_visible. Qed.

(** X6. Lookup after the build.  Once the tokenizer has run over a text
    from the empty table, [hash_find] returns for every string: the
    identifier under which [tokens] holds it when it is a word of the text,
    and -1 when it is not. *)
Theorem lookup_after_tokenize (delimiters str : string) (r : tokenized) (t : string) :
  tokenize_run delimiters str boot = Ok r →
  (t ∈ strtok_all delimiters str →
   ∃ id : nat, hash_find t (t_state r) = Ok (Z.of_nat id) ∧
               tokens (t_state r) !! id = Some t) ∧
  (t ∉ strtok_all delimiters str → hash_find t (t_state r) = Ok (-1)).
Proof. apply hash_find_after_build. Qed.

Lemma lookup_after_tokenize_witness :
  ∃ r, tokenize_run main_delimiters "Alice saw Bob." boot = Ok r ∧
       hash_find "Bob" (t_state r) = Ok (-1) ∧
       ∃ id : nat, hash_find "saw" (t_state r) = Ok (Z.of_nat id).
Proof.
  destruct (tokenize_run main_delimiters "Alice saw Bob." boot) as [r|e] eqn:H;
    [|vm_compute in H; discriminate H].
  exists r. split; [reflexivity|].
  destruct (lookup_after_tokenize main_delimiters "Alice saw Bob." r "Bob" H)
    as [_ Habsent].
  destruct (lookup_after_tokenize main_delimiters "Alice saw Bob." r "saw" H)
    as [Hword _].
  split.
  - apply Habsent. apply (bool_decide_unpack _). vm_compute. exact I.
  - destruct Hword as (id & Hid & _).
    + apply (bool_decide_unpack _). vm_compute. exact I.
    + exists id. exact Hid.
Defined.

(** ** The hash table *)

(** X7. [hash_str] stays within [unsigned long], so every index the
    probing computes from it lies within [hash_index]; and the hash of a
    string followed by another is the hash of the second started from the
    hash of the first. *)
Theorem hash_str_in_range (s : string) :
  0 ≤ hash_str s < 2 ^ ULONG_BITS ∧
  (∀ p, 0 ≤ slot s p < HASH_SIZE) ∧
  (∀ t, hash_str (s +:+ t) = hash_str_from (hash_str s) t).
Proof.
  split; [by apply hash_str_from_range|]. split; [apply slot_range|].
  intros t. apply hash_str_from_app.
Qed.

(** X8. Whatever the table holds, when [hash_find] returns an identifier
    other than -1, that identifier is not negative and [tokens] holds the
    searched spelling there: the comparison of the spellings protects the
    answer against collisions. *)
Theorem hash_find_answers_spelling (st : state) (s : string) (id : Z) :
  hash_find s st = Ok id → id ≠ -1 →
  0 ≤ id ∧ tokens st !! Z.to_nat id = Some s.
Proof. apply hash_find_sound. Qed.

Lemma hash_find_answers_spelling_witness :
  hash_find "Bob." alice_state = Ok 2 ∧ 2 ≠ -1 ∧
  tokens alice_state !! Z.to_nat 2 = Some "Bob.".
Proof.
  assert (H : hash_find "Bob." alice_state = Ok 2) by (vm_compute; reflexivity).
  split; [exact H|]. split; [lia|].
  apply (hash_find_answers_spelling alice_state "Bob." 2 H). lia.
Defined.

(** X9. In a well-formed table [hash_find] always returns, and exactly:
    the identifier of the spelling when it is interned, -1 when it is
    not. *)
Theorem hash_find_exact (st : state) (s : string) :
  wf st →
  (∃ id : nat, tokens st !! id = Some s ∧ hash_find s st = Ok (Z.of_nat id)) ∨
  ((s ∉ tokens st) ∧ hash_find s st = Ok (-1)).
Proof. apply hash_find_total. Qed.

Lemma hash_find_exact_witness :
  wf alice_state ∧
  ((∃ id : nat, tokens alice_state !! id = Some "ran!" ∧
                hash_find "ran!" alice_state = Ok (Z.of_nat id)) ∨
   (("ran!" ∉ tokens alice_state) ∧ hash_find "ran!" alice_state = Ok (-1))).
Proof.
  split; [apply wf_alice_state|].
  apply (hash_find_exact alice_state "ran!"), wf_alice_state.
Defined.

(** X10. [hash_insert] returns exactly when some slot of the table is
    empty; it then writes the identifier into the first empty slot on the
    probe path of the spelling and changes nothing else; with no empty slot
    it stops the program with status 1. *)
Theorem hash_insert_first_empty (st : state) (s : string) (id : Z) :
  (is_ok (hash_insert s id st) ↔
   ∃ j, 0 ≤ j < HASH_SIZE ∧ hash_index st j = -1) ∧
  (∀ st', hash_insert s id st = Ok st' →
     ∃ p, 0 ≤ p < HASH_SIZE ∧ hash_index st (slot s p) = -1 ∧
          (∀ q, 0 ≤ q < p → hash_index st (slot s q) ≠ -1) ∧
          st' = set_hash_index st (slot s p) id) ∧
  (∀ e, hash_insert s id st = Err e → e = ExitFailure).
Proof.
  split; [apply hash_insert_room_iff|].
  split; [intros st'; apply hash_insert_Ok|].
  intros e. apply hash_insert_loop_Err.
Qed.

(** X11. The three cases of [token_id] in a well-formed table.  An
    interned spelling gets its identifier and nothing changes.  A new
    spelling, while the table has fewer than [HASH_SIZE] tokens, gets the
    next identifier, [tokens_size], and is appended with an empty successor
    list of capacity 0, and the table is well-formed again.  A new spelling
    in a table of [HASH_SIZE] tokens stops the program with status 1; and
    the call fails in no other way. *)
Theorem token_id_three_cases (st : state) (s : string) :
  wf st →
  (∀ id : nat, tokens st !! id = Some s → token_id s st = Ok (Z.of_nat id, st)) ∧
  ((s ∉ tokens st) → tokens_size st < HASH_SIZE →
   ∃ st', token_id s st = Ok (tokens_size st, st') ∧ wf st' ∧
          tokens st' = tokens st ++ [s] ∧
          succs st' = succs st ++ [[]] ∧
          succs_caps st' = succs_caps st ++ [0]) ∧
  ((s ∉ tokens st) → tokens_size st = HASH_SIZE →
   token_id s st = Err ExitFailure) ∧
  (∀ e, token_id s st = Err e →
     e = ExitFailure ∧ (s ∉ tokens st) ∧ tokens_size st = HASH_SIZE).
Proof.
  intros Hwf. split; [intros id; by apply token_id_interned|].
  split; [|split; [by apply token_id_full | intros e; by apply token_id_exit]].
  intros Hfresh Hroom.
  destruct (token_id_fresh_ok st s Hwf Hfresh Hroom) as [[id st'] Hid].
  destruct (token_id_fresh st st' s id Hwf Hfresh Hid) as (-> & Hrest).
  by exists st'.
Qed.

Lemma token_id_three_cases_witness :
  wf boot ∧
  ∃ st', token_id "Alice" boot = Ok (0, st') ∧ tokens st' = ["Alice"].
Proof.
  split; [apply wf_boot|].
  destruct (token_id_three_cases boot "Alice" wf_boot) as (_ & Hfresh & _).
  destruct Hfresh as (st' & Hid & _ & Htok & _).
  - apply not_elem_of_nil.
  - exact HASH_SIZE_pos.
  - exists st'. split; [exact Hid | exact Htok].
Defined.

(** ** Capacities *)

(** X12. The allocated sizes are right in every state of a run, that is
    after the tokenizer and after any number of calls of
    [generate_sentence]: [tokens] has room for its [tokens_size] entries,
    its capacity is 32768 doubled some number of times and no more than
    twice what was needed; a successor list has capacity 0 while it is
    empty, and otherwise room for its entries in a capacity that is
    [INIT_SUCC_CAP] doubled some number of times and no more than twice
    what was needed. *)
Theorem capacities_in_a_run (st : state) : reachable st → caps_ok st.
Proof. apply reachable_caps. Qed.

Lemma capacities_in_a_run_witness : reachable alice_state ∧ caps_ok alice_state.
Proof.
  split; [apply reachable_alice_state|].
  apply (capacities_in_a_run alice_state), reachable_alice_state.
Defined.

(** X13. [ensure_tokens_capacity] is called in time: when [token_id]
    returns, in a well-formed table with right capacities, the identifier
    it returns lies within the allocated block, and the capacities are
    right again. *)
Theorem token_id_within_capacity (st st' : state) (s : string) (id : Z) :
  wf st → caps_ok st → token_id s st = Ok (id, st') →
  caps_ok st' ∧ id < tokens_cap st'.
Proof. apply token_id_caps. Qed.

Lemma token_id_within_capacity_witness :
  wf boot ∧ caps_ok boot ∧
  ∃ id st', token_id "Alice" boot = Ok (id, st') ∧
            caps_ok st' ∧ id < tokens_cap st'.
Proof.
  split; [apply wf_boot|]. split; [apply caps_ok_boot|].
  destruct (token_id "Alice" boot) as [[id st']|e] eqn:H;
    [|vm_compute in H; discriminate H].
  exists id, st'. split; [reflexivity|].
  exact (token_id_within_capacity boot st' "Alice" id wf_boot caps_ok_boot H).
Defined.

(** ** The states of a run *)

(** X14. Every state of a run is well-formed, and every successor is an
    interned token: the successor arrays run parallel to [tokens], every
    slot of [hash_index] is empty or holds an assigned identifier, no
    identifier sits in two slots, no spelling has two identifiers, every
    token sits in a slot of its probe path with no empty slot before it,
    and every entry of every successor list is a spelling of [tokens]. *)
Theorem invariant_in_a_run (st : state) : reachable st → wf st ∧ succs_closed st.
Proof. apply reachable_wf. Qed.

Lemma invariant_in_a_run_witness :
  reachable alice_state ∧ wf alice_state ∧ succs_closed alice_state.
Proof.
  split; [apply reachable_alice_state|].
  apply (invariant_in_a_run alice_state), reachable_alice_state.
Defined.

(** ** The sentences *)

(** X15. A sentence is a path of the successor graph.  When
    [generate_sentence] returns on a table with words, the buffer holds a
    first token, cut to [out_size - 1] bytes, and then tokens with one
    space before each; the first token is in the table and begins with an
    uppercase letter unless no token does; each further token is in the
    successor list of the one before; no token but the last ends a
    sentence; the walk is terminal exactly when the last token ends a
    sentence, and a dead end when the last token has no successor. *)
Theorem sentence_is_a_path (out : string) (out_size : Z) (st : state)
    (r : rng) (w : walk) :
  0 < out_size → wf st → succs_closed st → tokens st ≠ [] →
  generate_sentence_run out out_size st r = Ok w →
  ∃ start ts,
    start ∈ tokens st ∧
    (starts_a_sentence start = true ∨
     Forall (λ t, starts_a_sentence t = false) (tokens st)) ∧
    w_out w = append_tokens (substring 0 (Z.to_nat (out_size - 1)) start) ts ∧
    chain st start ts ∧
    (∀ (i : nat) t, (start :: ts) !! i = Some t → (i < length ts)%nat →
       token_ends_a_sentence t = false) ∧
    (w_outcome w = Terminal ↔
     token_ends_a_sentence (default start (last ts)) = true) ∧
    (w_outcome w = DeadEnd →
       ∃ id : nat, tokens st !! id = Some (default start (last ts)) ∧
                   succs st !! id = Some []).
Proof. apply generate_sentence_run_chain. Qed.

Lemma sentence_is_a_path_witness :
  0 < 4096 ∧ wf alice_state ∧ succs_closed alice_state ∧ tokens alice_state ≠ [] ∧
  ∃ w, generate_sentence_run EmptyString 4096 alice_state sample_rng = Ok w ∧
       ∃ start ts,
         start ∈ tokens alice_state ∧
         w_out w = append_tokens (substring 0 (Z.to_nat (4096 - 1)) start) ts ∧
         chain alice_state start ts.
Proof.
  assert (Hne : tokens alice_state ≠ []) by (vm_compute; discriminate).
  split; [lia|]. split; [apply wf_alice_state|]. split; [apply wf_alice_state|].
  split; [exact Hne|].
  destruct (generate_sentence_run_wf EmptyString 4096 alice_state sample_rng
              ltac:(lia) (proj1 wf_alice_state) (proj2 wf_alice_state))
    as (w & Hw & _).
  exists w. split; [exact Hw|].
  destruct (sentence_is_a_path EmptyString 4096 alice_state sample_rng w
              ltac:(lia) (proj1 wf_alice_state) (proj2 wf_alice_state) Hne Hw)
    as (start & ts & Hstart & _ & Hout & Hchain & _).
  exists start, ts. split; [exact Hstart|]. split; [exact Hout | exact Hchain].
Defined.

(** X16. With no word in the table, which is where a book without a word
    leaves it, a call of [generate_sentence] writes the empty string; the
    table holds no word afterwards either, at most the empty spelling, so
    the same is true of every later call. *)
Theorem no_words_no_sentence (out : string) (out_size : Z) (st : state)
    (r : rng) (w : walk) :
  0 < out_size → mute st →
  generate_sentence_run out out_size st r = Ok w →
  w_out w = EmptyString ∧ mute (w_state w).
Proof. apply generate_sentence_run_mute. Qed.

Lemma no_words_no_sentence_witness :
  0 < 4096 ∧ mute boot ∧
  ∃ w, generate_sentence_run "old" 4096 boot sample_rng = Ok w ∧
       w_out w = EmptyString ∧ mute (w_state w).
Proof.
  split; [lia|]. split; [apply mute_boot|].
  destruct (generate_sentence_run_wf "old" 4096 boot sample_rng
              ltac:(lia) (proj1 mute_boot) (mute_closed boot mute_boot))
    as (w & Hw & _).
  exists w. split; [exact Hw|].
  exact (no_words_no_sentence "old" 4096 boot sample_rng w ltac:(lia) mute_boot Hw).
Defined.

(** X17. A retry loop of [main] on a table with words returns whatever
    the number of tries, leaves the globals as they were, and prints at
    most one buffer, which ends with the character the loop asks for and
    was written by one of its calls of [generate_sentence]. *)
Theorem retry_loop_reads_only (c : ascii) (st : state) (tries : nat)
    (buf : string) (r : rng) :
  wf st → succs_closed st → tokens st ≠ [] →
  ∃ printed buf' r',
    retry_loop tries c buf st r = Ok (printed, buf', st, r') ∧
    ∀ s, printed = Some s →
      ends_with_char s c = true ∧
      ∃ buf0 r0 w, generate_sentence_run buf0 BUF_SIZE st r0 = Ok w ∧ w_out w = s.
Proof. intros Hwf Hclosed Hne. by apply retry_loop_walk. Qed.

Lemma retry_loop_reads_only_witness :
  wf alice_state ∧ succs_closed alice_state ∧ tokens alice_state ≠ [] ∧
  ∃ printed buf' r',
    retry_loop 3 "!" EmptyString alice_state sample_rng =
      Ok (printed, buf', alice_state, r').
Proof.
  assert (Hne : tokens alice_state ≠ []) by (vm_compute; discriminate).
  split; [apply wf_alice_state|]. split; [apply wf_alice_state|].
  split; [exact Hne|].
  destruct (retry_loop_reads_only "!" alice_state 3 EmptyString sample_rng
              (proj1 wf_alice_state) (proj2 wf_alice_state) Hne)
    as (printed & buf' & r' & H & _).
  exists printed, buf', r'. exact H.
Defined.

(** X18. When every token is shorter than the buffer, what a retry loop
    prints is a complete sentence: the buffer of a walk that ended at a
    token ending the sentence, not one cut by the size bound or stopped at
    a dead end.  On a table with words the loop leaves the globals as they
    were; on a table without words it prints nothing, and the globals it
    leaves hold no word either, at most the empty spelling. *)
Theorem printed_sentence_is_complete (c : ascii) (st : state) (tries : nat)
    (buf : string) (r : rng) (printed : option string) (buf' : string)
    (st' : state) (r' : rng) :
  wf st → succs_closed st →
  Forall (λ t, strlen t < BUF_SIZE) (tokens st) →
  c = "."%char ∨ c = "?"%char ∨ c = "!"%char →
  retry_loop tries c buf st r = Ok (printed, buf', st', r') →
  (tokens st ≠ [] → st' = st) ∧
  (tokens st = [] → printed = None ∧ mute st') ∧
  ∀ s, printed = Some s →
    ends_with_char s c = true ∧
    ∃ buf0 r0 w, generate_sentence_run buf0 BUF_SIZE st r0 = Ok w ∧
                 w_out w = s ∧ w_outcome w = Terminal.
Proof. apply retry_loop_complete. Qed.

Lemma printed_sentence_is_complete_witness :
  wf alice_state ∧ succs_closed alice_state ∧
  Forall (λ t, strlen t < BUF_SIZE) (tokens alice_state) ∧
  ∃ printed buf' st' r',
    retry_loop 3 "!" EmptyString alice_state sample_rng =
      Ok (printed, buf', st', r') ∧ st' = alice_state.
Proof.
  assert (Hne : tokens alice_state ≠ []) by (vm_compute; discriminate).
  assert (Hlen : Forall (λ t, strlen t < BUF_SIZE) (tokens alice_state)).
  { apply (bool_decide_unpack _). vm_compute. exact I. }
  split; [apply wf_alice_state|]. split; [apply wf_alice_state|].
  split; [exact Hlen|].
  destruct (retry_loop_walk "!" alice_state 3 (proj1 wf_alice_state)
              (proj2 wf_alice_state) Hne EmptyString sample_rng)
    as (printed & buf' & r' & H & _).
  exists printed, buf', alice_state, r'. split; [exact H|].
  destruct (printed_sentence_is_complete "!" alice_state 3 EmptyString sample_rng
              printed buf' alice_state r' (proj1 wf_alice_state)
              (proj2 wf_alice_state) Hlen ltac:(by right; right) H)
    as [Hst _].
  exact (Hst Hne).
Defined.

(** On the empty table a try of the question loop prints nothing and
    leaves the empty spelling interned. *)
Lemma retry_loop_on_empty_table :
  (λ '(printed, _, st', _), (printed, tokens st', succs st')) <$>
    retry_loop 1 "?" "old" boot sample_rng =
  Ok (None, [EmptyString], [[]]).
Proof. by_computation. Qed.

(** ** The program *)

(** X19. [main] runs to its end exactly when the book has no more
    distinct words than [hash_index] has slots, [HASH_SIZE]; otherwise it
    stops with status 1, at the first word that finds the table full.  It
    fails in no other way: no read or write outside an array, no write
    past the buffer, no division by zero. *)
Theorem main_exit_code (book buf : string) (r : rng) :
  (is_ok (main book buf r) ↔
   Z.of_nat (length (first_seen [] (book_words book))) ≤ HASH_SIZE) ∧
  (∀ e, main book buf r = Err e → e = ExitFailure).
Proof.
  split; [|intros e; apply main_exit_status].
  destruct (main_exit_cases book buf r) as [Hok Hfull]. split; [|exact Hok].
  intros [a Ha].
  destruct (Z_le_gt_dec (Z.of_nat (length (first_seen [] (book_words book))))
              HASH_SIZE) as [Hle|Hgt]; [done|].
  rewrite Hfull in Ha by lia. discriminate Ha.
Qed.

(** X20. What [main] prints.  The sentence of the first loop ends with a
    question mark and the one of the second with an exclamation mark; each
    is made of words of the scrubbed book separated by single spaces, it
    starts with a word of the book, of which the first 4095 bytes are
    kept, and every two neighbours in it are neighbours, in that order,
    somewhere in the book. *)
Theorem main_prints_book_sentences (book buf : string) (r : rng)
    (question exclamation : option string) :
  main book buf r = Ok (question, exclamation) →
  (∀ s, question = Some s →
     ends_with_char s "?" = true ∧
     made_of (book_words book) (Z.to_nat (BUF_SIZE - 1)) s) ∧
  (∀ s, exclamation = Some s →
     ends_with_char s "!" = true ∧
     made_of (book_words book) (Z.to_nat (BUF_SIZE - 1)) s).
Proof. apply main_prints. Qed.

Lemma main_prints_book_sentences_witness :
  main "Is it? Yes!" "old" sample_rng = Ok (Some "Is it?", Some "Yes!") ∧
  made_of (book_words "Is it? Yes!") (Z.to_nat (BUF_SIZE - 1)) "Is it?" ∧
  made_of (book_words "Is it? Yes!") (Z.to_nat (BUF_SIZE - 1)) "Yes!".
Proof.
  assert (H : main "Is it? Yes!" "old" sample_rng = Ok (Some "Is it?", Some "Yes!"))
    by (vm_compute; reflexivity).
  split; [exact H|].
  destruct (main_prints_book_sentences "Is it? Yes!" "old" sample_rng _ _ H)
    as [Hq Hx].
  split; [apply (Hq "Is it?" eq_refl) | apply (Hx "Yes!" eq_refl)].
Defined.

(** X21. A book without a visible character, only spaces and bytes that
    are not printable, or no byte at all, makes [main] run its two loops
    to the end and print nothing. *)
Theorem main_blank_book (book buf : string) (r : rng) :
  Forall (λ c, isprint c = false ∨ c = " "%char) (list_ascii_of_string book) →
  main book buf r = Ok (None, None).
Proof. apply main_blank. Qed.

Lemma main_blank_book_witness :
  Forall (λ c, isprint c = false ∨ c = " "%char)
    (list_ascii_of_string (String " " (String "010" (String "009" " ")))) ∧
  main (String " " (String "010" (String "009" " "))) "old" sample_rng =
    Ok (None, None).
Proof.
  assert (H : Forall (λ c, isprint c = false ∨ c = " "%char)
                (list_ascii_of_string (String " " (String "010" (String "009" " "))))).
  { repeat (constructor; [first [by left | by right]|]). constructor. }
  split; [exact H|]. exact (main_blank_book _ "old" sample_rng H).
Defined.

(** X22. [main] invents no punctuation: a book in which no question mark
    occurs gets no question printed, and one without an exclamation mark
    no exclamation. *)
Theorem main_needs_the_mark (book buf : string) (r : rng)
    (question exclamation : option string) :
  main book buf r = Ok (question, exclamation) →
  (¬ occurs "?" book → question = None) ∧
  (¬ occurs "!" book → exclamation = None).
Proof. apply main_without_mark. Qed.

Lemma main_needs_the_mark_witness :
  ¬ occurs "?" "Alice saw Bob!" ∧
  ∃ exclamation, main "Alice saw Bob!" "old" sample_rng = Ok (None, exclamation).
Proof.
  assert (Hno : ¬ occurs "?" "Alice saw Bob!").
  { unfold occurs. apply (bool_decide_unpack _). vm_compute. exact I. }
  split; [exact Hno|].
  destruct (main_exit_cases "Alice saw Bob!" "old" sample_rng) as [Hok _].
  destruct Hok as [[q x] H]; [vm_compute; discriminate|].
  exists x.
  destruct (main_needs_the_mark "Alice saw Bob!" "old" sample_rng q x H) as [Hq _].
  rewrite (Hq Hno) in H. exact H.
Defined.

(** ** The last byte *)

(** X23. [last_char] returns the terminator for the empty string and the
    byte at index [strlen(s) - 1] otherwise, so the byte appended last;
    [ends_with_char] compares that byte with its argument. *)
Theorem last_char_is_final_byte (s : string) :
  (s = EmptyString → last_char s = NUL) ∧
  (s ≠ EmptyString → String.get (String.length s - 1) s = Some (last_char s)) ∧
  (∀ c, last_char (s +:+ String c EmptyString) = c) ∧
  (∀ c, ends_with_char s c = true ↔ last_char s = c).
Proof.
  split; [by intros ->|]. split; [apply last_char_get|].
  split; [apply last_char_snoc|]. intros c. apply bool_decide_eq_true.
Qed.
